(** * A shallow embedding of [birnn_attn_text_clf.py]

    The file embeds the class [RNNTextClassifier] of
    [nlp-models/pytorch/birnn_attn_text_clf.py]: the batch generator, the
    learning-rate scheduler, the sequence reversal, the bidirectional encoder,
    the attention pooling, and the training and evaluation loops.

    Conventions.
    - Python [int] is [Z]; a Python [float] is a real number of [R]
      ([math.log] is [ln], [math.exp] is [exp]): rounding is not modelled.
    - A Python exception is a [Raise] in the [result] monad.
    - A tensor of rank [n] is a list nested [n] times.
    - The object [self] and what the methods print or ask of the optimizer
      are the [world] that [fit] and [evaluate] transform.
    - What the class takes from [torch] and [sklearn] without fixing it (the
      LSTM cells, the loss, the Adam step, the shuffle) is a parameter. *)

From Stdlib Require Import ZArith List Lia Bool Arith.
From Stdlib Require Import Reals Lra.
From Stdlib Require Import Permutation.
Import ListNotations.

Open Scope Z_scope.

(* ================================================================== *)
(** * Part I: the embedding *)
(* ================================================================== *)

(** ** Python: exceptions, [range], slices *)

Module Py.

(** The exceptions met below.  Which of the last two [torch] raises for a
    bad index or a bad shape depends on its version; no property below
    depends on it. *)
Inductive exn : Type :=
| ValueError          (* a bad argument value, e.g. [range(_, _, 0)] *)
| ZeroDivisionError   (* [x / 0] *)
| IndexError          (* an index out of range *)
| RuntimeError.       (* a shape rejected by a tensor operation *)

Inductive result (A : Type) : Type :=
| Ok (a : A)
| Raise (e : exn).

Arguments Ok {A} a.
Arguments Raise {A} e.

Definition bind {A B : Type} (c : result A) (k : A -> result B) : result B :=
  match c with
  | Ok a => k a
  | Raise e => Raise e
  end.

(** [mapM f l]: a comprehension or loop whose body may raise; the first
    exception, in list order, aborts it. *)
Fixpoint mapM {A B : Type} (f : A -> result B) (l : list A) : result (list B) :=
  match l with
  | [] => Ok []
  | a :: l' =>
      bind (f a) (fun b => bind (mapM f l') (fun bs => Ok (b :: bs)))
  end.

(** The iteration of [range(start, stop, step)] for [step <> 0]: [i] is
    produced while it has not reached [stop] in the direction of [step]. *)
Fixpoint range_loop (fuel : nat) (i stop step : Z) : list Z :=
  match fuel with
  | O => []
  | S fuel' =>
      if (if 0 <? step then i <? stop else stop <? i)
      then i :: range_loop fuel' (i + step) stop step
      else []
  end.

(** [range(start, stop, step)], with the [ValueError] of a zero step.  Every
    iteration moves [i] by at least one towards [stop], so [|stop - start|]
    iterations exhaust the range. *)
Definition range (start stop step : Z) : result (list Z) :=
  if step =? 0 then Raise ValueError
  else Ok (range_loop (Z.to_nat (Z.abs (stop - start))) start stop step).

(** The bound of a slice [arr[i:j]], as Python clips it to [0 .. len]. *)
Definition clip (len i : Z) : Z :=
  if i <? 0 then Z.max (i + len) 0 else Z.min i len.

(** [arr[i:j]]. *)
Definition slice {A : Type} (arr : list A) (i j : Z) : list A :=
  let len := Z.of_nat (length arr) in
  let lo := clip len i in
  let hi := clip len j in
  firstn (Z.to_nat (hi - lo)) (skipn (Z.to_nat lo) arr).

(** [zip(a, b)]: stops with the shorter of the two. *)
Definition zip {A B : Type} (a : list A) (b : list B) : list (A * B) :=
  combine a b.

(** [enumerate(l)]. *)
Definition enumerate {A : Type} (l : list A) : list (Z * A) :=
  combine (map Z.of_nat (seq 0 (length l))) l.

End Py.

Import Py.

Declare Scope py_scope.
Delimit Scope py_scope with py.
Notation "x <- c ;; k" := (bind c (fun x => k))
  (at level 61, c at next level, right associativity) : py_scope.
Open Scope py_scope.

(** ** [gen_batch] (lines 111-114)

    The generator is embedded by the list of what it yields, or the exception
    its first [next] raises. *)

Definition gen_batch {A : Type} (arr : list A) (batch_size : Z)
  : result (list (list A)) :=
  idx <- range 0 (Z.of_nat (length arr)) batch_size ;;
  Ok (map (fun i => slice arr i (i + batch_size)) idx).

(** ** Tensors

    A tensor of rank [n] over [A] is a list nested [n] times; a tensor of
    [torch] is rectangular, which [has_shape] states.  A nested list does not
    record the sizes of the axes below an empty axis: [size] answers [0] for
    them, which the operations below never look at. *)

Module Tensor.

Fixpoint tensor (A : Type) (n : nat) : Type :=
  match n with
  | O => A
  | S m => list (tensor A m)
  end.

Fixpoint has_shape {A : Type} (n : nat) : list nat -> tensor A n -> Prop :=
  match n with
  | O => fun s _ => s = []
  | S m => fun s X =>
      match s with
      | [] => False
      | k :: s' => length X = k /\ Forall (has_shape m s') X
      end
  end.

(** An axis index [dim] of a rank-[n] tensor counts from the end when it is
    negative; it is valid when [-n <= dim < n]. *)
Definition wrap_dim (n : nat) (dim : Z) : result nat :=
  if (- Z.of_nat n <=? dim) && (dim <? Z.of_nat n)
  then Ok (Z.to_nat (if dim <? 0 then dim + Z.of_nat n else dim))
  else Raise IndexError.

(** [X.size(d)] for an axis [d] already wrapped. *)
Fixpoint size {A : Type} (n : nat) : tensor A n -> nat -> result Z :=
  match n with
  | O => fun _ _ => Raise IndexError
  | S m => fun X d =>
      match d with
      | O => Ok (Z.of_nat (length X))
      | S d' =>
          match X with
          | [] => if (d' <? m)%nat then Ok 0 else Raise IndexError
          | x :: _ => size m x d'
          end
      end
  end.

(** [X[i]] for an index tensor entry [i]: no negative index is accepted. *)
Definition gather {A : Type} (X : list A) (i : Z) : result A :=
  if (0 <=? i) && (i <? Z.of_nat (length X))
  then match nth_error X (Z.to_nat i) with
       | Some x => Ok x
       | None => Raise IndexError
       end
  else Raise IndexError.

(** [torch.index_select(X, d, indices)]. *)
Fixpoint index_select {A : Type} (n : nat)
  : tensor A n -> nat -> list Z -> result (tensor A n) :=
  match n with
  | O => fun _ _ _ => Raise IndexError
  | S m => fun X d indices =>
      match d with
      | O => mapM (gather X) indices
      | S d' => mapM (fun x => index_select m x d' indices) X
      end
  end.

(** [X[i0, i1, ...]]: the element at a full index, if there is one. *)
Fixpoint entry {A : Type} (n : nat) : tensor A n -> list nat -> option A :=
  match n with
  | O => fun x idx => match idx with [] => Some x | _ :: _ => None end
  | S m => fun X idx =>
      match idx with
      | [] => None
      | i :: idx' =>
          match nth_error X i with
          | Some x => entry m x idx'
          | None => None
          end
      end
  end.

(** [torch.cat((X, Y), d)]; along an inner axis the outer sizes must agree. *)
Fixpoint cat {A : Type} (n : nat)
  : tensor A n -> tensor A n -> nat -> result (tensor A n) :=
  match n with
  | O => fun _ _ _ => Raise RuntimeError
  | S m => fun X Y d =>
      match d with
      | O => Ok (X ++ Y)
      | S d' =>
          if (length X =? length Y)%nat
          then mapM (fun xy => cat m (fst xy) (snd xy) d') (combine X Y)
          else Raise RuntimeError
      end
  end.

(** An elementwise operation. *)
Fixpoint tmap {A B : Type} (f : A -> B) (n : nat) : tensor A n -> tensor B n :=
  match n with
  | O => fun x => f x
  | S m => fun X => map (tmap f m) X
  end.

(** An elementwise operation on two tensors of one shape. *)
Fixpoint tzip {A B C : Type} (f : A -> B -> C) (n : nat)
  : tensor A n -> tensor B n -> tensor C n :=
  match n with
  | O => fun x y => f x y
  | S m => fun X Y => map (fun xy => tzip f m (fst xy) (snd xy)) (combine X Y)
  end.

(** The elements in row-major order. *)
Fixpoint flatten {A : Type} (n : nat) : tensor A n -> list A :=
  match n with
  | O => fun x => [x]
  | S m => fun X => flat_map (flatten m) X
  end.

(** [rows] consecutive rows of [k] elements. *)
Definition chunks {A : Type} (rows k : nat) (l : list A) : list (list A) :=
  map (fun r => firstn k (skipn (r * k) l)) (seq 0 rows).

(** The sizes a [view] ends with: at most one [-1], inferred from the number
    of elements; the sizes must account for every element. *)
Definition infer_sizes (numel : Z) (sizes : list Z) : result (list nat) :=
  let known := filter (fun s => negb (s =? -1)) sizes in
  let p := fold_right Z.mul 1 known in
  if existsb (fun s => s <? 0) known then Raise RuntimeError
  else if (length known =? length sizes)%nat
  then if p =? numel then Ok (map Z.to_nat sizes) else Raise RuntimeError
  else if (S (length known) =? length sizes)%nat
  then if (p =? 0) || negb (numel mod p =? 0) then Raise RuntimeError
       else Ok (map (fun s => Z.to_nat (if s =? -1 then numel / p else s)) sizes)
  else Raise RuntimeError.

(** [X.view(r, c)]. *)
Definition view2 {A : Type} (n : nat) (X : tensor A n) (r c : Z)
  : result (tensor A 2) :=
  let flat := flatten n X in
  sizes <- infer_sizes (Z.of_nat (length flat)) [r; c] ;;
  match sizes with
  | [r'; c'] => Ok (chunks r' c' flat)
  | _ => Raise RuntimeError
  end.

(** [X.view(a, b, c)]. *)
Definition view3 {A : Type} (n : nat) (X : tensor A n) (a b c : Z)
  : result (tensor A 3) :=
  let flat := flatten n X in
  sizes <- infer_sizes (Z.of_nat (length flat)) [a; b; c] ;;
  match sizes with
  | [a'; b'; c'] => Ok (chunks a' b' (chunks (a' * b') c' flat))
  | _ => Raise RuntimeError
  end.

End Tensor.

Import Tensor.

(** ** The operations of [torch] on real tensors *)

Module Torch.

Local Open Scope R_scope.

Definition dot (u v : list R) : R :=
  fold_right Rplus 0 (map (fun p => fst p * snd p) (combine u v)).

(** The parameters of a [torch.nn.Linear]: one weight row and one bias per
    output feature. *)
Record linear : Type := Linear { weight : list (list R); bias : list R }.

Definition linear_row (l : linear) (x : list R) : result (list R) :=
  if forallb (fun w => (length w =? length x)%nat) (weight l)
  then Ok (map (fun wb => dot (fst wb) x + snd wb) (combine (weight l) (bias l)))
  else Raise RuntimeError.

(** A [torch.nn.Linear] applied to a rank-2 input, row by row. *)
Definition linear_apply (l : linear) (X : tensor R 2) : result (tensor R 2) :=
  mapM (linear_row l) X.

(** The axis of a [softmax] called without [dim], as
    [torch.nn.functional._get_softmax_dim] chooses it from the rank: axis 0
    for rank 0, 1 and 3, axis 1 otherwise. *)
Definition get_softmax_dim (ndim : nat) : nat :=
  match ndim with
  | 0%nat | 1%nat | 3%nat => 0%nat
  | _ => 1%nat
  end.

(** [softmax] along the axis [d]: every element is exponentiated and divided
    by the sum of the exponentials that differ from it in the index of axis
    [d] only. *)
Fixpoint softmax_along (n : nat) : tensor R n -> nat -> result (tensor R n) :=
  match n with
  | O => fun _ _ => Raise IndexError
  | S m => fun X d =>
      match d with
      | O =>
          match map (tmap exp m) X with
          | [] => Ok []
          | e0 :: es =>
              let total := fold_left (tzip Rplus m) es e0 in
              Ok (map (fun e => tzip Rdiv m e total) (e0 :: es))
          end
      | S d' => mapM (fun x => softmax_along m x d') X
      end
  end.

(** [torch.nn.functional.softmax(X)], no [dim] given. *)
Definition softmax (n : nat) (X : tensor R n) : result (tensor R n) :=
  softmax_along n X (get_softmax_dim n).

(** The transpose of a matrix with at least one row. *)
Definition transpose_mat (M : list (list R)) : list (list R) :=
  match M with
  | [] => []
  | r :: _ => map (fun j => map (fun row => nth j row 0) M) (seq 0 (length r))
  end.

(** [torch.transpose(X, 1, 2)] at rank 3. *)
Definition transpose12 (X : tensor R 3) : tensor R 3 := map transpose_mat X.

Definition matmul (P Q : list (list R)) : result (list (list R)) :=
  if forallb (fun row => (length row =? length Q)%nat) P
  then Ok (map (fun row => map (dot row) (transpose_mat Q)) P)
  else Raise RuntimeError.

(** [torch.bmm(P, Q)]: one matrix product per batch entry. *)
Definition bmm (P Q : tensor R 3) : result (tensor R 3) :=
  if (length P =? length Q)%nat
  then mapM (fun pq => matmul (fst pq) (snd pq)) (combine P Q)
  else Raise RuntimeError.

(** [X.squeeze(2)] where axis 2 has size 1, as it has after [bmm] with a
    right operand of last size 1. *)
Definition squeeze2 (X : tensor R 3) : result (tensor R 2) :=
  mapM (mapM (fun v : list R =>
                match v with
                | [x] => Ok x
                | _ => Raise RuntimeError
                end)) X.

(** A [torch.nn.Embedding] applied to one token index. *)
Definition embed (table : list (list R)) (tok : Z) : result (list R) :=
  gather table tok.

(** A [torch.nn.Embedding] applied to a (batch, seq_len) index tensor. *)
Definition embedding (table : list (list R)) (X : tensor Z 2)
  : result (tensor R 3) :=
  mapM (mapM (embed table)) X.

End Torch.

Import Torch.

(** ** Stateful methods

    A method that mutates [self] or prints is a function from the world
    before the call to its outcome and the world after it; the world survives
    an exception. *)

Module Stateful.

Section Monad.

Variable W : Type.

Definition M (A : Type) : Type := W -> result A * W.

Definition ret {A : Type} (a : A) : M A := fun w => (Ok a, w).

Definition bindM {A B : Type} (c : M A) (k : A -> M B) : M B :=
  fun w =>
    match c w with
    | (Ok a, w') => k a w'
    | (Raise e, w') => (Raise e, w')
    end.

(** A computation that neither reads nor writes the world. *)
Definition lift {A : Type} (r : result A) : M A := fun w => (r, w).

Definition get : M W := fun w => (Ok w, w).

Definition modify (f : W -> W) : M unit := fun w => (Ok tt, f w).

(** A [for] loop over [l] whose body updates the local variables [s]. *)
Fixpoint for_loop {A S : Type} (body : S -> A -> M S) (l : list A) (s : S)
  : M S :=
  match l with
  | [] => ret s
  | a :: l' => bindM (body s a) (for_loop body l')
  end.

End Monad.

Arguments ret {W A} a.
Arguments bindM {W A B} c k.
Arguments lift {W A} r.
Arguments get {W}.
Arguments modify {W} f.
Arguments for_loop {W A S} body l s.

End Stateful.

Import Stateful.

Declare Scope stateful_scope.
Delimit Scope stateful_scope with stateful.
Notation "x <~ c ;; k" := (bindM c (fun x => k))
  (at level 61, c at next level, right associativity) : stateful_scope.
Open Scope stateful_scope.

(** ** [reverse] (lines 128-133) *)

Definition reverse {A : Type} (n : nat) (X : tensor A n) (dim : Z)
  : result (tensor A n) :=
  d <- wrap_dim n dim ;;
  sz <- size n X d ;;
  indices <- range (sz - 1) (-1) (-1) ;;
  index_select n X d indices.

(** ** [adjust_lr] (lines 117-125) *)

(** [x / n] for a float [x] and an int [n]. *)
Definition float_div (x : R) (n : Z) : result R :=
  if n =? 0 then Raise ZeroDivisionError else Ok (x / IZR n)%R.

(** [int(a / b)] for ints [a] and [b]: the quotient truncated towards zero
    (the float quotient is exact enough for that below [2^53]). *)
Definition int_quotient (a b : Z) : result Z :=
  if b =? 0 then Raise ZeroDivisionError else Ok (Z.quot a b).

(** One entry of [optimizer.param_groups]: the hyperparameters of Adam. *)
Record param_group : Type := ParamGroup {
  pg_lr : R;
  pg_betas : R * R;
  pg_eps : R;
  pg_weight_decay : R
}.

(** [param_group['lr'] = v]. *)
Definition set_lr (v : R) (g : param_group) : param_group :=
  {| pg_lr := v; pg_betas := pg_betas g; pg_eps := pg_eps g;
     pg_weight_decay := pg_weight_decay g |}.

(** The one group [torch.optim.Adam(self.parameters())] starts with. *)
Definition adam_defaults : param_group :=
  {| pg_lr := 0.001; pg_betas := (0.9, 0.999)%R; pg_eps := 0.00000001;
     pg_weight_decay := 0 |}.

Definition max_lr : R := 0.005.
Definition min_lr : R := 0.001.

Section Classifier.

(** The collaborators the class takes from [torch] and [sklearn]. *)

(** The weights of a [torch.nn.LSTM]. *)
Variable lstm_params : Type.

(** A one-layer [torch.nn.LSTM(batch_first=True)] called with the initial
    state [None]: its per-timestep output, (batch, seq_len, hidden_size).
    With one layer its [dropout] has no effect. *)
Variable lstm : lstm_params -> tensor R 3 -> result (tensor R 3).

(** The moment estimates of [torch.optim.Adam]. *)
Variable adam_state : Type.

(** [torch.nn.CrossEntropyLoss()] on logits and integer labels. *)
Variable criterion : tensor R 2 -> list Z -> result R.

(** The index [torch.max(_, 1)[1]] has for one row. *)
Variable argmax : list R -> Z.

Record optimizer_t : Type := Optimizer {
  param_groups : list param_group;
  opt_state : adam_state
}.

(** The trainable parameters. *)
Record parameters : Type := Parameters {
  encoder : list (list R);
  fw_lstm : lstm_params;
  bw_lstm : lstm_params;
  attn_fc : linear;
  fc : linear
}.

(** [optimizer.zero_grad(); loss.backward(); optimizer.step()] for the loss
    of one batch: the parameters and the moment estimates after the step. *)
Variable adam_step :
  parameters -> optimizer_t -> tensor Z 2 -> list Z -> parameters * adam_state.

(** [sklearn.utils.shuffle(X, y)] on arrays of one length; the first
    argument numbers the draw. *)
Variable shuffle : Z -> tensor Z 2 -> list Z -> tensor Z 2 * list Z.

Record model : Type := Model {
  vocab_size : Z;
  n_out : Z;
  embedding_dim : Z;
  cell_size : Z;
  n_layer : Z;
  dropout : R;
  params : parameters;
  optimizer : optimizer_t
}.

Definition adjust_lr (opt : optimizer_t) (current_step total_steps : Z)
  : result (optimizer_t * R) :=
  decay_rate <- float_div (ln (min_lr / max_lr)) (- total_steps) ;;
  let lr := (max_lr * exp (- decay_rate * IZR current_step))%R in
  Ok ({| param_groups := map (set_lr lr) (param_groups opt);
         opt_state := opt_state opt |}, lr).

(** ** [bidirectional_rnn] (lines 37-42) *)

Definition bidirectional_rnn (me : model) (X : tensor Z 2)
  : result (tensor R 3) :=
  X_reversed <- reverse 2 X 1 ;;
  emb <- embedding (encoder (params me)) X ;;
  fw_out <- lstm (fw_lstm (params me)) emb ;;
  emb_reversed <- embedding (encoder (params me)) X_reversed ;;
  bw_out <- lstm (bw_lstm (params me)) emb_reversed ;;
  bw_back <- reverse 3 bw_out 1 ;;
  cat 3 fw_out bw_back 2.

(** ** [attention] (lines 45-51) *)

(** The local variable [alphas]. *)
Definition attention_alphas (me : model) (X : tensor R 3) (batch_size : Z)
  : result (tensor R 3) :=
  reshaped <- view2 3 X (-1) (2 * cell_size me) ;;
  projected <- linear_apply (attn_fc (params me)) reshaped ;;
  let reduced := tmap tanh 2 projected in
  scores <- view3 2 reduced batch_size (-1) 1 ;;
  softmax 3 scores.

Definition attention (me : model) (X : tensor R 3) (batch_size : Z)
  : result (tensor R 2) :=
  alphas <- attention_alphas me X batch_size ;;
  pooled <- bmm (transpose12 X) alphas ;;
  squeeze2 pooled.

(** ** [forward] (lines 54-59) *)

Definition forward (me : model) (X : tensor Z 2) (batch_size : Z)
  : result (tensor R 2) :=
  birnn_out <- bidirectional_rnn me X ;;
  attn_out <- attention me birnn_out batch_size ;;
  linear_apply (fc (params me)) attn_out.

(** ** The world of [fit] and [evaluate] *)

Inductive event : Type :=
| OptimizerStep (global_step : Z) (lrs : list R)
    (* [optimizer.step()], with the [lr] of every parameter group *)
| PrintStep (epoch n_epoch local_step n_batch : Z) (loss acc lr : R)
| PrintAccuracy (acc : R).

Record world : Type := World {
  self : model;
  trace : list event
}.

Definition emit (e : event) (w : world) : world :=
  {| self := self w; trace := trace w ++ [e] |}.

(** [self.optimizer = opt]. *)
Definition set_optimizer (opt : optimizer_t) (w : world) : world :=
  let me := self w in
  {| self := {| vocab_size := vocab_size me; n_out := n_out me;
                embedding_dim := embedding_dim me; cell_size := cell_size me;
                n_layer := n_layer me; dropout := dropout me;
                params := params me; optimizer := opt |};
     trace := trace w |}.

(** Lines 80-82 at the step [global_step]. *)
Definition optimizer_step (global_step : Z) (X_batch : tensor Z 2)
  (y_batch : list Z) (w : world) : world :=
  let me := self w in
  let upd := adam_step (params me) (optimizer me) X_batch y_batch in
  {| self := {| vocab_size := vocab_size me; n_out := n_out me;
                embedding_dim := embedding_dim me; cell_size := cell_size me;
                n_layer := n_layer me; dropout := dropout me;
                params := fst upd;
                optimizer := {| param_groups := param_groups (optimizer me);
                                opt_state := snd upd |} |};
     trace := trace w
              ++ [OptimizerStep global_step
                    (map pg_lr (param_groups (optimizer me)))] |}.

(** [(preds == labels).sum()] for two rank-1 tensors: the positions at which
    they agree when they have one length; an operand of one element is
    broadcast over the other; any other pair of lengths is refused. *)
Definition count_eq (preds labels : list Z) : result Z :=
  if (length preds =? length labels)%nat
  then Ok (Z.of_nat (length (filter (fun pl => fst pl =? snd pl)
                                    (combine preds labels))))
  else match preds, labels with
       | _, [l] => Ok (Z.of_nat (length (filter (fun p => p =? l) preds)))
       | [p], _ => Ok (Z.of_nat (length (filter (fun l => p =? l) labels)))
       | _, _ => Raise RuntimeError
       end.

(** [(preds == y_batch).mean()] on arrays of one length. *)
Definition mean_eq (preds labels : list Z) : R :=
  (IZR (Z.of_nat (length (filter (fun pl => fst pl =? snd pl)
                                 (combine preds labels))))
   / IZR (Z.of_nat (length labels)))%R.

(** ** [fit] (lines 62-90) *)

(** Lines 73-89: the body of the batch loop. *)
Definition fit_batch (n_epoch n_batch total_steps epoch : Z)
  (global_step : Z) (item : Z * (tensor Z 2 * list Z)) : M world Z :=
  let local_step := fst item in
  let X_batch := fst (snd item) in
  let y_batch := snd (snd item) in
  w <~ get ;;
  preds <~ lift (forward (self w) X_batch (Z.of_nat (length X_batch))) ;;
  loss <~ lift (criterion preds y_batch) ;;
  ol <~ lift (adjust_lr (optimizer (self w)) global_step total_steps) ;;
  _ <~ modify (set_optimizer (fst ol)) ;;
  _ <~ modify (optimizer_step global_step X_batch y_batch) ;;
  let acc := mean_eq (map argmax preds) y_batch in
  _ <~ (if local_step mod 100 =? 0
        then modify (emit (PrintStep (epoch + 1) n_epoch local_step n_batch
                             loss acc (snd ol)))
        else ret tt) ;;
  ret (global_step + 1).

(** [shuffle(X, y)] as [fit] calls it: arrays of different lengths are
    refused with a [ValueError]. *)
Definition shuffled (k : Z) (X : tensor Z 2) (y : list Z)
  : result (tensor Z 2 * list Z) :=
  if (length X =? length y)%nat then Ok (shuffle k X y) else Raise ValueError.

(** Lines 68-89: the body of the epoch loop; its locals are [global_step],
    [X] and [y]. *)
Definition fit_epoch (n_epoch batch_size : Z) (en_shuffle : bool)
  (n_batch total_steps : Z)
  (locals : Z * (tensor Z 2 * list Z)) (epoch : Z)
  : M world (Z * (tensor Z 2 * list Z)) :=
  let global_step := fst locals in
  Xy <~ lift (if en_shuffle
              then shuffled epoch (fst (snd locals)) (snd (snd locals))
              else Ok (snd locals)) ;;
  X_batches <~ lift (gen_batch (fst Xy) batch_size) ;;
  y_batches <~ lift (gen_batch (snd Xy) batch_size) ;;
  global_step <~ for_loop (fit_batch n_epoch n_batch total_steps epoch)
                   (enumerate (zip X_batches y_batches)) global_step ;;
  ret (global_step, Xy).

(** The locals of [fit] when it returns. *)
Definition fit_loop (X : tensor Z 2) (y : list Z)
  (n_epoch batch_size : Z) (en_shuffle : bool)
  : M world (Z * (tensor Z 2 * list Z)) :=
  let global_step := 0 in
  n_batch <~ lift (int_quotient (Z.of_nat (length X)) batch_size) ;;
  let total_steps := n_epoch * n_batch in
  epochs <~ lift (range 0 n_epoch 1) ;;
  for_loop (fit_epoch n_epoch batch_size en_shuffle n_batch total_steps)
    epochs (global_step, (X, y)).

Definition fit (X : tensor Z 2) (y : list Z)
  (n_epoch batch_size : Z) (en_shuffle : bool) : M world unit :=
  _ <~ fit_loop X y n_epoch batch_size en_shuffle ;;
  ret tt.

(** ** [evaluate] (lines 93-108) *)

(** Lines 99-106: the body of the loop; its locals are [correct] and
    [total]. *)
Definition evaluate_batch (locals : Z * Z) (item : tensor Z 2 * list Z)
  : M world (Z * Z) :=
  let correct := fst locals in
  let total := snd locals in
  let X_batch := fst item in
  let labels := snd item in
  w <~ get ;;
  preds <~ lift (forward (self w) X_batch (Z.of_nat (length X_batch))) ;;
  let preds := map argmax preds in
  let total := total + Z.of_nat (length labels) in
  hits <~ lift (count_eq preds labels) ;;
  ret (correct + hits, total).

Definition evaluate (X_test : tensor Z 2) (y_test : list Z) (batch_size : Z)
  : M world unit :=
  let correct := 0 in
  let total := 0 in
  X_batches <~ lift (gen_batch X_test batch_size) ;;
  y_batches <~ lift (gen_batch y_test batch_size) ;;
  locals <~ for_loop evaluate_batch (zip X_batches y_batches)
              (correct, total) ;;
  acc <~ lift (float_div (IZR (fst locals)) (snd locals)) ;;
  modify (emit (PrintAccuracy acc)).

End Classifier.

Arguments Optimizer {adam_state} _ _.
Arguments param_groups {adam_state} _.
Arguments opt_state {adam_state} _.
Arguments Parameters {lstm_params} _ _ _ _ _.
Arguments encoder {lstm_params} _.
Arguments fw_lstm {lstm_params} _.
Arguments bw_lstm {lstm_params} _.
Arguments attn_fc {lstm_params} _.
Arguments fc {lstm_params} _.
Arguments Model {lstm_params adam_state} _ _ _ _ _ _ _ _.
Arguments vocab_size {lstm_params adam_state} _.
Arguments n_out {lstm_params adam_state} _.
Arguments embedding_dim {lstm_params adam_state} _.
Arguments cell_size {lstm_params adam_state} _.
Arguments n_layer {lstm_params adam_state} _.
Arguments dropout {lstm_params adam_state} _.
Arguments params {lstm_params adam_state} _.
Arguments optimizer {lstm_params adam_state} _.
Arguments World {lstm_params adam_state} _ _.
Arguments self {lstm_params adam_state} _.
Arguments trace {lstm_params adam_state} _.
Arguments emit {lstm_params adam_state} _ _.
Arguments set_optimizer {lstm_params adam_state} _ _.
Arguments optimizer_step {lstm_params adam_state} _ _ _ _ _.
Arguments adjust_lr {adam_state} _ _ _.
Arguments bidirectional_rnn {lstm_params} _ {adam_state} _ _.
Arguments attention_alphas {lstm_params adam_state} _ _ _.
Arguments attention {lstm_params adam_state} _ _ _.
Arguments forward {lstm_params} _ {adam_state} _ _ _.
Arguments fit_batch {lstm_params} _ {adam_state} _ _ _ _ _ _ _ _ _.
Arguments fit_epoch {lstm_params} _ {adam_state} _ _ _ _ _ _ _ _ _ _ _.
Arguments fit_loop {lstm_params} _ {adam_state} _ _ _ _ _ _ _ _ _.
Arguments fit {lstm_params} _ {adam_state} _ _ _ _ _ _ _ _ _.
Arguments evaluate_batch {lstm_params} _ {adam_state} _ _ _.
Arguments evaluate {lstm_params} _ {adam_state} _ _ _ _.

(** ** A small instance

    Collaborators and a model small enough to run the methods on: an "LSTM"
    whose output at every timestep is its weight vector, a loss that is
    always zero, an optimizer step that keeps the parameters, and a shuffle
    that keeps the order. *)

Module Small.

Definition lstm (p : list R) (X : tensor R 3) : result (tensor R 3) :=
  Ok (map (map (fun _ : list R => p)) X).

(** A cell that returns, at every timestep, the first vector it has read. *)
Definition first_seen (_ : list R) (X : tensor R 3) : result (tensor R 3) :=
  Ok (map (fun x : list (list R) => map (fun _ : list R => hd [] x) x) X).

Definition criterion (_ : tensor R 2) (_ : list Z) : result R := Ok 0%R.

Definition argmax (_ : list R) : Z := 0.

Definition adam_step (p : parameters (list R)) (_ : optimizer_t unit)
  (_ : tensor Z 2) (_ : list Z) : parameters (list R) * unit := (p, tt).

Definition shuffle (_ : Z) (X : tensor Z 2) (y : list Z)
  : tensor Z 2 * list Z := (X, y).

(** [RNNTextClassifier(vocab_size=2, n_out=2, embedding_dim=2, cell_size=1)]
    with all weights zero but one embedding row and one cell. *)
Definition net : model (list R) unit :=
  {| vocab_size := 2; n_out := 2; embedding_dim := 2; cell_size := 1;
     n_layer := 1; dropout := 0.2;
     params := {| encoder := [[0; 0]; [1; 1]]%R;
                  fw_lstm := [0%R];
                  bw_lstm := [1%R];
                  attn_fc := {| weight := [[0; 0]]%R; bias := [0%R] |};
                  fc := {| weight := [[0; 0]; [0; 0]]%R; bias := [0; 0]%R |} |};
     optimizer := {| param_groups := [adam_defaults]; opt_state := tt |} |}.

Definition start : world (list R) unit := {| self := net; trace := [] |}.

(** One example of three tokens. *)
Definition tokens : tensor Z 2 := [[0; 1; 1]].

(** Three labelled examples of three tokens. *)
Definition examples : tensor Z 2 := [[0; 1; 1]; [1; 0; 1]; [1; 1; 0]].
Definition labels : list Z := [0; 1; 0].

End Small.

(* ================================================================== *)
(** * Part II: the notions the properties are stated in *)
(* ================================================================== *)

(** The ceiling of [a / b] for [0 < b]. *)
Definition ceil_div (a b : Z) : Z := - ((- a) / b).

(** The learning-rate schedule in closed form:
    [max_lr * (min_lr / max_lr) ^ (s / T)]. *)
Definition lr_schedule (s T : Z) : R :=
  (max_lr * exp (ln (min_lr / max_lr) * (IZR s / IZR T)))%R.

(** [reverse] along an axis already wrapped. *)
Definition reverse_at {A : Type} (n : nat) (X : tensor A n) (d : nat)
  : result (tensor A n) :=
  sz <- size n X d ;;
  indices <- range (sz - 1) (-1) (-1) ;;
  index_select n X d indices.

(** The reversal in closed form. *)
Fixpoint rev_axis {A : Type} (n : nat) : nat -> tensor A n -> tensor A n :=
  match n with
  | O => fun _ x => x
  | S m => fun d X =>
      match d with
      | O => rev X
      | S d' => map (rev_axis m d') X
      end
  end.

(** The index whose component on axis [d] is mirrored in a tensor of shape
    [s]; the other components are kept. *)
Fixpoint mirror (s : list nat) (d : nat) (idx : list nat) : list nat :=
  match s, idx with
  | k :: s', i :: idx' =>
      match d with
      | O => (k - S i)%nat :: idx'
      | S d' => i :: mirror s' d' idx'
      end
  | _, _ => idx
  end.

(** The encoder with the embedding done before the reversal: embed; run the
    forward cell; [reverse] the embedded sequence along axis 1 and run the
    backward cell on it; [reverse] that output; [cat] along axis 2. *)
Definition bidirectional_rnn_embed_first {lstm_params : Type}
  (lstm : lstm_params -> tensor R 3 -> result (tensor R 3))
  {adam_state : Type} (me : model lstm_params adam_state) (X : tensor Z 2)
  : result (tensor R 3) :=
  emb <- embedding (encoder (params me)) X ;;
  fw_out <- lstm (fw_lstm (params me)) emb ;;
  emb_reversed <- reverse 3 emb 1 ;;
  bw_out <- lstm (bw_lstm (params me)) emb_reversed ;;
  bw_back <- reverse 3 bw_out 1 ;;
  cat 3 fw_out bw_back 2.

(** The timesteps of every example in reverse order: the last first. *)
Definition reverse_time {A : Type} (X : list (list A)) : list (list A) :=
  map (@rev A) X.

(** Timestep by timestep, the features of [P] followed by those of [Q]. *)
Definition concat_features (P Q : tensor R 3) : tensor R 3 :=
  map (fun pq : list (list R) * list (list R) =>
         map (fun uv : list R * list R => fst uv ++ snd uv)
             (combine (fst pq) (snd pq)))
      (combine P Q).

(** The encoder as the specification words it: embed; run the forward cell
    on the embedded sequence; run the backward cell on the embedded sequence
    in reverse time order and put its output back in the original order;
    concatenate the two outputs feature-wise. *)
Definition bidirectional_rnn_by_spec {lstm_params : Type}
  (lstm : lstm_params -> tensor R 3 -> result (tensor R 3))
  {adam_state : Type} (me : model lstm_params adam_state) (X : tensor Z 2)
  : result (tensor R 3) :=
  emb <- embedding (encoder (params me)) X ;;
  fw_out <- lstm (fw_lstm (params me)) emb ;;
  bw_out <- lstm (bw_lstm (params me)) (reverse_time emb) ;;
  Ok (concat_features fw_out (reverse_time bw_out)).

(** The attention weights of every example summed along the time axis. *)
Definition sum_over_time (alphas : tensor R 3) : list R :=
  map (fun example : list (list R) =>
         fold_right Rplus 0%R (map (fold_right Rplus 0%R) example))
      alphas.

(** The attention weights of every timestep summed along the batch axis
    (the examples have one length). *)
Definition sum_over_batch (alphas : tensor R 3) : list R :=
  match alphas with
  | [] => []
  | a0 :: rest =>
      map (fold_right Rplus 0%R)
          (fold_left (tzip Rplus 2) rest a0 : list (list R))
  end.

(** The correct predictions of one batch of [evaluate]. *)
Definition batch_hits {lstm_params : Type}
  (lstm : lstm_params -> tensor R 3 -> result (tensor R 3))
  {adam_state : Type} (argmax : list R -> Z)
  (me : model lstm_params adam_state) (item : tensor Z 2 * list Z)
  : result Z :=
  preds <- forward lstm me (fst item) (Z.of_nat (length (fst item))) ;;
  count_eq (map argmax preds) (snd item).

Definition sum_Z (l : list Z) : Z := fold_right Z.add 0 l.

(** The examples of all batches. *)
Definition batch_sizes (items : list (tensor Z 2 * list Z)) : Z :=
  sum_Z (map (fun item => Z.of_nat (length (snd item))) items).

(** What [evaluate] divides, batch by batch: the counts of all zipped
    batches over their numbers of labels. *)
Definition accuracy_of_batches {lstm_params : Type}
  (lstm : lstm_params -> tensor R 3 -> result (tensor R 3))
  {adam_state : Type} (argmax : list R -> Z)
  (me : model lstm_params adam_state)
  (X_test : tensor Z 2) (y_test : list Z) (batch_size : Z) : result R :=
  X_batches <- gen_batch X_test batch_size ;;
  y_batches <- gen_batch y_test batch_size ;;
  hits <- mapM (batch_hits lstm argmax me) (zip X_batches y_batches) ;;
  float_div (IZR (sum_Z hits)) (batch_sizes (zip X_batches y_batches)).

(** Each cell returns one sequence per example. *)
Definition per_example {lstm_params : Type}
  (lstm : lstm_params -> tensor R 3 -> result (tensor R 3)) : Prop :=
  forall p (E out : tensor R 3), lstm p E = Ok out -> length out = length E.

(** The predictions that agree with the label of their example. *)
Fixpoint correct_predictions (preds labels : list Z) : Z :=
  match preds, labels with
  | p :: preds', l :: labels' =>
      (if p =? l then 1 else 0) + correct_predictions preds' labels'
  | _, _ => 0
  end.

(** The classes predicted for the examples of one batch. *)
Definition predictions {lstm_params : Type}
  (lstm : lstm_params -> tensor R 3 -> result (tensor R 3))
  {adam_state : Type} (argmax : list R -> Z)
  (me : model lstm_params adam_state) (X_batch : tensor Z 2)
  : result (list Z) :=
  logits <- forward lstm me X_batch (Z.of_nat (length X_batch)) ;;
  Ok (map argmax logits).

(** The accuracy as the specification words it: every example is predicted
    in its batch; the examples whose prediction is their label, divided by
    the number of examples. *)
Definition accuracy_by_spec {lstm_params : Type}
  (lstm : lstm_params -> tensor R 3 -> result (tensor R 3))
  {adam_state : Type} (argmax : list R -> Z)
  (me : model lstm_params adam_state)
  (X_test : tensor Z 2) (y_test : list Z) (batch_size : Z) : result R :=
  X_batches <- gen_batch X_test batch_size ;;
  preds <- mapM (predictions lstm argmax me) X_batches ;;
  float_div (IZR (correct_predictions (concat preds) y_test))
            (Z.of_nat (length X_test)).

(** The calls of [optimizer.step()] in a trace: the step index and the
    learning rates of the parameter groups. *)
Definition optimizer_steps {lstm_params adam_state : Type}
  (w : world lstm_params adam_state) : list (Z * list R) :=
  flat_map (fun ev => match ev with
                      | OptimizerStep global_step lrs => [(global_step, lrs)]
                      | _ => []
                      end) (trace w).

(** [m] consecutive steps from [start] on, each at the scheduled rate in all
    [g] parameter groups. *)
Definition scheduled_steps (T : Z) (g : nat) (start : Z) (m : nat)
  : list (Z * list R) :=
  map (fun k => (start + Z.of_nat k,
                 repeat (lr_schedule (start + Z.of_nat k) T) g))
      (seq 0 m).

(** The number of parameter groups of the optimizer. *)
Definition groups {lstm_params adam_state : Type}
  (w : world lstm_params adam_state) : nat :=
  length (param_groups (optimizer (self w))).

(** What the first two statements of the batch loop of [fit] raise, if
    anything. *)
Definition forward_failure {lstm_params : Type}
  (lstm : lstm_params -> tensor R 3 -> result (tensor R 3))
  {adam_state : Type} (criterion : tensor R 2 -> list Z -> result R)
  (w : world lstm_params adam_state) (item : Z * (tensor Z 2 * list Z))
  : option exn :=
  match forward lstm (self w) (fst (snd item))
          (Z.of_nat (length (fst (snd item)))) with
  | Raise e => Some e
  | Ok preds =>
      match criterion preds (snd (snd item)) with
      | Raise e => Some e
      | Ok _ => None
      end
  end.

(** [sklearn.utils.shuffle] permutes: the lengths stay. *)
Definition keeps_lengths
  (shuffle : Z -> tensor Z 2 -> list Z -> tensor Z 2 * list Z) : Prop :=
  forall (k : Z) (X : tensor Z 2) (y : list Z),
    length (fst (shuffle k X y)) = length X /\
    length (snd (shuffle k X y)) = length y.

(** What the constructor fixes of a model. *)
Definition hyperparameters {lstm_params adam_state : Type}
  (me : model lstm_params adam_state) : Z * Z * Z * Z * Z * R :=
  (vocab_size me, n_out me, embedding_dim me, cell_size me, n_layer me,
   dropout me).

(** The keys of a parameter group other than ['lr']. *)
Definition group_hyperparameters (g : param_group) : R * R * R * R :=
  (fst (pg_betas g), snd (pg_betas g), pg_eps g, pg_weight_decay g).

(** The second world differs from the first in the trainable parameters,
    the moment estimates and the learning rates at most, and its trace
    continues the trace of the first. *)
Definition training_frame {lstm_params adam_state : Type}
  (w w' : world lstm_params adam_state) : Prop :=
  hyperparameters (self w') = hyperparameters (self w) /\
  map group_hyperparameters (param_groups (optimizer (self w')))
  = map group_hyperparameters (param_groups (optimizer (self w))) /\
  exists events, trace w' = trace w ++ events.

(** The timesteps [x] of one example, each scaled by its weight in [a] and
    added up, feature by feature: [sum_t a[t] * x[t][j]] for [j < k]. *)
Definition weighted_sum (k : nat) (x : list (list R)) (a : list R) : list R :=
  map (fun j => fold_right Rplus 0%R
                  (map (fun xa => (nth j (fst xa) 0 * snd xa)%R) (combine x a)))
      (seq 0 k).

(** The timesteps of one example added up as they are. *)
Definition sum_of_steps (k : nat) (x : list (list R)) : list R :=
  map (fun j => fold_right Rplus 0%R (map (fun row => nth j row 0%R) x))
      (seq 0 k).

(** The layers sized as [build_model] sizes them (lines 21-31): a row of
    [embedding_dim] numbers per token of the vocabulary, one attention score
    and [n_out] logits per vector of [2 * cell_size] features. *)
Definition built {lstm_params adam_state : Type}
  (me : model lstm_params adam_state) : Prop :=
  has_shape 2 [Z.to_nat (vocab_size me); Z.to_nat (embedding_dim me)]
    (encoder (params me) : tensor R 2) /\
  has_shape 2 [1%nat; Z.to_nat (2 * cell_size me)]
    (weight (attn_fc (params me)) : tensor R 2) /\
  length (bias (attn_fc (params me))) = 1%nat /\
  has_shape 2 [Z.to_nat (n_out me); Z.to_nat (2 * cell_size me)]
    (weight (fc (params me)) : tensor R 2) /\
  length (bias (fc (params me))) = Z.to_nat (n_out me).

(** Both cells give [cell_size] features per timestep of an embedded
    batch. *)
Definition cells_sized {lstm_params : Type}
  (lstm : lstm_params -> tensor R 3 -> result (tensor R 3))
  {adam_state : Type} (me : model lstm_params adam_state) : Prop :=
  forall p (b s : nat) (E : tensor R 3),
    p = fw_lstm (params me) \/ p = bw_lstm (params me) ->
    has_shape 3 [b; s; Z.to_nat (embedding_dim me)] E ->
    exists out, lstm p E = Ok out /\
                has_shape 3 [b; s; Z.to_nat (cell_size me)] out.

(** Examples of [s] tokens of the vocabulary each, and labels that are
    classes. *)
Definition well_formed {lstm_params adam_state : Type}
  (me : model lstm_params adam_state) (s : nat)
  (X : tensor Z 2) (y : list Z) : Prop :=
  Forall (fun row : list Z =>
            length row = s /\
            Forall (fun tok => 0 <= tok < vocab_size me) row) X /\
  Forall (fun l => 0 <= l < n_out me) y.

(** The loss is defined for one row of logits per label when the labels are
    classes. *)
Definition loss_defined (criterion : tensor R 2 -> list Z -> result R)
  : Prop :=
  forall (preds : tensor R 2) (labels : list Z) (b o : nat),
    has_shape 2 [b; o] preds -> (1 <= b)%nat -> length labels = b ->
    Forall (fun l => 0 <= l < Z.of_nat o) labels ->
    exists loss, criterion preds labels = Ok loss.

(** A model with the hyperparameters of [me0] whose layers and cells are
    sized by them. *)
Definition sized_like {lstm_params : Type}
  (lstm : lstm_params -> tensor R 3 -> result (tensor R 3))
  {adam_state : Type} (me0 me : model lstm_params adam_state) : Prop :=
  hyperparameters me = hyperparameters me0 /\
  built me /\ cells_sized lstm me.

(** An optimizer step changes the values of the parameters, not the sizes of
    the layers or of what the cells return. *)
Definition sizes_kept {lstm_params adam_state : Type}
  (lstm : lstm_params -> tensor R 3 -> result (tensor R 3))
  (adam_step :
     parameters lstm_params -> optimizer_t adam_state -> tensor Z 2 ->
     list Z -> parameters lstm_params * adam_state) : Prop :=
  forall (me me' : model lstm_params adam_state)
         (opt : optimizer_t adam_state) (X_batch : tensor Z 2)
         (y_batch : list Z),
    hyperparameters me' = hyperparameters me ->
    params me' = fst (adam_step (params me) opt X_batch y_batch) ->
    built me -> cells_sized lstm me ->
    built me' /\ cells_sized lstm me'.

(** [sklearn.utils.shuffle] reorders the examples and the labels. *)
Definition shuffle_permutes
  (shuffle : Z -> tensor Z 2 -> list Z -> tensor Z 2 * list Z) : Prop :=
  forall (k : Z) (X : tensor Z 2) (y : list Z),
    Permutation (fst (shuffle k X y)) X /\
    Permutation (snd (shuffle k X y)) y.

(** What one pass of the batch loop of [fit] may write: the optimizer step
    at one rate in all [g] parameter groups alone, or followed by the line
    that reports that rate, for a local step that is a multiple of 100. *)
Inductive step_events (n_epoch n_batch : Z) (g : nat) : list event -> Prop :=
| StepQuiet (global_step : Z) (lr : R) :
    step_events n_epoch n_batch g [OptimizerStep global_step (repeat lr g)]
| StepPrinted (global_step : Z) (lr : R) (epoch local_step : Z)
    (loss acc : R) :
    0 <= local_step -> local_step mod 100 = 0 -> 1 <= epoch <= n_epoch ->
    step_events n_epoch n_batch g
      [OptimizerStep global_step (repeat lr g);
       PrintStep epoch n_epoch local_step n_batch loss acc lr].

(** The second world has as many parameter groups as the first, and its
    trace continues the trace of the first by passes of the batch loop. *)
Definition steps_logged {lstm_params adam_state : Type}
  (n_epoch n_batch : Z) (w w' : world lstm_params adam_state) : Prop :=
  groups w' = groups w /\
  exists passes : list (list event),
    trace w' = trace w ++ concat passes /\
    Forall (step_events n_epoch n_batch (groups w)) passes.

(* ================================================================== *)
(** * Part III: properties *)
(* ================================================================== *)

(** ** [range] *)

Lemma Ok_inj (A : Type) (a b : A) : Ok a = Ok b -> a = b.
Proof. intros H. now injection H. Qed.

Lemma range_loop_up (step : Z) (Hstep : 0 < step) :
  forall (fuel : nat) (i stop : Z),
    stop - i <= Z.of_nat fuel ->
    range_loop fuel i stop step =
    map (fun k => i + Z.of_nat k * step)
        (seq 0 (Z.to_nat ((stop - i + step - 1) / step))).
Proof.
  induction fuel as [|fuel IH]; intros i stop Hfuel.
  - replace (Z.to_nat ((stop - i + step - 1) / step)) with 0%nat; [reflexivity|].
    symmetry.
    assert ((stop - i + step - 1) / step <= 0).
    { apply Z.lt_succ_r. apply Z.div_lt_upper_bound; lia. }
    lia.
  - simpl. destruct (Z.ltb_spec 0 step) as [_|]; [|lia].
    destruct (Z.ltb_spec i stop) as [Hlt|Hge].
    + rewrite IH by lia.
      replace (stop - i + step - 1)
        with ((stop - (i + step) + step - 1) + 1 * step) by ring.
      rewrite Z.div_add by lia.
      assert (0 <= (stop - (i + step) + step - 1) / step)
        by (apply Z.div_pos; lia).
      rewrite Z2Nat.inj_add by lia.
      rewrite Nat.add_comm. simpl.
      f_equal; [lia|].
      rewrite <- seq_shift, map_map.
      apply map_ext. intros k. lia.
    + replace (Z.to_nat ((stop - i + step - 1) / step)) with 0%nat; [reflexivity|].
      assert ((stop - i + step - 1) / step <= 0).
      { apply Z.lt_succ_r. apply Z.div_lt_upper_bound; lia. }
      lia.
Qed.

Lemma range_loop_wrong_way (step : Z) (Hstep : step < 0) :
  forall (fuel : nat) (i stop : Z), i <= stop -> range_loop fuel i stop step = [].
Proof.
  intros [|fuel] i stop Hle; simpl; [reflexivity|].
  destruct (Z.ltb_spec 0 step); [lia|].
  destruct (Z.ltb_spec stop i); [lia|reflexivity].
Qed.

Lemma range_up (start stop step : Z) :
  0 < step -> start <= stop ->
  range start stop step =
  Ok (map (fun k => start + Z.of_nat k * step)
          (seq 0 (Z.to_nat ((stop - start + step - 1) / step)))).
Proof.
  intros Hstep Hle. unfold range.
  destruct (Z.eqb_spec step 0); [lia|].
  f_equal. apply range_loop_up; lia.
Qed.

(** ** [gen_batch] *)

Section GenBatch.

Context {A : Type}.

Lemma firstn_short (n : nat) (l : list A) :
  firstn (Nat.min n (length l)) l = firstn n l.
Proof.
  destruct (Nat.le_gt_cases n (length l)) as [H|H].
  - now rewrite Nat.min_l.
  - rewrite Nat.min_r by lia. now rewrite !firstn_all2 by lia.
Qed.

(** A slice that starts inside the array at a multiple of the batch size. *)
Lemma slice_chunk (arr : list A) (B : Z) (k : nat) :
  0 < B -> Z.of_nat k * B <= Z.of_nat (length arr) ->
  slice arr (0 + Z.of_nat k * B) (0 + Z.of_nat k * B + B) =
  firstn (Z.to_nat B) (skipn (k * Z.to_nat B) arr).
Proof.
  intros HB Hk. unfold slice, clip.
  set (N := Z.of_nat (length arr)) in *.
  destruct (Z.ltb_spec (0 + Z.of_nat k * B) 0); [lia|].
  destruct (Z.ltb_spec (0 + Z.of_nat k * B + B) 0); [lia|].
  replace (Z.to_nat (Z.min (0 + Z.of_nat k * B) N)) with (k * Z.to_nat B)%nat by nia.
  rewrite <- (firstn_short (Z.to_nat B)).
  f_equal. rewrite length_skipn. subst N. nia.
Qed.

Lemma gen_batch_chunks (arr : list A) (B : Z) :
  0 < B ->
  gen_batch arr B =
  Ok (chunks (Z.to_nat ((Z.of_nat (length arr) + B - 1) / B)) (Z.to_nat B) arr).
Proof.
  intros HB. unfold gen_batch.
  rewrite range_up by lia. simpl. f_equal.
  rewrite map_map. unfold chunks.
  replace (Z.of_nat (length arr) - 0 + B - 1)
    with (Z.of_nat (length arr) + B - 1) by ring.
  apply map_ext_in. intros k Hk. apply in_seq in Hk.
  apply slice_chunk; [assumption|].
  set (N := Z.of_nat (length arr)) in *.
  assert (Hq : B * ((N + B - 1) / B) <= N + B - 1)
    by (apply Z.mul_div_le; lia).
  assert (0 <= (N + B - 1) / B) by (apply Z.div_pos; lia).
  nia.
Qed.

Lemma chunks_length (rows k : nat) (l : list A) : length (chunks rows k l) = rows.
Proof. unfold chunks. now rewrite length_map, length_seq. Qed.

Lemma chunks_nth (rows k : nat) (l : list A) (r : nat) :
  (r < rows)%nat -> nth r (chunks rows k l) [] = firstn k (skipn (r * k) l).
Proof.
  intros Hr. unfold chunks.
  rewrite (nth_indep _ [] ((fun r => firstn k (skipn (r * k) l)) 0%nat))
    by (now rewrite length_map, length_seq).
  rewrite (map_nth (fun r => firstn k (skipn (r * k) l))).
  now rewrite seq_nth.
Qed.

Lemma chunks_succ (rows k : nat) (l : list A) :
  chunks (S rows) k l = firstn k l :: chunks rows k (skipn k l).
Proof.
  unfold chunks. rewrite <- cons_seq, <- seq_shift. simpl. f_equal.
  rewrite map_map. apply map_ext. intros r.
  now rewrite skipn_skipn, Nat.add_comm.
Qed.

(** Enough rows take every element. *)
Lemma chunks_concat (k : nat) :
  forall (rows : nat) (l : list A),
    (length l <= rows * k)%nat -> concat (chunks rows k l) = l.
Proof.
  induction rows as [|rows IH]; intros l Hlen.
  - destruct l; [reflexivity|simpl in Hlen; lia].
  - rewrite chunks_succ. simpl. rewrite IH.
    + apply firstn_skipn.
    + rewrite length_skipn. simpl in Hlen. lia.
Qed.

End GenBatch.

Lemma ceil_div_up (a b : Z) : 0 < b -> ceil_div a b = (a + b - 1) / b.
Proof.
  intros Hb. unfold ceil_div.
  pose proof (Z.div_mod (a + b - 1) b ltac:(lia)) as Hdm.
  pose proof (Z.mod_pos_bound (a + b - 1) b Hb) as Hr.
  set (q := (a + b - 1) / b) in *.
  assert (H : - q = - a / b)
    by (apply (Z.div_unique_pos (- a) b (- q) (b - 1 - (a + b - 1) mod b)); lia).
  lia.
Qed.

(** The bounds that define the number of batches. *)
Lemma batch_count_bounds (N B : Z) :
  0 < B -> 0 <= N ->
  let q := (N + B - 1) / B in
  0 <= q /\ B * (q - 1) < N <= B * q.
Proof.
  intros HB HN q.
  pose proof (Z.div_mod (N + B - 1) B ltac:(lia)) as Hdm.
  pose proof (Z.mod_pos_bound (N + B - 1) B HB) as Hr.
  fold q in Hdm. split; [apply Z.div_pos; lia|]. nia.
Qed.

(** The batches are as many as the ceiling says and hold every element. *)
Lemma gen_batch_count (A : Type) (arr : list A) (B : Z) :
  0 < B ->
  exists batches,
    gen_batch arr B = Ok batches /\
    Z.of_nat (length batches) = ceil_div (Z.of_nat (length arr)) B /\
    concat batches = arr.
Proof.
  intros HB. set (N := Z.of_nat (length arr)).
  destruct (@batch_count_bounds N B HB (Nat2Z.is_nonneg (length arr)))
    as [Hq0 Hq].
  eexists. split; [now apply gen_batch_chunks|].
  fold N. rewrite chunks_length. split.
  - rewrite ceil_div_up by assumption. lia.
  - apply chunks_concat. subst N. nia.
Qed.

(** C1. For a sequence of length N and a positive batch size B, [gen_batch]
    yields ceil(N/B) slices; the k-th slice is the B elements from position
    k*B on (fewer at the end of the sequence), so the slices are contiguous,
    concatenate to the sequence and their lengths sum to N; no slice is empty
    or longer than B; every slice but the last has length B; the last has
    length N mod B when that is not zero, and when N mod B is zero every slice
    has length B. *)
Theorem gen_batch_slices (A : Type) (arr : list A) (B : Z) :
  0 < B ->
  let N := Z.of_nat (length arr) in
  exists batches : list (list A),
    gen_batch arr B = Ok batches /\
    Z.of_nat (length batches) = ceil_div N B /\
    (forall k, (k < length batches)%nat ->
       nth k batches [] = firstn (Z.to_nat B) (skipn (k * Z.to_nat B) arr)) /\
    concat batches = arr /\
    list_sum (map (@length A) batches) = length arr /\
    Forall (fun b => 0 < Z.of_nat (length b) <= B) batches /\
    (forall k, (S k < length batches)%nat ->
       Z.of_nat (length (nth k batches [])) = B) /\
    (N mod B <> 0 -> Z.of_nat (length (last batches [])) = N mod B) /\
    (N mod B = 0 -> Forall (fun b => Z.of_nat (length b) = B) batches).
Proof.
  intros HB N.
  destruct (@batch_count_bounds N B HB (Nat2Z.is_nonneg (length arr))) as [Hq0 Hq].
  set (q := (N + B - 1) / B) in *.
  set (b := Z.to_nat B). set (n := Z.to_nat q).
  assert (Hlenk : forall k, (k < n)%nat ->
            Z.of_nat (length (firstn b (skipn (k * b) arr)))
            = Z.min B (N - Z.of_nat k * B)).
  { intros k Hk. rewrite length_firstn, length_skipn. subst b N. nia. }
  assert (Hcat : concat (chunks n b arr) = arr).
  { apply chunks_concat. subst n b N. nia. }
  exists (chunks n b arr).
  rewrite gen_batch_chunks by assumption. fold N q n b.
  rewrite chunks_length.
  split; [reflexivity|].
  split; [rewrite ceil_div_up by assumption; subst n; fold q; lia|].
  split; [intros k Hk; now apply chunks_nth|].
  split; [exact Hcat|].
  split; [rewrite <- length_concat; now rewrite Hcat|].
  split.
  { apply Forall_forall. intros x Hx.
    destruct (In_nth _ _ [] Hx) as [k [Hk Hnth]].
    rewrite chunks_length in Hk. rewrite chunks_nth in Hnth by assumption.
    subst x. rewrite Hlenk by assumption. subst n. nia. }
  split.
  { intros k Hk. rewrite chunks_nth by lia. rewrite Hlenk by lia. subst n. nia. }
  pose proof (Z.div_mod N B ltac:(lia)) as Hdm.
  pose proof (Z.mod_pos_bound N B HB) as Hr.
  split.
  - intros Hmod.
    assert (Hqd : q = N / B + 1) by nia.
    assert (Hn : n = S (Z.to_nat (N / B))) by (subst n; lia).
    replace (last (chunks n b arr) [])
      with (nth (Z.to_nat (N / B)) (chunks n b arr) []).
    + rewrite chunks_nth by lia. rewrite Hlenk by lia.
      assert (0 <= N / B) by (apply Z.div_pos; lia). nia.
    + rewrite <- (chunks_length n b arr) in Hn.
      destruct (chunks n b arr) as [|c cs] eqn:E using rev_ind; [discriminate|].
      rewrite last_last. rewrite length_app in Hn. simpl in Hn.
      replace (Z.to_nat (N / B)) with (length cs) by lia.
      now rewrite nth_middle.
  - intros Hmod. apply Forall_forall. intros x Hx.
    destruct (In_nth _ _ [] Hx) as [k [Hk Hnth]].
    rewrite chunks_length in Hk. rewrite chunks_nth in Hnth by assumption.
    subst x. rewrite Hlenk by assumption.
    rewrite Hmod, Z.add_0_r in Hdm.
    assert (Hlo : q - 1 < N / B) by (apply (Z.mul_lt_mono_pos_l B); lia).
    assert (Hhi : N / B <= q) by (apply (Z.mul_le_mono_pos_l _ _ B); lia).
    assert (Hqd : N = B * q) by (replace q with (N / B) by lia; exact Hdm).
    assert (Hkq : Z.of_nat k + 1 <= q) by (subst n; lia).
    nia.
Qed.

Lemma gen_batch_slices_witness :
  0 < 2 /\
  exists batches : list (list Z),
    gen_batch [10; 20; 30; 40; 50] 2 = Ok batches /\
    Z.of_nat (length batches) = ceil_div 5 2 /\
    (forall k, (k < length batches)%nat ->
       nth k batches [] = firstn 2 (skipn (k * 2) [10; 20; 30; 40; 50])) /\
    concat batches = [10; 20; 30; 40; 50] /\
    list_sum (map (@length Z) batches) = 5%nat /\
    Forall (fun b => 0 < Z.of_nat (length b) <= 2) batches /\
    (forall k, (S k < length batches)%nat ->
       Z.of_nat (length (nth k batches [])) = 2) /\
    (5 mod 2 <> 0 -> Z.of_nat (length (last batches [])) = 5 mod 2) /\
    (5 mod 2 = 0 -> Forall (fun b => Z.of_nat (length b) = 2) batches).
Proof.
  split; [lia|].
  apply (@gen_batch_slices Z [10; 20; 30; 40; 50] 2). lia.
Defined.

Example gen_batch_5_2 :
  gen_batch [10; 20; 30; 40; 50] 2 = Ok [[10; 20]; [30; 40]; [50]].
Proof. reflexivity. Qed.

Example gen_batch_4_2 :
  gen_batch [10; 20; 30; 40] 2 = Ok [[10; 20]; [30; 40]].
Proof. reflexivity. Qed.

(** C7, as the code has it. For a batch size of zero [gen_batch] raises the
    [ValueError] of [range] whatever the sequence, and yields nothing; for a
    negative batch size it raises nothing and yields no slice at all. *)
Theorem gen_batch_nonpositive (A : Type) (arr : list A) (B : Z) :
  B <= 0 ->
  gen_batch arr B = if B =? 0 then Raise ValueError else Ok [].
Proof.
  intros HB. unfold gen_batch, range.
  destruct (Z.eqb_spec B 0) as [->|Hneq]; [reflexivity|].
  simpl. now rewrite range_loop_wrong_way by lia.
Qed.

Lemma gen_batch_nonpositive_witness :
  -2 <= 0 /\
  gen_batch [10; 20; 30] (-2) = if -2 =? 0 then Raise ValueError else Ok [].
Proof.
  split; [lia|]. apply (@gen_batch_nonpositive Z [10; 20; 30] (-2)). lia.
Defined.

(** A negative batch size is not rejected. *)
Lemma gen_batch_negative_no_error :
  -1 <= 0 /\
  gen_batch [10; 20; 30] (-1) = Ok [] /\
  forall e, gen_batch [10; 20; 30] (-1) <> Raise e.
Proof.
  split; [lia|]. split; [reflexivity|]. intros e. discriminate.
Qed.

Example gen_batch_zero : gen_batch [10; 20; 30] 0 = Raise ValueError.
Proof. reflexivity. Qed.

(** ** [adjust_lr] *)

Section AdjustLr.

Context {adam_state : Type}.

Local Open Scope R_scope.

Implicit Types opt : optimizer_t adam_state.

Lemma ln_ratio_neg : ln (min_lr / max_lr) < 0.
Proof.
  rewrite <- ln_1. apply ln_increasing; unfold min_lr, max_lr; lra.
Qed.

Lemma max_lr_pos : 0 < max_lr.
Proof. unfold max_lr. lra. Qed.

Lemma adjust_lr_value (opt : optimizer_t adam_state) (s T : Z) :
  T <> 0%Z ->
  adjust_lr opt s T =
  Ok ({| param_groups := map (set_lr (lr_schedule s T)) (param_groups opt);
         opt_state := opt_state opt |}, lr_schedule s T).
Proof.
  intros HT. unfold adjust_lr, float_div.
  destruct (Z.eqb_spec (- T) 0) as [E|_]; [lia|]. simpl.
  assert (HT' : IZR T <> 0) by (now apply not_0_IZR).
  assert (Hlr : max_lr * exp (- (ln (min_lr / max_lr) / IZR (- T)) * IZR s)
                = lr_schedule s T).
  { unfold lr_schedule. do 2 f_equal. rewrite opp_IZR. now field. }
  now rewrite Hlr.
Qed.

Lemma lr_schedule_start (T : Z) : lr_schedule 0 T = max_lr.
Proof.
  unfold lr_schedule. unfold Rdiv at 2.
  now rewrite Rmult_0_l, Rmult_0_r, exp_0, Rmult_1_r.
Qed.

Lemma lr_schedule_end (T : Z) : T <> 0%Z -> lr_schedule T T = min_lr.
Proof.
  intros HT. unfold lr_schedule.
  assert (HT' : IZR T <> 0) by (now apply not_0_IZR).
  replace (IZR T / IZR T) with 1 by (now field).
  rewrite Rmult_1_r, exp_ln by (unfold min_lr, max_lr; lra).
  unfold min_lr, max_lr. lra.
Qed.

Lemma lr_schedule_decreasing (T s1 s2 : Z) :
  (0 < T)%Z -> (s1 < s2)%Z -> lr_schedule s2 T < lr_schedule s1 T.
Proof.
  intros HT Hs. unfold lr_schedule.
  apply Rmult_lt_compat_l; [apply max_lr_pos|].
  apply exp_increasing.
  assert (HT' : 0 < IZR T) by (now apply (IZR_lt 0)).
  assert (Hs' : IZR s1 < IZR s2) by (now apply IZR_lt).
  assert (Hq : IZR s1 / IZR T < IZR s2 / IZR T).
  { unfold Rdiv. apply Rmult_lt_compat_r; [now apply Rinv_0_lt_compat|assumption]. }
  pose proof ln_ratio_neg. nra.
Qed.


(** C8. When [total_steps] is zero [adjust_lr] raises the
    [ZeroDivisionError] of its division, at every step and whatever the
    optimizer; no learning rate is written. *)
Theorem adjust_lr_zero_total (opt : optimizer_t adam_state) (s : Z) :
  adjust_lr opt s 0 = Raise ZeroDivisionError.
Proof. reflexivity. Qed.

End AdjustLr.


(** ** Loops that may raise *)

Section MapM.

Context {X Y : Type}.

Lemma mapM_ok (f : X -> result Y) (g : X -> Y) (l : list X) :
  (forall x, In x l -> f x = Ok (g x)) -> mapM f l = Ok (map g l).
Proof.
  induction l as [|a l IH]; intros H; simpl; [reflexivity|].
  rewrite (H a) by (now left). simpl.
  rewrite IH by (intros x Hx; apply H; now right). reflexivity.
Qed.

Lemma mapM_ext_in (f g : X -> result Y) (l : list X) :
  (forall x, In x l -> f x = g x) -> mapM f l = mapM g l.
Proof.
  induction l as [|a l IH]; intros H; simpl; [reflexivity|].
  rewrite (H a) by (now left).
  rewrite IH by (intros x Hx; apply H; now right). reflexivity.
Qed.

Lemma mapM_length (f : X -> result Y) (l : list X) (r : list Y) :
  mapM f l = Ok r -> length r = length l.
Proof.
  revert r. induction l as [|a l IH]; intros r; simpl.
  - intros E. injection E as <-. reflexivity.
  - destruct (f a); [|discriminate]. simpl.
    destruct (mapM f l) as [bs|]; [|discriminate]. simpl.
    intros E. injection E as <-. simpl. f_equal. now apply IH.
Qed.

End MapM.

(** ** [reverse] *)

Lemma range_loop_down :
  forall (k fuel : nat), (k <= fuel)%nat ->
    range_loop fuel (Z.of_nat k - 1) (-1) (-1) = map Z.of_nat (rev (seq 0 k)).
Proof.
  induction k as [|k IH]; intros fuel Hfuel.
  - destruct fuel; reflexivity.
  - destruct fuel as [|fuel]; [lia|].
    cbn [range_loop]. change (0 <? -1) with false. cbv iota.
    destruct (Z.ltb_spec (-1) (Z.of_nat (S k) - 1)); [|lia].
    replace (Z.of_nat (S k) - 1 + -1) with (Z.of_nat k - 1) by lia.
    rewrite IH by lia.
    rewrite seq_S, rev_app_distr. cbn [rev app map Nat.add]. f_equal. lia.
Qed.

(** The indices [range(n - 1, -1, -1)] of [reverse]. *)
Lemma range_down (n : nat) :
  range (Z.of_nat n - 1) (-1) (-1) = Ok (map Z.of_nat (rev (seq 0 n))).
Proof.
  unfold range. change (-1 =? 0) with false. cbv iota. f_equal.
  apply range_loop_down. lia.
Qed.

Section Gather.

Context {A : Type}.

Lemma gather_nat (X : list A) (i : nat) :
  gather X (Z.of_nat i) =
  match nth_error X i with Some x => Ok x | None => Raise IndexError end.
Proof.
  unfold gather. rewrite Nat2Z.id.
  destruct (Z.leb_spec 0 (Z.of_nat i)); [|lia].
  destruct (Z.ltb_spec (Z.of_nat i) (Z.of_nat (length X))) as [Hlt|Hge]; simpl.
  - reflexivity.
  - assert (E : nth_error X i = None) by (apply nth_error_None; lia).
    now rewrite E.
Qed.

(** Gathering at the reversed indices reverses. *)
Lemma gather_reversed (X : list A) :
  mapM (gather X) (map Z.of_nat (rev (seq 0 (length X)))) = Ok (rev X).
Proof.
  induction X as [|x X IH] using rev_ind; [reflexivity|].
  rewrite length_app. simpl length. rewrite Nat.add_1_r.
  rewrite seq_S, !rev_app_distr. simpl.
  rewrite gather_nat, nth_error_app2 by lia.
  rewrite Nat.sub_diag. simpl.
  rewrite (mapM_ext_in (gather (X ++ [x])) (gather X)).
  - now rewrite IH.
  - intros z Hz. apply in_map_iff in Hz. destruct Hz as [i [<- Hi]].
    apply in_rev, in_seq in Hi.
    rewrite !gather_nat. now rewrite nth_error_app1 by lia.
Qed.

End Gather.

Section Reverse.

Context {A : Type}.

Lemma size_same_shape :
  forall (n : nat) (s : list nat) (x x' : tensor A n) (d : nat),
    has_shape n s x -> has_shape n s x' -> size n x d = size n x' d.
Proof.
  induction n as [|m IH]; intros s x x' d Hx Hx'; [reflexivity|].
  destruct s as [|k s']; [contradiction|].
  destruct Hx as [Hlen Hall], Hx' as [Hlen' Hall'].
  destruct d as [|d']; simpl; [congruence|].
  destruct x as [|a x], x' as [|a' x']; simpl in *; try congruence.
  apply (IH s'); [now inversion Hall|now inversion Hall'].
Qed.

Lemma size_ok :
  forall (n : nat) (x : tensor A n) (d : nat),
    (d < n)%nat -> exists sz, size n x d = Ok sz.
Proof.
  induction n as [|m IH]; intros x d Hd; [lia|].
  destruct d as [|d']; simpl; [eauto|].
  destruct x as [|a x].
  - destruct (Nat.ltb_spec d' m); [eauto|lia].
  - apply IH. lia.
Qed.

Lemma reverse_at_closed :
  forall (n : nat) (s : list nat) (X : tensor A n) (d : nat),
    has_shape n s X -> (d < n)%nat ->
    reverse_at n X d = Ok (rev_axis n d X).
Proof.
  induction n as [|m IH]; intros s X d HX Hd; [lia|].
  destruct s as [|k s']; [contradiction|]. destruct HX as [Hlen Hall].
  destruct d as [|d'].
  - unfold reverse_at. cbn [size bind]. rewrite range_down. cbn [bind index_select].
    exact (gather_reversed (A := tensor A m) X).
  - unfold reverse_at.
    destruct (size_ok (S m) X (S d') Hd) as [sz Hsz]. rewrite Hsz. simpl.
    unfold range. change (-1 =? 0) with false. cbv iota. simpl bind.
    set (indices := range_loop _ _ _ _).
    apply mapM_ok. intros x Hx.
    assert (Hshape : has_shape m s' x)
      by (rewrite Forall_forall in Hall; now apply Hall).
    pose proof (IH s' x d' Hshape ltac:(lia)) as Hrev.
    unfold reverse_at in Hrev.
    assert (Hszx : size m x d' = Ok sz).
    { destruct X as [|x0 X]; [contradiction|]. simpl in Hsz.
      rewrite <- Hsz. apply (size_same_shape m s'); [assumption|].
      now inversion Hall. }
    rewrite Hszx in Hrev. simpl in Hrev.
    unfold range in Hrev. change (-1 =? 0) with false in Hrev.
    cbv iota in Hrev. exact Hrev.
Qed.

Lemma rev_axis_involutive :
  forall (n d : nat) (X : tensor A n), rev_axis n d (rev_axis n d X) = X.
Proof.
  induction n as [|m IH]; intros d X; [reflexivity|].
  destruct d as [|d']; simpl.
  - apply rev_involutive.
  - rewrite map_map. rewrite <- (map_id X) at 2.
    apply map_ext. intros x. apply IH.
Qed.

Lemma rev_axis_shape :
  forall (n d : nat) (s : list nat) (X : tensor A n),
    has_shape n s X -> has_shape n s (rev_axis n d X).
Proof.
  induction n as [|m IH]; intros d s X HX; [exact HX|].
  destruct s as [|k s']; [contradiction|]. destruct HX as [Hlen Hall].
  destruct d as [|d']; simpl.
  - split; [now rewrite length_rev|now apply Forall_rev].
  - split; [now rewrite length_map|].
    apply Forall_map. eapply Forall_impl; [|exact Hall].
    intros x Hx. now apply IH.
Qed.

Lemma entry_cons (m : nat) (X : list (tensor A m)) (i : nat) (idx : list nat) :
  entry (S m) X (i :: idx) =
  match nth_error X i with Some x => entry m x idx | None => None end.
Proof. reflexivity. Qed.

Lemma rev_axis_entry :
  forall (n d : nat) (s : list nat) (X : tensor A n) (idx : list nat),
    has_shape n s X -> Forall2 lt idx s ->
    entry n (rev_axis n d X) idx = entry n X (mirror s d idx).
Proof.
  induction n as [|m IH]; intros d s X idx HX Hidx.
  - simpl in HX. subst s. inversion Hidx. reflexivity.
  - destruct s as [|k s']; [contradiction|]. destruct HX as [Hlen Hall].
    inversion Hidx as [|i k' idx' s'' Hi Hidx' E1 E2]; subst.
    change (list (tensor A m)) in X.
    destruct d as [|d']; cbn [rev_axis mirror]; rewrite !entry_cons.
    + rewrite nth_error_rev.
      destruct (i <? _)%nat eqn:Hlt; [reflexivity|].
      apply Nat.ltb_ge in Hlt. lia.
    + rewrite nth_error_map.
      destruct (nth_error X i) as [x|] eqn:E; cbn [option_map]; [|reflexivity].
      apply IH; [|assumption].
      rewrite Forall_forall in Hall. apply Hall.
      eapply nth_error_In; eassumption.
Qed.

End Reverse.

Lemma wrap_dim_valid (n : nat) (dim : Z) :
  - Z.of_nat n <= dim < Z.of_nat n ->
  let d := Z.to_nat (if dim <? 0 then dim + Z.of_nat n else dim) in
  wrap_dim n dim = Ok d /\ (d < n)%nat.
Proof.
  intros Hdim d. unfold wrap_dim.
  destruct (Z.leb_spec (- Z.of_nat n) dim); [|lia].
  destruct (Z.ltb_spec dim (Z.of_nat n)); [|lia].
  split; [reflexivity|]. subst d.
  destruct (Z.ltb_spec dim 0); lia.
Qed.

Lemma reverse_closed (A : Type) (n : nat) (s : list nat) (X : tensor A n)
  (dim : Z) :
  has_shape n s X -> - Z.of_nat n <= dim < Z.of_nat n ->
  reverse n X dim =
  Ok (rev_axis n (Z.to_nat (if dim <? 0 then dim + Z.of_nat n else dim)) X).
Proof.
  intros HX Hdim. destruct (wrap_dim_valid n dim Hdim) as [Hw Hd].
  unfold reverse. rewrite Hw. cbn [bind].
  now apply (reverse_at_closed n s).
Qed.

(** C3. For a tensor [X] of any rank and shape and every valid axis [dim]
    (negative ones included), [reverse] succeeds, reversing the result along
    the same axis gives [X] back, the result has the shape of [X], and its
    element at an index is the element of [X] at the index mirrored on that
    axis only: the positions on all other axes are unchanged. *)
Theorem reverse_involution (A : Type) (n : nat) (s : list nat)
  (X : tensor A n) (dim : Z) :
  has_shape n s X -> - Z.of_nat n <= dim < Z.of_nat n ->
  exists Y : tensor A n,
    reverse n X dim = Ok Y /\
    reverse n Y dim = Ok X /\
    has_shape n s Y /\
    forall idx, Forall2 lt idx s ->
      entry n Y idx =
      entry n X
        (mirror s (Z.to_nat (if dim <? 0 then dim + Z.of_nat n else dim)) idx).
Proof.
  intros HX Hdim.
  set (d := Z.to_nat (if dim <? 0 then dim + Z.of_nat n else dim)).
  exists (rev_axis n d X).
  assert (HY : has_shape n s (rev_axis n d X)) by (now apply rev_axis_shape).
  split; [now apply (reverse_closed A n s)|].
  split.
  - rewrite (reverse_closed A n s) by assumption. fold d.
    now rewrite rev_axis_involutive.
  - split; [assumption|].
    intros idx Hidx. now apply rev_axis_entry.
Qed.

Lemma reverse_involution_witness :
  has_shape 2 [2; 3]%nat ([[1; 2; 3]; [4; 5; 6]] : tensor Z 2) /\
  - Z.of_nat 2 <= 1 < Z.of_nat 2 /\
  exists Y : tensor Z 2,
    reverse 2 ([[1; 2; 3]; [4; 5; 6]] : tensor Z 2) 1 = Ok Y /\
    reverse 2 Y 1 = Ok ([[1; 2; 3]; [4; 5; 6]] : tensor Z 2) /\
    has_shape 2 [2; 3]%nat Y /\
    forall idx, Forall2 lt idx [2; 3]%nat ->
      entry 2 Y idx =
      entry 2 ([[1; 2; 3]; [4; 5; 6]] : tensor Z 2)
        (mirror [2; 3]%nat
           (Z.to_nat (if 1 <? 0 then 1 + Z.of_nat 2 else 1)) idx).
Proof.
  assert (H : has_shape 2 [2; 3]%nat ([[1; 2; 3]; [4; 5; 6]] : tensor Z 2)).
  { simpl. split; [reflexivity|]. repeat constructor. }
  split; [exact H|]. split; [simpl; lia|].
  apply (@reverse_involution Z 2 [2; 3]%nat [[1; 2; 3]; [4; 5; 6]] 1 H).
  simpl. lia.
Defined.

Example reverse_time_axis :
  reverse 2 ([[1; 2; 3]; [4; 5; 6]] : tensor Z 2) 1
  = Ok [[3; 2; 1]; [6; 5; 4]].
Proof. reflexivity. Qed.

Example reverse_last_axis :
  reverse 2 ([[1; 2; 3]; [4; 5; 6]] : tensor Z 2) (-1)
  = Ok [[3; 2; 1]; [6; 5; 4]].
Proof. reflexivity. Qed.

Example reverse_batch_axis :
  reverse 2 ([[1; 2; 3]; [4; 5; 6]] : tensor Z 2) 0
  = Ok [[4; 5; 6]; [1; 2; 3]].
Proof. reflexivity. Qed.

Example reverse_no_such_axis :
  reverse 2 ([[1; 2; 3]; [4; 5; 6]] : tensor Z 2) 2 = Raise IndexError.
Proof. reflexivity. Qed.

Section MapMMore.

Context {X Y : Type}.

Lemma mapM_app (f : X -> result Y) (l1 l2 : list X) :
  mapM f (l1 ++ l2) =
  (r1 <- mapM f l1 ;; r2 <- mapM f l2 ;; Ok (r1 ++ r2)).
Proof.
  induction l1 as [|a l1 IH]; simpl.
  - destruct (mapM f l2); reflexivity.
  - destruct (f a); [|reflexivity]. simpl. rewrite IH.
    destruct (mapM f l1); [|reflexivity]. simpl.
    destruct (mapM f l2); reflexivity.
Qed.

(** A loop that succeeds also succeeds in reverse order. *)
Lemma mapM_rev (f : X -> result Y) (l : list X) (r : list Y) :
  mapM f l = Ok r -> mapM f (rev l) = Ok (rev r).
Proof.
  revert r. induction l as [|a l IH]; intros r; simpl.
  - intros E. injection E as <-. reflexivity.
  - destruct (f a) as [b|] eqn:Ea; [|discriminate]. simpl.
    destruct (mapM f l) as [bs|]; [|discriminate]. simpl.
    intros E. injection E as <-.
    rewrite mapM_app, (IH bs eq_refl). simpl. now rewrite Ea.
Qed.

Lemma mapM_Forall (f : X -> result Y) (P : Y -> Prop) (l : list X) :
  (forall x, In x l -> exists y, f x = Ok y /\ P y) ->
  exists r, mapM f l = Ok r /\ Forall P r /\ length r = length l.
Proof.
  induction l as [|a l IH]; intros H; simpl.
  - exists []. repeat split. constructor.
  - destruct (H a (or_introl eq_refl)) as [b [Eb Pb]].
    destruct IH as [bs [Ebs [Pbs Hlen]]];
      [intros x Hx; apply H; now right|].
    exists (b :: bs). rewrite Eb, Ebs. simpl.
    repeat split; [now constructor|now f_equal].
Qed.

(** What a successful loop has computed, element by element. *)
Lemma mapM_Forall2 (f : X -> result Y) (l : list X) (r : list Y) :
  mapM f l = Ok r -> Forall2 (fun x y => f x = Ok y) l r.
Proof.
  revert r. induction l as [|a l IH]; intros r; simpl.
  - intros E. injection E as <-. constructor.
  - destruct (f a) as [b|] eqn:Ea; [|discriminate]. simpl.
    destruct (mapM f l) as [bs|]; [|discriminate]. simpl.
    intros E. injection E as <-. constructor; [assumption|now apply IH].
Qed.

End MapMMore.

(** ** [bidirectional_rnn] *)

Lemma gather_In (A : Type) (X : list A) (i : Z) (x : A) :
  gather X i = Ok x -> In x X.
Proof.
  unfold gather.
  destruct ((0 <=? i) && (i <? Z.of_nat (length X))); [|discriminate].
  destruct (nth_error X (Z.to_nat i)) as [x0|] eqn:E; [|discriminate].
  intros H. injection H as <-. eapply nth_error_In; eassumption.
Qed.

Lemma gather_valid (A : Type) (X : list A) (i : Z) :
  0 <= i < Z.of_nat (length X) -> exists x, gather X i = Ok x.
Proof.
  intros Hi. unfold gather.
  destruct (Z.leb_spec 0 i); [|lia].
  destruct (Z.ltb_spec i (Z.of_nat (length X))); [|lia]. simpl.
  destruct (nth_error X (Z.to_nat i)) as [x|] eqn:E; [eauto|].
  apply nth_error_None in E. lia.
Qed.

(** An embedded row: one table row per token. *)
Lemma embed_row_shape (table : list (list R)) (v e : nat)
  (row : list Z) (r : list (list R)) :
  has_shape 2 [v; e] (table : tensor R 2) ->
  mapM (embed table) row = Ok r ->
  has_shape 2 [length row; e] (r : tensor R 2).
Proof.
  intros [_ Htable] Hr. split; [now apply mapM_length in Hr|].
  apply mapM_Forall2 in Hr.
  induction Hr as [|tok x row r Hx _ IH]; constructor; [|exact IH].
  rewrite Forall_forall in Htable. apply Htable.
  eapply gather_In. exact Hx.
Qed.

(** Embedding acts per token: it commutes with the reversal of the time
    axis, and gives a rectangular tensor. *)
Lemma embedding_reverse (table : list (list R)) (v e b s : nat)
  (X : tensor Z 2) (E : tensor R 3) :
  has_shape 2 [v; e] (table : tensor R 2) ->
  has_shape 2 [b; s] X ->
  embedding table X = Ok E ->
  has_shape 3 [b; s; e] E /\
  embedding table (rev_axis 2 1 X) = Ok (rev_axis 3 1 E).
Proof.
  intros Htable [Hb Hrows] HE. unfold embedding in *.
  pose proof (mapM_length _ _ _ HE) as Hlen.
  apply mapM_Forall2 in HE.
  change (rev_axis 2 1 X) with (map (@rev Z) X).
  change (rev_axis 3 1 E) with (map (@rev (list R)) E).
  change (tensor Z 2) with (list (list Z)) in X.
  change (tensor R 3) with (list (list (list R))) in E.
  split.
  - split; [cbn in Hlen; lia|].
    clear Hb Hlen. induction HE as [|row r X E Hr _ IH]; constructor.
    + inversion Hrows as [|? ? Hrow _]; subst.
      destruct Hrow as [Hs _].
      pose proof (embed_row_shape table v e row r Htable Hr) as Hshape.
      simpl in Hs. rewrite Hs in Hshape. exact Hshape.
    + apply IH. now inversion Hrows.
  - clear Hb Hlen Hrows. induction HE as [|row r X E Hr _ IH]; [reflexivity|].
    cbn [map mapM]. rewrite (mapM_rev _ _ _ Hr). cbn [bind].
    rewrite IH. reflexivity.
Qed.

Section Cat.

Context {A : Type}.

(** Two tensors that differ in the size of one axis only are concatenated
    along it, and the sizes on that axis add up. *)
Lemma cat_shape :
  forall (pre : list nat) (n : nat) (c1 c2 : nat) (post : list nat)
         (X Y : tensor A n),
    has_shape n (pre ++ c1 :: post) X ->
    has_shape n (pre ++ c2 :: post) Y ->
    exists Z, cat n X Y (length pre) = Ok Z /\
              has_shape n (pre ++ (c1 + c2)%nat :: post) Z.
Proof.
  induction pre as [|k pre IH]; intros n c1 c2 post X Y HX HY.
  - destruct n as [|m]; [discriminate HX|].
    destruct HX as [HlX HaX], HY as [HlY HaY].
    exists (X ++ Y). split; [reflexivity|].
    split; [rewrite length_app; congruence|].
    apply Forall_app. now split.
  - destruct n as [|m]; [discriminate HX|].
    destruct HX as [HlX HaX], HY as [HlY HaY].
    cbn [cat length].
    assert (Hl : (length X =? length Y)%nat = true)
      by (apply Nat.eqb_eq; congruence).
    rewrite Hl.
    destruct (mapM_Forall
                (fun xy => cat m (fst xy) (snd xy) (length pre))
                (has_shape m (pre ++ (c1 + c2)%nat :: post))
                (combine X Y)) as [Z [HZ [HaZ HlZ]]].
    + intros [x y] Hxy. cbn [fst snd].
      apply IH.
      * rewrite Forall_forall in HaX. apply HaX.
        eapply in_combine_l. exact Hxy.
      * rewrite Forall_forall in HaY. apply HaY.
        eapply in_combine_r. exact Hxy.
    + exists Z. split; [exact HZ|]. split; [|exact HaZ].
      etransitivity; [exact HlZ|]. rewrite length_combine. lia.
Qed.

End Cat.

Lemma embedding_ok (table : list (list R)) (X : tensor Z 2) :
  (forall row tok, In row X -> In tok row ->
     0 <= tok < Z.of_nat (length table)) ->
  exists E, embedding table X = Ok E.
Proof.
  intros Htok. unfold embedding.
  destruct (mapM_Forall (mapM (embed table)) (fun _ => True) X)
    as [E [HE _]]; [|eauto].
  intros row Hrow.
  destruct (mapM_Forall (embed table) (fun _ => True) row)
    as [r [Hr _]]; [|eauto].
  intros tok Htk.
  destruct (gather_valid _ table tok (Htok row tok Hrow Htk)) as [x Hx].
  exists x. now split.
Qed.

Section Bidirectional.

Context {lstm_params : Type}.
Variable lstm : lstm_params -> tensor R 3 -> result (tensor R 3).
Context {adam_state : Type}.

Implicit Types me : model lstm_params adam_state.

(** Reversing the token indices and embedding them is reversing the embedded
    sequence, whatever the tokens and the cells are. *)
Lemma bidirectional_rnn_refines me (X : tensor Z 2) (b s v e : nat) :
  has_shape 2 [b; s] X ->
  has_shape 2 [v; e] (encoder (params me) : tensor R 2) ->
  bidirectional_rnn lstm me X = bidirectional_rnn_embed_first lstm me X.
Proof.
  intros HX Htable. unfold bidirectional_rnn, bidirectional_rnn_embed_first.
  rewrite (reverse_closed Z 2 [b; s] X 1 HX) by (simpl; lia).
  cbn [bind]. change (Z.to_nat (if 1 <? 0 then 1 + Z.of_nat 2 else 1)) with 1%nat.
  destruct (embedding (encoder (params me)) X) as [E|err] eqn:HE;
    [|reflexivity].
  cbn [bind].
  destruct (embedding_reverse _ v e b s X E Htable HX HE) as [HshE Hrev].
  rewrite Hrev.
  rewrite (reverse_closed R 3 [b; s; e] E 1 HshE) by (simpl; lia).
  reflexivity.
Qed.

(** [torch.cat] along the feature axis of two tensors that agree on the
    batch and time axes. *)
Lemma cat_features (b s c1 c2 : nat) (P Q : tensor R 3) :
  has_shape 3 [b; s; c1] P -> has_shape 3 [b; s; c2] Q ->
  cat 3 P Q 2 = Ok (concat_features P Q).
Proof.
  intros [HP HPr] [HQ HQr]. cbn [cat].
  replace (length P =? length Q)%nat with true
    by (symmetry; apply Nat.eqb_eq; congruence).
  unfold concat_features. apply mapM_ok. intros [p q] Hpq.
  cbn [fst snd].
  rewrite Forall_forall in HPr, HQr.
  destruct (HPr p (in_combine_l _ _ _ _ Hpq)) as [Hp _].
  destruct (HQr q (in_combine_r _ _ _ _ Hpq)) as [Hq _].
  replace (length p =? length q)%nat with true
    by (symmetry; apply Nat.eqb_eq; congruence).
  apply mapM_ok. now intros [u v] _.
Qed.

(** C5. For a (batch, seq_len) batch of token indices within the vocabulary
    and cells that return [c] features per timestep, [bidirectional_rnn]
    computes what the specification describes: the forward cell's output on
    the embedded sequence, followed feature-wise by the backward cell's
    output on the embedded sequence in reverse time order, put back in the
    original order: at timestep [t] of [seq_len] the features of the forward
    cell at [t], then those the backward cell gave at [seq_len - 1 - t]; the
    shape is (batch, seq_len, 2*c).  The [reverse] of the code is this
    reversal of the time order, on the token indices and on a cell's output
    alike, and embedding the reversed token indices (as the code does) gives
    the reversed embedded sequence (as the specification has it). *)
Theorem bidirectional_rnn_concat me (X : tensor Z 2) (b s v e c : nat) :
  has_shape 2 [b; s] X ->
  has_shape 2 [v; e] (encoder (params me) : tensor R 2) ->
  (forall row tok, In row X -> In tok row -> 0 <= tok < Z.of_nat v) ->
  (forall E, has_shape 3 [b; s; e] E ->
     exists out, lstm (fw_lstm (params me)) E = Ok out /\
                 has_shape 3 [b; s; c] out) ->
  (forall E, has_shape 3 [b; s; e] E ->
     exists out, lstm (bw_lstm (params me)) E = Ok out /\
                 has_shape 3 [b; s; c] out) ->
  bidirectional_rnn lstm me X = bidirectional_rnn_by_spec lstm me X /\
  exists (E fw_out bw_out Y : tensor R 3),
    embedding (encoder (params me)) X = Ok E /\
    reverse 2 X 1 = Ok (reverse_time X) /\
    embedding (encoder (params me)) (reverse_time X) = Ok (reverse_time E) /\
    lstm (fw_lstm (params me)) E = Ok fw_out /\
    lstm (bw_lstm (params me)) (reverse_time E) = Ok bw_out /\
    reverse 3 bw_out 1 = Ok (reverse_time bw_out) /\
    Y = concat_features fw_out (reverse_time bw_out) /\
    bidirectional_rnn lstm me X = Ok Y /\
    has_shape 3 [b; s; (2 * c)%nat] Y /\
    forall i t, (i < b)%nat -> (t < s)%nat ->
      nth t (nth i Y []) []
      = nth t (nth i fw_out []) [] ++ nth (s - 1 - t) (nth i bw_out []) [].
Proof.
  intros HX Htable Htok Hfw Hbw.
  destruct (embedding_ok (encoder (params me)) X) as [E HE].
  { intros row tok Hrow Htk. destruct Htable as [Hv _].
    change (@length (tensor R 1) (encoder (params me)))
      with (length (encoder (params me))) in Hv.
    rewrite Hv. now apply (Htok row). }
  destruct (embedding_reverse _ v e b s X E Htable HX HE) as [HshE HErev].
  change (rev_axis 2 1 X) with (reverse_time X) in HErev.
  change (rev_axis 3 1 E) with (reverse_time E) in HErev.
  pose proof (reverse_closed Z 2 [b; s] X 1 HX ltac:(simpl; lia)) as HrevX.
  change (rev_axis 2 _ X) with (reverse_time X) in HrevX.
  destruct (Hfw E HshE) as [fw_out [Hfwo Hfws]].
  assert (HshErev : has_shape 3 [b; s; e] (reverse_time E))
    by (change (reverse_time E) with (rev_axis 3 1 E);
        now apply rev_axis_shape).
  destruct (Hbw (reverse_time E) HshErev) as [bw_out [Hbwo Hbws]].
  pose proof (reverse_closed R 3 [b; s; c] bw_out 1 Hbws ltac:(simpl; lia))
    as Hrevbw.
  change (rev_axis 3 _ bw_out) with (reverse_time bw_out) in Hrevbw.
  assert (Hshback : has_shape 3 [b; s; c] (reverse_time bw_out))
    by (change (reverse_time bw_out) with (rev_axis 3 1 bw_out);
        now apply rev_axis_shape).
  pose proof (cat_features b s c c fw_out (reverse_time bw_out) Hfws Hshback)
    as Hcat.
  destruct (cat_shape [b; s] 3 c c [] fw_out (reverse_time bw_out)
              Hfws Hshback) as [Y [HY HshY]].
  assert (HYeq : concat_features fw_out (reverse_time bw_out) = Y)
    by (apply Ok_inj; rewrite <- Hcat; exact HY).
  clear HY. rename HYeq into HY.
  assert (Hcode : bidirectional_rnn lstm me X = Ok Y).
  { unfold bidirectional_rnn. rewrite HrevX. cbn [bind].
    rewrite HE. cbn [bind]. rewrite Hfwo. cbn [bind].
    rewrite HErev. cbn [bind]. rewrite Hbwo. cbn [bind].
    rewrite Hrevbw. cbn [bind]. now rewrite Hcat, HY. }
  split.
  { rewrite Hcode. unfold bidirectional_rnn_by_spec.
    rewrite HE. cbn [bind]. rewrite Hfwo. cbn [bind]. rewrite Hbwo.
    cbn [bind]. now rewrite HY. }
  exists E, fw_out, bw_out, Y.
  split; [exact HE|]. split; [exact HrevX|]. split; [exact HErev|].
  split; [exact Hfwo|]. split; [exact Hbwo|]. split; [exact Hrevbw|].
  split; [now symmetry|]. split; [exact Hcode|].
  split; [replace (2 * c)%nat with (c + c)%nat by lia; exact HshY|].
  intros i t Hi Ht. subst Y. unfold concat_features, reverse_time.
  destruct Hfws as [Hfl Hfr], Hbws as [Hbl Hbr].
  set (f := fun pq : list (list R) * list (list R) =>
              map (fun uv : list R * list R => fst uv ++ snd uv)
                  (combine (fst pq) (snd pq))).
  change (@nil (list R)) with (f ([], [])) at 1.
  rewrite map_nth, combine_nth by (rewrite length_map; congruence).
  replace (nth i (map (@rev (list R)) bw_out) [])
    with (rev (nth i bw_out []))
    by (symmetry; exact (map_nth (@rev (list R)) bw_out [] i)).
  subst f. cbn [fst snd].
  set (p := nth i fw_out []). set (q := nth i bw_out []).
  assert (Hp : length p = s).
  { rewrite Forall_forall in Hfr.
    destruct (Hfr p) as [H _]; [|exact H].
    apply nth_In. now rewrite Hfl. }
  assert (Hq : length q = s).
  { rewrite Forall_forall in Hbr.
    destruct (Hbr q) as [H _]; [|exact H].
    apply nth_In. now rewrite Hbl. }
  set (g := fun uv : list R * list R => fst uv ++ snd uv).
  change (@nil R) with (g ([], [])) at 1.
  rewrite map_nth, combine_nth by (rewrite length_rev; congruence).
  subst g. cbn [fst snd]. f_equal.
  rewrite rev_nth by lia. f_equal. lia.
Qed.

End Bidirectional.

Lemma small_lstm_shape (p : list R) (b s e : nat) (E : tensor R 3) :
  has_shape 3 [b; s; e] E ->
  exists out, Small.lstm p E = Ok out /\ has_shape 3 [b; s; length p] out.
Proof.
  intros [Hb Hall]. eexists. split; [reflexivity|].
  split; [now rewrite length_map|].
  apply Forall_map. eapply Forall_impl; [|exact Hall].
  intros x [Hs _]. split; [now rewrite length_map|].
  apply Forall_map, Forall_forall. intros _ _.
  split; [reflexivity|]. apply Forall_forall. intros; reflexivity.
Qed.

Lemma small_first_seen_shape (p : list R) (b s e : nat) (E : tensor R 3) :
  has_shape 3 [b; s; e] E ->
  exists out, Small.first_seen p E = Ok out /\ has_shape 3 [b; s; e] out.
Proof.
  intros [Hb Hall]. eexists. split; [reflexivity|].
  split; [now rewrite length_map|].
  apply Forall_map. eapply Forall_impl; [|exact Hall].
  intros x [Hs Hrows]. split; [now rewrite length_map|].
  change (tensor R 2) with (list (list R)) in x.
  destruct x as [|r x]; [constructor|].
  apply Forall_map, Forall_forall. intros _ _.
  exact (Forall_inv Hrows).
Qed.

Lemma bidirectional_rnn_concat_witness :
  has_shape 2 [1; 3]%nat Small.tokens /\
  has_shape 2 [2; 2]%nat (encoder (params Small.net) : tensor R 2) /\
  bidirectional_rnn Small.first_seen Small.net Small.tokens
  = bidirectional_rnn_by_spec Small.first_seen Small.net Small.tokens /\
  exists (E fw_out bw_out Y : tensor R 3),
    embedding (encoder (params Small.net)) Small.tokens = Ok E /\
    reverse 2 Small.tokens 1 = Ok (reverse_time Small.tokens) /\
    embedding (encoder (params Small.net)) (reverse_time Small.tokens)
    = Ok (reverse_time E) /\
    Small.first_seen (fw_lstm (params Small.net)) E = Ok fw_out /\
    Small.first_seen (bw_lstm (params Small.net)) (reverse_time E)
    = Ok bw_out /\
    reverse 3 bw_out 1 = Ok (reverse_time bw_out) /\
    Y = concat_features fw_out (reverse_time bw_out) /\
    bidirectional_rnn Small.first_seen Small.net Small.tokens = Ok Y /\
    has_shape 3 [1; 3; (2 * 2)%nat]%nat Y /\
    forall i t, (i < 1)%nat -> (t < 3)%nat ->
      nth t (nth i Y []) []
      = nth t (nth i fw_out []) [] ++ nth (3 - 1 - t) (nth i bw_out []) [].
Proof.
  assert (HX : has_shape 2 [1; 3]%nat Small.tokens).
  { simpl. split; [reflexivity|]. repeat constructor. }
  assert (HT : has_shape 2 [2; 2]%nat (encoder (params Small.net) : tensor R 2)).
  { simpl. split; [reflexivity|]. repeat constructor. }
  split; [exact HX|]. split; [exact HT|].
  apply (@bidirectional_rnn_concat (list R) Small.first_seen unit Small.net
           Small.tokens 1 3 2 2 2 HX HT).
  - simpl. intros row tok [<-|[]] Htok. simpl in Htok.
    destruct Htok as [<-|[<-|[<-|[]]]]; lia.
  - intros E HE. apply (small_first_seen_shape [0%R] 1 3 2 E HE).
  - intros E HE. apply (small_first_seen_shape [1%R] 1 3 2 E HE).
Defined.

Example bidirectional_rnn_small :
  bidirectional_rnn Small.lstm Small.net Small.tokens
  = Ok [[[0; 1]; [0; 1]; [0; 1]]]%R.
Proof. reflexivity. Qed.

(** The tokens 0, 1, 1 are embedded as (0, 0), (1, 1), (1, 1).  At every
    timestep the forward cell has first read (0, 0), the embedding of the
    first token, and the backward cell (1, 1), the embedding of the last. *)
Example bidirectional_rnn_reads_backwards :
  bidirectional_rnn Small.first_seen Small.net Small.tokens
  = Ok [[[0; 0; 1; 1]; [0; 0; 1; 1]; [0; 0; 1; 1]]]%R.
Proof. reflexivity. Qed.

(** ** [attention]: the axis of its softmax *)

Lemma nth_error_combine (A B : Type) (X : list A) (Y : list B) (i : nat) :
  nth_error (combine X Y) i =
  match nth_error X i, nth_error Y i with
  | Some x, Some y => Some (x, y)
  | _, _ => None
  end.
Proof.
  revert Y i. induction X as [|x X IH]; intros Y i.
  - destruct i; reflexivity.
  - destruct Y as [|y Y]; destruct i as [|i]; cbn; try reflexivity.
    + destruct (nth_error X i); reflexivity.
    + apply IH.
Qed.

Section Entries.

Context {A B C : Type}.

Lemma tmap_S (f : A -> B) (m : nat) (X : list (tensor A m)) :
  tmap f (S m) X = map (tmap f m) X.
Proof. reflexivity. Qed.

Lemma tzip_S (f : A -> B -> C) (m : nat) (X : list (tensor A m))
  (Y : list (tensor B m)) :
  tzip f (S m) X Y = map (fun xy => tzip f m (fst xy) (snd xy)) (combine X Y).
Proof. reflexivity. Qed.

Lemma entry_tmap (f : A -> B) :
  forall (n : nat) (X : tensor A n) (idx : list nat),
    entry n (tmap f n X) idx = option_map f (entry n X idx).
Proof.
  induction n as [|m IH]; intros X idx.
  - destruct idx; reflexivity.
  - destruct idx as [|i idx]; [reflexivity|].
    change (tensor A (S m)) with (list (tensor A m)) in X.
    rewrite tmap_S, !entry_cons, nth_error_map.
    destruct (nth_error X i) as [x|]; cbn [option_map]; [apply IH|reflexivity].
Qed.

Lemma entry_tzip (f : A -> B -> C) :
  forall (n : nat) (X : tensor A n) (Y : tensor B n) (idx : list nat),
    entry n (tzip f n X Y) idx =
    match entry n X idx, entry n Y idx with
    | Some x, Some y => Some (f x y)
    | _, _ => None
    end.
Proof.
  induction n as [|m IH]; intros X Y idx.
  - destruct idx; reflexivity.
  - destruct idx as [|i idx]; [reflexivity|].
    change (tensor A (S m)) with (list (tensor A m)) in X.
    change (tensor B (S m)) with (list (tensor B m)) in Y.
    rewrite tzip_S, !entry_cons, nth_error_map, nth_error_combine.
    destruct (nth_error X i) as [x|]; [|reflexivity].
    destruct (nth_error Y i) as [y|]; cbn [option_map fst snd].
    + apply IH.
    + destruct (entry m x idx); reflexivity.
Qed.

Lemma has_shape_entry :
  forall (n : nat) (s : list nat) (X : tensor A n) (idx : list nat),
    has_shape n s X -> Forall2 lt idx s -> exists x, entry n X idx = Some x.
Proof.
  induction n as [|m IH]; intros s X idx HX Hidx.
  - cbn in HX. subst s. inversion Hidx. now exists X.
  - destruct s as [|k s]; [contradiction|]. destruct HX as [Hlen Hall].
    inversion Hidx as [|i k' idx' s' Hi Hidx' E1 E2]; subst.
    change (tensor A (S m)) with (list (tensor A m)) in X.
    rewrite entry_cons.
    destruct (nth_error X i) as [x|] eqn:E.
    + apply (IH s); [|assumption].
      rewrite Forall_forall in Hall. apply Hall.
      eapply nth_error_In; eassumption.
    + apply nth_error_None in E.
      change (i < @length (tensor A m) X)%nat in Hi. lia.
Qed.

End Entries.

Lemma fold_left_Rplus (xs : list R) (x0 : R) :
  fold_left Rplus xs x0 = (x0 + fold_right Rplus 0 xs)%R.
Proof.
  revert x0. induction xs as [|x xs IH]; intros x0; cbn; [lra|].
  rewrite IH. lra.
Qed.

(** The element of a pointwise sum is the sum of the elements. *)
Lemma entry_fold_sum (n : nat) (idx : list nat) :
  forall (es : list (tensor R n)) (xs : list R) (e0 : tensor R n) (x0 : R),
    entry n e0 idx = Some x0 ->
    Forall2 (fun e x => entry n e idx = Some x) es xs ->
    entry n (fold_left (tzip Rplus n) es e0) idx = Some (fold_left Rplus xs x0).
Proof.
  induction es as [|e es IH]; intros xs e0 x0 H0 Hes.
  - inversion Hes. exact H0.
  - inversion Hes as [|? x ? xs' Hx Hes' E1 E2]; subst. cbn [fold_left].
    apply IH; [|assumption].
    now rewrite entry_tzip, H0, Hx.
Qed.

Lemma sum_of_ratios (S : R) (xs : list R) :
  fold_right Rplus 0%R (map (fun x => x / S)%R xs)
  = (fold_right Rplus 0 xs / S)%R.
Proof.
  induction xs as [|x xs IH]; cbn; [lra|]. rewrite IH. lra.
Qed.

Lemma sum_of_positives (xs : list R) :
  Forall (fun x => 0 < x)%R xs -> (0 <= fold_right Rplus 0 xs)%R.
Proof.
  induction 1 as [|x xs Hx _ IH]; cbn; lra.
Qed.

(** The softmax of a rank-3 tensor with no [dim] given, spelled out. *)
Lemma softmax3_cons (z0 : tensor R 2) (zs : list (tensor R 2)) :
  softmax 3 (z0 :: zs : tensor R 3) =
  Ok (map (fun e : tensor R 2 =>
             tzip Rdiv 2 e
               (fold_left (tzip Rplus 2) (map (tmap exp 2) zs)
                  (tmap exp 2 z0)))
          (map (tmap exp 2) (z0 :: zs))).
Proof. reflexivity. Qed.

(** A softmax along the batch axis: at every position below the batch axis
    the weights of the examples are positive and sum to 1. *)
Lemma softmax_over_batch (b s k : nat) (scores alphas : tensor R 3) :
  has_shape 3 [b; s; k] scores ->
  softmax 3 scores = Ok alphas ->
  length alphas = b /\
  forall t j, (t < s)%nat -> (j < k)%nat -> (0 < b)%nat ->
    exists ws : list R,
      Forall2 (fun example w => entry 2 example [t; j] = Some w) alphas ws /\
      Forall (fun w => 0 < w)%R ws /\
      fold_right Rplus 0%R ws = 1%R.
Proof.
  intros Hshape Hsoft.
  change (tensor R 3) with (list (tensor R 2)) in scores, alphas.
  destruct Hshape as [Hb Hall].
  destruct scores as [|z0 zs].
  { cbn in Hsoft. injection Hsoft as <-. split; [exact Hb|].
    intros t j _ _ Hpos. cbn in Hb. lia. }
  rewrite softmax3_cons in Hsoft. apply Ok_inj in Hsoft. subst alphas.
  split; [now rewrite !length_map|].
  intros t j Ht Hj _.
  (* the scores at the position *)
  assert (Hz : forall z, In z (z0 :: zs) -> exists x, entry 2 z [t; j] = Some x).
  { intros z Hin. apply (has_shape_entry 2 [s; k]).
    - rewrite Forall_forall in Hall. now apply Hall.
    - repeat constructor; assumption. }
  assert (Hcol : forall l : list (tensor R 2),
            (forall z, In z l -> exists x, entry 2 z [t; j] = Some x) ->
            exists xs, Forall2 (fun z x => entry 2 z [t; j] = Some x) l xs).
  { induction l as [|z l IH]; intros Hl.
    - exists []. constructor.
    - destruct (Hl z (or_introl eq_refl)) as [x Hx].
      destruct IH as [xs Hxs]; [intros z' Hz'; apply Hl; now right|].
      exists (x :: xs). now constructor. }
  destruct (Hz z0 (or_introl eq_refl)) as [x0 Hx0].
  destruct (Hcol zs (fun z Hin => Hz z (or_intror Hin))) as [xs Hxs].
  set (E := fun z : tensor R 2 => tmap exp 2 z).
  set (total := fold_left (tzip Rplus 2) (map E zs) (E z0)).
  set (S := fold_left Rplus (map exp xs) (exp x0)).
  assert (Htotal : entry 2 total [t; j] = Some S).
  { apply entry_fold_sum.
    - unfold E. now rewrite entry_tmap, Hx0.
    - clear -Hxs. induction Hxs as [|z x zs xs Hx _ IH]; cbn [map];
        constructor; [|exact IH].
      unfold E. now rewrite entry_tmap, Hx. }
  assert (HSpos : (0 < S)%R).
  { unfold S. rewrite fold_left_Rplus.
    pose proof (exp_pos x0).
    assert (0 <= fold_right Rplus 0 (map exp xs))%R.
    { apply sum_of_positives, Forall_map, Forall_forall.
      intros x _. apply exp_pos. }
    lra. }
  exists (map (fun x => exp x / S)%R (x0 :: xs)).
  split; [|split].
  - assert (Hall2 : Forall2 (fun z x => entry 2 z [t; j] = Some x)
                      (z0 :: zs) (x0 :: xs)) by (now constructor).
    clear -Hall2 Htotal. fold E. fold total.
    induction Hall2 as [|z x l xs' Hx _ IH]; cbn [map]; constructor;
      [|exact IH].
    rewrite entry_tzip. unfold E. now rewrite entry_tmap, Hx, Htotal.
  - apply Forall_map, Forall_forall. intros x _.
    apply Rdiv_lt_0_compat; [apply exp_pos|exact HSpos].
  - rewrite <- (map_map exp (fun y => (y / S)%R)), sum_of_ratios.
    cbn [map fold_right]. unfold S. rewrite fold_left_Rplus.
    unfold S in HSpos. rewrite fold_left_Rplus in HSpos.
    field. lra.
Qed.

Section Shapes.

Context {A B C : Type}.

Lemma tmap_shape (f : A -> B) :
  forall (n : nat) (s : list nat) (X : tensor A n),
    has_shape n s X -> has_shape n s (tmap f n X).
Proof.
  induction n as [|m IH]; intros s X HX; [exact HX|].
  destruct s as [|k s]; [contradiction|]. destruct HX as [Hlen Hall].
  change (tensor A (S m)) with (list (tensor A m)) in X.
  rewrite tmap_S. split; [now rewrite length_map|].
  apply Forall_map. eapply Forall_impl; [|exact Hall].
  intros x Hx. now apply IH.
Qed.

Lemma tzip_shape (f : A -> B -> C) :
  forall (n : nat) (s : list nat) (X : tensor A n) (Y : tensor B n),
    has_shape n s X -> has_shape n s Y -> has_shape n s (tzip f n X Y).
Proof.
  induction n as [|m IH]; intros s X Y HX HY; [exact HX|].
  destruct s as [|k s]; [contradiction|].
  destruct HX as [HlX HaX], HY as [HlY HaY].
  change (tensor A (S m)) with (list (tensor A m)) in X.
  change (tensor B (S m)) with (list (tensor B m)) in Y.
  rewrite tzip_S. split.
  - rewrite length_map, length_combine.
    change (@length (tensor A m) X = k) in HlX.
    change (@length (tensor B m) Y = k) in HlY. lia.
  - apply Forall_map, Forall_forall. intros [x y] Hxy. cbn [fst snd].
    rewrite Forall_forall in HaX, HaY.
    apply IH; [apply HaX|apply HaY].
    + eapply in_combine_l. exact Hxy.
    + eapply in_combine_r. exact Hxy.
Qed.

End Shapes.

Lemma fold_tzip_shape (A : Type) (f : A -> A -> A) (n : nat) (s : list nat) :
  forall (es : list (tensor A n)) (e0 : tensor A n),
    has_shape n s e0 -> Forall (has_shape n s) es ->
    has_shape n s (fold_left (tzip f n) es e0).
Proof.
  induction es as [|e es IH]; intros e0 He0 Hes; [exact He0|].
  cbn [fold_left]. apply IH; [|now inversion Hes].
  apply tzip_shape; [assumption|now inversion Hes].
Qed.

Lemma chunks_rows (A : Type) (rows k : nat) (l : list A) :
  (rows * k <= length l)%nat ->
  Forall (fun r => length r = k) (chunks rows k l).
Proof.
  intros Hlen. unfold chunks. apply Forall_map, Forall_forall.
  intros r Hr. apply in_seq in Hr.
  rewrite length_firstn, length_skipn. nia.
Qed.

Lemma In_firstn_skipn (A : Type) (x : A) (k j : nat) (l : list A) :
  In x (firstn k (skipn j l)) -> In x l.
Proof.
  intros H.
  rewrite <- (firstn_skipn j l). apply in_or_app. right.
  rewrite <- (firstn_skipn k (skipn j l)). apply in_or_app. now left.
Qed.

(** A view (a, -1, 1) takes a positive [a] that divides the number of
    elements, and is rectangular. *)
Lemma view3_column_shape (n : nat) (X : tensor R n) (a : Z)
  (scores : tensor R 3) :
  view3 n X a (-1) 1 = Ok scores ->
  1 <= a /\ exists s : nat, has_shape 3 [Z.to_nat a; s; 1%nat] scores.
Proof.
  unfold view3, infer_sizes. set (flat := flatten n X).
  cbn [filter]. change (negb (-1 =? -1)) with false.
  change (negb (1 =? -1)) with true. cbv iota.
  destruct (Z.eqb_spec a (-1)) as [->|Ha]; cbn [negb]; [discriminate|].
  cbn [existsb fold_right length map].
  change (1 <? 0) with false. rewrite !orb_false_r.
  destruct (Z.ltb_spec a 0) as [|Hpos]; [discriminate|].
  cbn [Nat.eqb]. rewrite Z.mul_1_r.
  destruct (Z.eqb_spec a 0) as [|Ha0]; [discriminate|]. cbn [orb].
  destruct (Z.eqb_spec (Z.of_nat (length flat) mod a) 0) as [Hmod|];
    [|discriminate].
  cbn [negb bind].
  destruct (Z.eqb_spec a (-1)); [contradiction|].
  change (-1 =? -1) with true. change (1 =? -1) with false. cbv iota.
  change (Z.to_nat 1) with 1%nat.
  intros E. apply Ok_inj in E. subst scores.
  split; [lia|].
  set (a' := Z.to_nat a). set (b' := Z.to_nat (Z.of_nat (length flat) / a)).
  assert (Hnumel : length flat = (a' * b')%nat).
  { pose proof (Z.div_mod (Z.of_nat (length flat)) a Ha0) as Hdm.
    rewrite Hmod, Z.add_0_r in Hdm.
    assert (0 <= Z.of_nat (length flat) / a) by (apply Z.div_pos; lia).
    subst a' b'. nia. }
  exists b'.
  assert (Hinner : Forall (fun r => length r = 1%nat)
                     (chunks (a' * b') 1 flat))
    by (apply chunks_rows; lia).
  split; [apply chunks_length|].
  apply Forall_forall. intros g Hg.
  unfold chunks at 1 in Hg. apply in_map_iff in Hg.
  destruct Hg as [r [<- Hr]]. apply in_seq in Hr.
  split.
  - rewrite length_firstn, length_skipn, chunks_length. nia.
  - apply Forall_forall. intros row Hrow. apply In_firstn_skipn in Hrow.
    rewrite Forall_forall in Hinner.
    split; [now apply Hinner|].
    apply Forall_forall. intros; reflexivity.
Qed.

(** What [attention] computes for every input it accepts: the weights of one
    timestep are positive and sum to 1 over the examples of the batch. *)
Lemma attention_alphas_over_batch {lstm_params adam_state : Type}
  (me : model lstm_params adam_state) (X : tensor R 3) (batch_size : Z)
  (alphas : tensor R 3) :
  attention_alphas me X batch_size = Ok alphas ->
  1 <= batch_size /\
  exists s : nat,
    has_shape 3 [Z.to_nat batch_size; s; 1%nat] alphas /\
    forall t, (t < s)%nat ->
      exists ws : list R,
        Forall2 (fun example w => entry 2 example [t; 0%nat] = Some w)
          alphas ws /\
        Forall (fun w => 0 < w)%R ws /\
        fold_right Rplus 0%R ws = 1%R.
Proof.
  unfold attention_alphas.
  destruct (view2 3 X (-1) (2 * cell_size me)) as [reshaped|];
    [|discriminate].
  cbn [bind].
  destruct (linear_apply (attn_fc (params me)) reshaped) as [projected|];
    [|discriminate].
  cbn [bind].
  destruct (view3 2 (tmap tanh 2 projected) batch_size (-1) 1)
    as [scores|] eqn:Hview; [|discriminate].
  cbn [bind]. intros Hsoft.
  destruct (view3_column_shape _ _ _ _ Hview) as [Hb [s Hshape]].
  destruct (softmax_over_batch _ _ _ scores alphas Hshape Hsoft)
    as [Hlen Hcols].
  split; [exact Hb|]. exists s. split.
  - (* the shape of the weights is the shape of the scores *)
    change (tensor R 3) with (list (tensor R 2)) in scores, alphas.
    destruct scores as [|z0 zs]; [destruct Hshape as [Hl _]; cbn in Hl; lia|].
    rewrite softmax3_cons in Hsoft. apply Ok_inj in Hsoft. subst alphas.
    split; [exact Hlen|].
    destruct Hshape as [_ Hall].
    apply Forall_map, Forall_map.
    eapply Forall_impl; [|exact Hall].
    intros z [Hs Hrows].
    change (tensor R 2) with (list (list R)) in z.
    set (total := fold_left _ _ _).
    assert (Htot : has_shape 2 [s; 1%nat] total).
    { subst total. apply fold_tzip_shape.
      - apply tmap_shape. exact (Forall_inv Hall).
      - apply Forall_map.
        eapply Forall_impl; [|exact (Forall_inv_tail Hall)].
        intros; now apply tmap_shape. }
    apply (tzip_shape Rdiv 2 [s; 1%nat]); [|exact Htot].
    apply tmap_shape. now split.
  - intros t Ht. apply Hcols; lia.
Qed.

(** One example alone: every weight is 1, whatever the scores are. *)
Lemma attention_alphas_single_example {lstm_params adam_state : Type}
  (me : model lstm_params adam_state) (X : tensor R 3) (alphas : tensor R 3) :
  attention_alphas me X 1 = Ok alphas ->
  exists (s : nat) (example : tensor R 2),
    alphas = [example] /\
    has_shape 2 [s; 1%nat] example /\
    forall t, (t < s)%nat -> entry 2 example [t; 0%nat] = Some 1%R.
Proof.
  intros Halphas.
  destruct (attention_alphas_over_batch me X 1 alphas Halphas)
    as [_ [s [Hshape Hcols]]].
  change (tensor R 3) with (list (tensor R 2)) in alphas.
  destruct Hshape as [Hlen Hall].
  destruct alphas as [|example [|]]; try discriminate Hlen.
  exists s, example. split; [reflexivity|].
  split; [exact (Forall_inv Hall)|].
  intros t Ht. destruct (Hcols t Ht) as [ws [Hws [_ Hsum]]].
  inversion Hws as [|? w ? ws' Hw Hnil]; subst. inversion Hnil; subst.
  cbn in Hsum. rewrite Hw. f_equal. lra.
Qed.

(** ** [attention]: on small inputs *)

Lemma exp_ratio_self (t : R) : (exp t / exp t)%R = 1%R.
Proof. pose proof (exp_pos t). now field; lra. Qed.

Lemma exp_ratio_half (t : R) : (exp t / (exp t + exp t))%R = (1 / 2)%R.
Proof. pose proof (exp_pos t). field. lra. Qed.

(** C4 fails on the code. One example of two timesteps: the scores are
    viewed as a rank-3 tensor, for which a softmax without [dim] normalises
    along axis 0, the batch. Each weight is divided by itself, both weights
    of the example are 1, and they sum to 2 along the time axis. *)
Theorem attention_weights_not_over_time :
  exists alphas : tensor R 3,
    attention_alphas Small.net ([[[0; 0]; [0; 0]]]%R : tensor R 3) 1
    = Ok alphas /\
    alphas = [[[1]; [1]]]%R /\
    sum_over_time alphas = [2%R] /\
    sum_over_time alphas <> [1%R] /\
    sum_over_batch alphas = [1; 1]%R.
Proof.
  exists ([[[1]; [1]]]%R : tensor R 3).
  split.
  - transitivity
      (Ok ([[[exp (tanh (dot [0; 0] [0; 0] + 0)) / exp (tanh (dot [0; 0] [0; 0] + 0))];
             [exp (tanh (dot [0; 0] [0; 0] + 0)) / exp (tanh (dot [0; 0] [0; 0] + 0))]]]%R
           : tensor R 3)); [reflexivity|].
    now rewrite exp_ratio_self.
  - split; [reflexivity|].
    assert (Hsum : sum_over_time ([[[1]; [1]]]%R : tensor R 3) = [2%R])
      by (cbn; f_equal; lra).
    split; [exact Hsum|]. split.
    + rewrite Hsum. intros E. injection E as E. lra.
    + cbn. repeat f_equal; lra.
Qed.

(** Two examples of one timestep: the two weights share the one softmax, and
    each example has the weight 1/2 instead of 1. *)
Example attention_weights_shared_by_batch :
  attention_alphas Small.net ([[[0; 0]]; [[0; 0]]]%R : tensor R 3) 2
  = Ok ([[[1 / 2]]; [[1 / 2]]]%R : tensor R 3).
Proof.
  transitivity
    (Ok ([[[exp (tanh (dot [0; 0] [0; 0] + 0))
            / (exp (tanh (dot [0; 0] [0; 0] + 0))
               + exp (tanh (dot [0; 0] [0; 0] + 0)))]];
          [[exp (tanh (dot [0; 0] [0; 0] + 0))
            / (exp (tanh (dot [0; 0] [0; 0] + 0))
               + exp (tanh (dot [0; 0] [0; 0] + 0)))]]]%R
         : tensor R 3)); [reflexivity|].
  now rewrite exp_ratio_half.
Qed.

(** ** Stateful loops *)

Lemma for_loop_cons (W A S : Type) (body : S -> A -> M W S) (a : A)
  (l : list A) (s : S) (w : W) :
  for_loop body (a :: l) s w =
  match body s a w with
  | (Ok s', w') => for_loop body l s' w'
  | (Raise e, w') => (Raise e, w')
  end.
Proof. reflexivity. Qed.

Lemma bindM_lift (W A B : Type) (r : result A) (k : A -> M W B) (w : W) :
  bindM (lift r) k w =
  match r with
  | Ok a => k a w
  | Raise e => (Raise e, w)
  end.
Proof. unfold bindM, lift. destruct r; reflexivity. Qed.

(** ** [evaluate] *)

Section Evaluate.

Context {lstm_params : Type}.
Variable lstm : lstm_params -> tensor R 3 -> result (tensor R 3).
Context {adam_state : Type}.
Variable argmax : list R -> Z.

Implicit Types (me : model lstm_params adam_state)
               (w : world lstm_params adam_state).

Lemma evaluate_batch_run w (correct total : Z) (item : tensor Z 2 * list Z) :
  evaluate_batch lstm argmax (correct, total) item w =
  match batch_hits lstm argmax (self w) item with
  | Ok hits => (Ok (correct + hits, total + Z.of_nat (length (snd item))), w)
  | Raise e => (Raise e, w)
  end.
Proof.
  unfold evaluate_batch, batch_hits, bindM, get, lift, ret. cbn [fst snd].
  destruct (forward lstm (self w) (fst item) (Z.of_nat (length (fst item))))
    as [preds|e]; cbn [bind]; [|reflexivity].
  destruct (count_eq (map argmax preds) (snd item)); reflexivity.
Qed.

(** The loop of [evaluate] adds up the hits and the sizes of the batches and
    leaves the world as it is. *)
Lemma evaluate_loop_run :
  forall (items : list (tensor Z 2 * list Z)) w (correct total : Z),
    for_loop (evaluate_batch lstm argmax) items (correct, total) w =
    match mapM (batch_hits lstm argmax (self w)) items with
    | Ok hits => (Ok (correct + sum_Z hits, total + batch_sizes items), w)
    | Raise e => (Raise e, w)
    end.
Proof.
  induction items as [|item items IH]; intros w correct total.
  - cbn. unfold ret. now rewrite !Z.add_0_r.
  - cbn [for_loop mapM]. unfold bindM at 1. rewrite evaluate_batch_run.
    destruct (batch_hits lstm argmax (self w) item) as [h|e]; cbn [bind];
      [|reflexivity].
    rewrite IH.
    destruct (mapM (batch_hits lstm argmax (self w)) items) as [hs|e]; cbn [bind];
      [|reflexivity].
    unfold batch_sizes. cbn [map sum_Z fold_right].
    fold (sum_Z hs).
    fold (sum_Z (map (fun item0 : tensor Z 2 * list Z =>
                        Z.of_nat (length (snd item0))) items)).
    do 2 f_equal; f_equal; lia.
Qed.

Lemma evaluate_run w (X_test : tensor Z 2) (y_test : list Z) (batch_size : Z) :
  evaluate lstm argmax X_test y_test batch_size w =
  match accuracy_of_batches lstm argmax (self w) X_test y_test batch_size with
  | Ok acc => (Ok tt, {| self := self w; trace := trace w ++ [PrintAccuracy acc] |})
  | Raise e => (Raise e, w)
  end.
Proof.
  unfold evaluate, accuracy_of_batches.
  unfold bindM at 1. unfold lift at 1.
  destruct (gen_batch X_test batch_size) as [bx|e]; cbn [bind]; [|reflexivity].
  unfold bindM at 1. unfold lift at 1.
  destruct (gen_batch y_test batch_size) as [by_|e]; cbn [bind]; [|reflexivity].
  unfold bindM at 1. rewrite evaluate_loop_run.
  destruct (mapM (batch_hits lstm argmax (self w)) (zip bx by_)) as [hits|e]; cbn [bind];
    [|reflexivity].
  unfold bindM, lift, modify, emit. cbn [fst snd]. rewrite !Z.add_0_l.
  destruct (float_div (IZR (sum_Z hits)) (batch_sizes (zip bx by_)));
    reflexivity.
Qed.

End Evaluate.

Lemma sum_Z_lengths (A : Type) (l : list (list A)) :
  sum_Z (map (fun b => Z.of_nat (length b)) l)
  = Z.of_nat (list_sum (map (@length A) l)).
Proof.
  unfold sum_Z, list_sum. induction l as [|b l IH]; [reflexivity|].
  cbn [map fold_right]. rewrite IH. lia.
Qed.

Lemma batch_sizes_zip :
  forall (bx : list (tensor Z 2)) (by_ : list (list Z)),
    length bx = length by_ ->
    batch_sizes (zip bx by_) = Z.of_nat (list_sum (map (@length Z) by_)).
Proof.
  intros bx by_ Hlen. rewrite <- sum_Z_lengths.
  unfold batch_sizes, zip. f_equal.
  revert by_ Hlen. induction bx as [|x bx IH]; intros [|b by_] Hlen;
    try discriminate; [reflexivity|].
  cbn [combine map snd]. f_equal. apply IH. now injection Hlen.
Qed.

(** With equally many examples and labels, the batches of [evaluate] and
    [fit] are as many as [gen_batch] yields, and hold every label. *)
Lemma zip_batches (X : tensor Z 2) (y : list Z) (B : Z) :
  0 < B -> length X = length y ->
  exists bx by_,
    gen_batch X B = Ok bx /\ gen_batch y B = Ok by_ /\
    Z.of_nat (length (zip bx by_)) = ceil_div (Z.of_nat (length y)) B /\
    batch_sizes (zip bx by_) = Z.of_nat (length y).
Proof.
  intros HB Hlen.
  destruct (gen_batch_count (list Z) X B HB) as [bx [Hbx [Hnx _]]].
  destruct (gen_batch_count Z y B HB) as [by_ [Hby [Hny Hcat]]].
  assert (Hsum : list_sum (map (@length Z) by_) = length y)
    by (rewrite <- length_concat; now rewrite Hcat).
  exists bx, by_. split; [exact Hbx|]. split; [exact Hby|].
  assert (Hn : length bx = length by_).
  { apply Nat2Z.inj. rewrite Hnx, Hny.
    change (tensor Z 2) with (list (list Z)) in X. now rewrite Hlen. }
  split.
  - unfold zip. rewrite length_combine, Hn, Nat.min_id. exact Hny.
  - rewrite batch_sizes_zip by exact Hn. now rewrite Hsum.
Qed.

Lemma combine_map_same (A B C : Type) (f : A -> B) (g : A -> C) (l : list A) :
  combine (map f l) (map g l) = map (fun a => (f a, g a)) l.
Proof. induction l as [|a l IH]; [reflexivity|]. cbn. now rewrite IH. Qed.

(** The batches [fit] and [evaluate] zip: none is empty, each has as many
    labels as examples, and its examples and labels are examples and labels
    of the data. *)
Lemma zipped_batches (A B : Type) (X : list A) (y : list B) (batch_size : Z) :
  0 < batch_size -> length X = length y ->
  exists X_batches y_batches,
    gen_batch X batch_size = Ok X_batches /\
    gen_batch y batch_size = Ok y_batches /\
    Forall (fun item => (1 <= length (fst item))%nat /\
                        length (snd item) = length (fst item) /\
                        incl (fst item) X /\ incl (snd item) y)
           (zip X_batches y_batches).
Proof.
  intros HB Hlen. do 2 eexists.
  split; [now apply gen_batch_chunks|].
  split; [now apply gen_batch_chunks|].
  rewrite <- Hlen. unfold zip, chunks. rewrite combine_map_same.
  apply Forall_map, Forall_forall. intros r Hr. apply in_seq in Hr.
  cbn [fst snd].
  destruct (@batch_count_bounds (Z.of_nat (length X)) batch_size HB
              (Nat2Z.is_nonneg _)) as [Hq0 Hq].
  rewrite !length_firstn, !length_skipn, <- Hlen.
  split; [nia|]. split; [reflexivity|].
  split; intros x Hx; eapply In_firstn_skipn; exact Hx.
Qed.

(** *** The count of one batch, and of all *)

Lemma count_eq_same_length (preds labels : list Z) :
  length preds = length labels ->
  count_eq preds labels = Ok (correct_predictions preds labels).
Proof.
  intros Hlen. unfold count_eq. rewrite Hlen, Nat.eqb_refl. f_equal.
  revert labels Hlen.
  induction preds as [|p preds IH]; intros [|l labels] Hlen;
    try discriminate Hlen; [reflexivity|].
  cbn [combine filter fst snd correct_predictions].
  rewrite <- (IH labels) by (now injection Hlen).
  destruct (p =? l); cbn [length]; lia.
Qed.

Lemma correct_predictions_app (p1 p2 l1 l2 : list Z) :
  length p1 = length l1 ->
  correct_predictions (p1 ++ p2) (l1 ++ l2)
  = correct_predictions p1 l1 + correct_predictions p2 l2.
Proof.
  revert l1. induction p1 as [|p p1 IH]; intros [|l l1] Hlen;
    try discriminate Hlen; [reflexivity|].
  cbn [app correct_predictions]. rewrite IH by (now injection Hlen). lia.
Qed.

Lemma correct_predictions_bounds (preds labels : list Z) :
  0 <= correct_predictions preds labels <= Z.of_nat (length labels).
Proof.
  revert labels. induction preds as [|p preds IH]; intros [|l labels];
    cbn [correct_predictions length]; try lia.
  specialize (IH labels). destruct (p =? l); lia.
Qed.

Section Rows.

Context {lstm_params : Type}.
Variable lstm : lstm_params -> tensor R 3 -> result (tensor R 3).
Context {adam_state : Type}.
Variable argmax : list R -> Z.

Implicit Types me : model lstm_params adam_state.

Hypothesis Hrows : per_example lstm.

Lemma bidirectional_rnn_rows me (X : tensor Z 2) (Y : tensor R 3) :
  bidirectional_rnn lstm me X = Ok Y -> length Y = length X.
Proof.
  unfold bidirectional_rnn.
  destruct (reverse 2 X 1) as [Xr|]; [|discriminate]. cbn [bind].
  destruct (embedding (encoder (params me)) X) as [E|] eqn:HE;
    [|discriminate].
  cbn [bind].
  destruct (lstm (fw_lstm (params me)) E) as [fw_out|] eqn:Hfw;
    [|discriminate].
  cbn [bind].
  destruct (embedding (encoder (params me)) Xr) as [Er|]; [|discriminate].
  cbn [bind].
  destruct (lstm (bw_lstm (params me)) Er) as [bw_out|]; [|discriminate].
  cbn [bind].
  destruct (reverse 3 bw_out 1) as [bw_back|]; [|discriminate].
  cbn [bind cat].
  destruct (length fw_out =? length bw_back)%nat eqn:Hl; [|discriminate].
  intros HY. apply mapM_length in HY. apply Nat.eqb_eq in Hl.
  rewrite HY, length_combine, <- Hl, Nat.min_id.
  rewrite (Hrows _ _ _ Hfw). unfold embedding in HE.
  now apply mapM_length in HE.
Qed.

Lemma attention_rows me (X : tensor R 3) (batch_size : Z) (out : tensor R 2) :
  attention me X batch_size = Ok out -> length out = length X.
Proof.
  unfold attention.
  destruct (attention_alphas me X batch_size) as [alphas|]; [|discriminate].
  cbn [bind]. unfold bmm, transpose12. rewrite length_map.
  destruct (length X =? length alphas)%nat eqn:Hl; [|discriminate].
  destruct (mapM _ (combine (map transpose_mat X) alphas)) as [pooled|] eqn:Hp;
    [|discriminate].
  cbn [bind]. unfold squeeze2. intros Hs.
  apply mapM_length in Hs. apply mapM_length in Hp. apply Nat.eqb_eq in Hl.
  rewrite Hs, Hp, length_combine, length_map, <- Hl. apply Nat.min_id.
Qed.

(** One row of logits per example. *)
Lemma forward_rows me (X : tensor Z 2) (batch_size : Z) (logits : tensor R 2) :
  forward lstm me X batch_size = Ok logits -> length logits = length X.
Proof.
  unfold forward.
  destruct (bidirectional_rnn lstm me X) as [Y|] eqn:HY; [|discriminate].
  cbn [bind].
  destruct (attention me Y batch_size) as [attn_out|] eqn:Ha; [|discriminate].
  cbn [bind]. unfold linear_apply. intros Hl. apply mapM_length in Hl.
  apply attention_rows in Ha. apply bidirectional_rnn_rows in HY.
  congruence.
Qed.

(** The counts of batches with as many labels as examples add up to the
    correct predictions among all their examples. *)
Lemma batch_hits_predictions me :
  forall items : list (tensor Z 2 * list Z),
    Forall (fun item => length (snd item) = length (fst item)) items ->
    (forall preds,
       mapM (predictions lstm argmax me) (map fst items) = Ok preds ->
       exists hits,
         mapM (batch_hits lstm argmax me) items = Ok hits /\
         sum_Z hits
         = correct_predictions (concat preds) (concat (map snd items))) /\
    (forall e,
       mapM (predictions lstm argmax me) (map fst items) = Raise e ->
       mapM (batch_hits lstm argmax me) items = Raise e).
Proof.
  induction 1 as [|[Xb yb] items Hitem _ [IHok IHraise]].
  { split; [|discriminate]. intros preds H. apply Ok_inj in H. subst preds.
    now exists []. }
  cbn [fst snd] in Hitem. cbn [map mapM fst snd].
  unfold predictions at 1 3, batch_hits at 1 3. cbn [fst snd].
  destruct (forward lstm me Xb (Z.of_nat (length Xb))) as [logits|e0] eqn:Hf;
    cbn [bind].
  2:{ split; [discriminate|]. intros e H. injection H as <-. reflexivity. }
  assert (Hlen : length (map argmax logits) = length yb).
  { rewrite length_map, (forward_rows _ _ _ _ Hf). now symmetry. }
  rewrite (count_eq_same_length _ _ Hlen). cbn [bind].
  split.
  - intros preds Hp.
    match type of Hp with
    | bind ?c _ = _ => destruct c as [ps|] eqn:Hps
    end; [|discriminate Hp].
    cbn [bind] in Hp. apply Ok_inj in Hp. subst preds.
    destruct (IHok ps eq_refl) as [hits [Hh Hsum]].
    rewrite Hh. cbn [bind]. eexists. split; [reflexivity|].
    cbn [sum_Z fold_right concat]. fold (sum_Z hits).
    now rewrite correct_predictions_app, Hsum by exact Hlen.
  - intros e Hp.
    match type of Hp with
    | bind ?c _ = _ => destruct c as [ps|e1] eqn:Hps
    end; [discriminate Hp|].
    cbn [bind] in Hp. injection Hp as <-. now rewrite (IHraise e1 eq_refl).
Qed.

End Rows.

Lemma zip_fst_snd (A B : Type) (l : list A) (l' : list B) :
  length l = length l' ->
  map fst (zip l l') = l /\ map snd (zip l l') = l'.
Proof.
  unfold zip. revert l'.
  induction l as [|a l IH]; intros [|b l'] Hlen; try discriminate Hlen;
    [now split|].
  destruct (IH l') as [H1 H2]; [now injection Hlen|].
  cbn [combine map fst snd]. now rewrite H1, H2.
Qed.

(** With as many labels as examples what [evaluate] divides is the correct
    predictions by the examples. *)
Lemma accuracy_of_batches_by_spec {lstm_params adam_state : Type}
  (lstm : lstm_params -> tensor R 3 -> result (tensor R 3))
  (argmax : list R -> Z) (me : model lstm_params adam_state)
  (X_test : tensor Z 2) (y_test : list Z) (batch_size : Z) :
  per_example lstm -> 0 < batch_size -> length X_test = length y_test ->
  accuracy_of_batches lstm argmax me X_test y_test batch_size
  = accuracy_by_spec lstm argmax me X_test y_test batch_size.
Proof.
  intros Hrows HB Hlen.
  symmetry. unfold accuracy_by_spec, accuracy_of_batches.
  destruct (zipped_batches _ _ X_test y_test batch_size HB Hlen)
    as [bx [by_ [Hbx [Hby Hitems]]]].
  destruct (zip_batches X_test y_test batch_size HB Hlen)
    as [bx' [by' [Hbx' [Hby' [_ Hsizes]]]]].
  rewrite Hbx in Hbx'. rewrite Hby in Hby'.
  apply Ok_inj in Hbx', Hby'. subst bx' by'.
  destruct (gen_batch_count _ X_test batch_size HB) as [bx' [Hbx' [Hnx _]]].
  destruct (gen_batch_count _ y_test batch_size HB) as [by' [Hby' [Hny Hcat]]].
  rewrite Hbx in Hbx'. rewrite Hby in Hby'.
  apply Ok_inj in Hbx', Hby'. subst bx' by'.
  assert (Hn : length bx = length by_).
  { apply Nat2Z.inj. rewrite Hnx, Hny.
    change (tensor Z 2) with (list (list Z)) in X_test. now rewrite Hlen. }
  destruct (zip_fst_snd _ _ bx by_ Hn) as [Hfst Hsnd].
  rewrite Hbx, Hby. cbn [bind].
  destruct (batch_hits_predictions lstm argmax Hrows me (zip bx by_))
    as [Hok Hraise].
  { eapply Forall_impl; [|exact Hitems]. now intros item [_ [H _]]. }
  destruct (mapM (predictions lstm argmax me) bx) as [preds|e] eqn:Hp;
    cbn [bind].
  - assert (Hp' : mapM (predictions lstm argmax me)
                    (map fst (zip bx by_)) = Ok preds)
      by (rewrite Hfst; exact Hp).
    destruct (Hok preds Hp') as [hits [Hh Hsum]].
    rewrite Hh. cbn [bind].
    assert (Hc : concat (map snd (zip bx by_)) = y_test)
      by (rewrite Hsnd; exact Hcat).
    assert (Hsum' : sum_Z hits = correct_predictions (concat preds) y_test)
      by (etransitivity; [exact Hsum|apply f_equal; exact Hc]).
    rewrite Hsum', Hsizes.
    change (tensor Z 2) with (list (list Z)) in X_test. now rewrite Hlen.
  - assert (Hp' : mapM (predictions lstm argmax me)
                    (map fst (zip bx by_)) = Raise e)
      by (rewrite Hfst; exact Hp).
    now rewrite (Hraise e Hp').
Qed.



Lemma small_lstm_per_example : per_example Small.lstm.
Proof.
  intros p E out H. apply Ok_inj in H. subst out. apply length_map.
Qed.


(** With fewer labels than examples the claim fails.  Three examples, one
    label and batches of two: the one zipped batch holds two examples and
    the one label, both predictions equal it and count, and [evaluate]
    prints 2 / 1, which is no fraction of the examples (one of the three is
    labelled, and predicted correctly). *)
Lemma evaluate_fewer_labels :
  evaluate Small.lstm Small.argmax Small.examples [0] 2 Small.start
  = (Ok tt, {| self := Small.net; trace := [PrintAccuracy (2 / 1)] |}) /\
  accuracy_by_spec Small.lstm Small.argmax Small.net Small.examples [0] 2
  = Ok (1 / 3)%R /\
  (1 < 2 / 1)%R.
Proof.
  split; [reflexivity|]. split; [reflexivity|]. lra.
Qed.

(** The small model prefers class 0 whatever it reads; two of the three
    labels are 0. *)
Example evaluate_small :
  evaluate Small.lstm Small.argmax Small.examples Small.labels 2 Small.start
  = (Ok tt, {| self := Small.net; trace := [PrintAccuracy (2 / 3)] |}).
Proof. reflexivity. Qed.

Example evaluate_no_examples :
  evaluate Small.lstm Small.argmax [] [] 2 Small.start
  = (Raise ZeroDivisionError, Small.start).
Proof. reflexivity. Qed.

(** ** [fit] *)

Lemma scheduled_steps_succ (T : Z) (g : nat) (start : Z) (m : nat) :
  scheduled_steps T g start (S m) =
  (start, repeat (lr_schedule start T) g) :: scheduled_steps T g (start + 1) m.
Proof.
  unfold scheduled_steps. rewrite <- cons_seq. cbn [map].
  rewrite Z.add_0_r. f_equal.
  rewrite <- seq_shift, map_map. apply map_ext. intros k.
  now replace (start + Z.of_nat (S k)) with (start + 1 + Z.of_nat k) by lia.
Qed.

Lemma scheduled_steps_app (T : Z) (g : nat) (m1 : nat) :
  forall (start : Z) (m2 : nat),
    scheduled_steps T g start (m1 + m2) =
    scheduled_steps T g start m1
    ++ scheduled_steps T g (start + Z.of_nat m1) m2.
Proof.
  induction m1 as [|m1 IH]; intros start m2.
  - cbn [Nat.add]. now rewrite Z.add_0_r.
  - cbn [Nat.add]. rewrite !scheduled_steps_succ, IH. cbn [app].
    do 3 f_equal. lia.
Qed.

Lemma lrs_after_set_lr (lr : R) (gs : list param_group) :
  map pg_lr (map (set_lr lr) gs) = repeat lr (length gs).
Proof.
  induction gs as [|g gs IH]; [reflexivity|]. cbn. now rewrite IH.
Qed.

Section Fit.

Context {lstm_params adam_state : Type}.

Variable lstm : lstm_params -> tensor R 3 -> result (tensor R 3).
Variable criterion : tensor R 2 -> list Z -> result R.
Variable argmax : list R -> Z.
Variable adam_step :
  parameters lstm_params -> optimizer_t adam_state -> tensor Z 2 -> list Z ->
  parameters lstm_params * adam_state.
Variable shuffle : Z -> tensor Z 2 -> list Z -> tensor Z 2 * list Z.

Implicit Types w : world lstm_params adam_state.

(** With no step to schedule the body of the batch loop raises before it
    writes anything. *)
Lemma fit_batch_zero_total w (n_epoch n_batch epoch global_step : Z)
  (item : Z * (tensor Z 2 * list Z)) :
  fit_batch lstm criterion argmax adam_step n_epoch n_batch 0 epoch
    global_step item w =
  (Raise (match forward_failure lstm criterion w item with
          | Some e => e
          | None => ZeroDivisionError
          end), w).
Proof.
  unfold fit_batch, forward_failure, bindM, get, lift.
  destruct (forward lstm (self w) (fst (snd item))
              (Z.of_nat (length (fst (snd item))))) as [preds|e];
    [|reflexivity].
  destruct (criterion preds (snd (snd item))); reflexivity.
Qed.

(** The body of the batch loop either raises in its first two statements and
    writes nothing, or takes one optimizer step at the scheduled rate. *)
Lemma fit_batch_step w (n_epoch n_batch T epoch global_step : Z)
  (item : Z * (tensor Z 2 * list Z)) :
  T <> 0 ->
  let out := fit_batch lstm criterion argmax adam_step n_epoch n_batch T epoch
               global_step item w in
  match fst out with
  | Raise e => snd out = w
  | Ok global_step' =>
      global_step' = global_step + 1 /\
      optimizer_steps (snd out) =
        optimizer_steps w
        ++ [(global_step, repeat (lr_schedule global_step T) (groups w))] /\
      groups (snd out) = groups w
  end.
Proof.
  intros HT. unfold fit_batch, bindM, get, lift, modify, ret.
  destruct (forward lstm (self w) (fst (snd item))
              (Z.of_nat (length (fst (snd item))))) as [preds|e];
    [|reflexivity].
  destruct (criterion preds (snd (snd item))) as [loss|e]; [|reflexivity].
  rewrite adjust_lr_value by assumption.
  cbn [fst snd].
  assert (Hsteps : forall tail,
    flat_map (fun ev => match ev with
                        | OptimizerStep s lrs => [(s, lrs)]
                        | _ => []
                        end)
      ((trace w ++ [OptimizerStep global_step
                      (map pg_lr (map (set_lr (lr_schedule global_step T))
                                      (param_groups (optimizer (self w)))))])
       ++ match tail with
          | Some ev => [PrintStep (epoch + 1) n_epoch (fst item) n_batch loss ev
                          (lr_schedule global_step T)]
          | None => []
          end)
    = optimizer_steps w
      ++ [(global_step, repeat (lr_schedule global_step T) (groups w))]).
  { intros tail. rewrite !flat_map_app, lrs_after_set_lr.
    destruct tail; cbn; now rewrite app_nil_r. }
  destruct (fst item mod 100 =? 0); cbn [fst snd].
  - split; [reflexivity|]. split; [|unfold groups; cbn; now rewrite length_map].
    unfold optimizer_steps, emit, optimizer_step, set_optimizer.
    cbn [trace self optimizer param_groups].
    exact (Hsteps (Some _)).
  - split; [reflexivity|]. split; [|unfold groups; cbn; now rewrite length_map].
    unfold optimizer_steps, optimizer_step, set_optimizer.
    cbn [trace self optimizer param_groups].
    rewrite <- (app_nil_r (_ ++ [OptimizerStep _ _])).
    exact (Hsteps None).
Qed.

(** The batch loop takes consecutive steps at the scheduled rates, as many
    as there are batches unless a forward pass or the loss raises. *)
Lemma fit_batches_run (n_epoch n_batch T epoch : Z) :
  T <> 0 ->
  forall (items : list (Z * (tensor Z 2 * list Z))) (global_step : Z) w,
    let out := for_loop (fit_batch lstm criterion argmax adam_step
                           n_epoch n_batch T epoch) items global_step w in
    exists m : nat,
      (m <= length items)%nat /\
      optimizer_steps (snd out) =
        optimizer_steps w ++ scheduled_steps T (groups w) global_step m /\
      groups (snd out) = groups w /\
      match fst out with
      | Ok global_step' =>
          m = length items /\ global_step' = global_step + Z.of_nat m
      | Raise _ => True
      end.
Proof.
  intros HT. induction items as [|item items IH]; intros global_step w.
  - exists 0%nat. cbn. rewrite app_nil_r. repeat split; lia.
  - rewrite for_loop_cons.
    pose proof (fit_batch_step w n_epoch n_batch T epoch global_step item HT)
      as Hstep.
    cbv zeta in Hstep.
    destruct (fit_batch lstm criterion argmax adam_step n_epoch n_batch T
                epoch global_step item w) as [[gs1|e] w1];
      cbn [fst snd] in Hstep.
    + destruct Hstep as [-> [Hs1 Hg1]].
      destruct (IH (global_step + 1) w1) as [m [Hm [Hs [Hg Hr]]]].
      exists (S m). cbn [length]. split; [lia|]. split; [|split].
      * rewrite Hs, Hs1, Hg1, scheduled_steps_succ, <- app_assoc. reflexivity.
      * now rewrite Hg.
      * destruct (fst (for_loop _ items (global_step + 1) w1)); [|exact I].
        destruct Hr as [-> ->]. split; lia.
    + subst w1. exists 0%nat. cbn. rewrite app_nil_r. repeat split; lia.
Qed.

Lemma enumerate_length (A : Type) (l : list A) :
  length (enumerate l) = length l.
Proof.
  unfold enumerate. rewrite length_combine, length_map, length_seq. lia.
Qed.

Section Epochs.

Variables (n_epoch batch_size : Z) (en_shuffle : bool) (n_batch T : Z).
Variable N : nat.

Hypothesis HT : T <> 0.
Hypothesis HB : 0 < batch_size.
Hypothesis Hshuffle : keeps_lengths shuffle.

Let K : Z := ceil_div (Z.of_nat N) batch_size.

Lemma fit_epoch_run (global_step : Z) (X : tensor Z 2) (y : list Z)
  (epoch : Z) w :
  length X = N -> length y = N ->
  let out := fit_epoch lstm criterion argmax adam_step shuffle n_epoch
               batch_size en_shuffle n_batch T (global_step, (X, y)) epoch w in
  exists m : nat,
    Z.of_nat m <= K /\
    optimizer_steps (snd out) =
      optimizer_steps w ++ scheduled_steps T (groups w) global_step m /\
    groups (snd out) = groups w /\
    match fst out with
    | Ok locals =>
        Z.of_nat m = K /\ fst locals = global_step + K /\
        length (fst (snd locals)) = N /\ length (snd (snd locals)) = N
    | Raise _ => True
    end.
Proof.
  intros HX Hy. unfold fit_epoch. cbn [fst snd].
  set (Xy := if en_shuffle then shuffle epoch X y else (X, y)).
  assert (HXy : length (fst Xy) = N /\ length (snd Xy) = N).
  { subst Xy. destruct en_shuffle; [|now split].
    destruct (Hshuffle epoch X y) as [H1 H2]. split; congruence. }
  destruct HXy as [HX' Hy'].
  assert (Hsh : (if en_shuffle then shuffled shuffle epoch X y
                 else Ok (X, y)) = Ok Xy).
  { subst Xy. destruct en_shuffle; [|reflexivity]. unfold shuffled.
    now rewrite HX, Hy, Nat.eqb_refl. }
  destruct (zip_batches (fst Xy) (snd Xy) batch_size HB ltac:(congruence))
    as [bx [by_ [Hbx [Hby [Hcount _]]]]].
  rewrite Hy' in Hcount. fold K in Hcount.
  rewrite bindM_lift, Hsh, bindM_lift, Hbx, bindM_lift, Hby. unfold bindM.
  destruct (fit_batches_run n_epoch n_batch T epoch HT
              (enumerate (zip bx by_)) global_step w)
    as [m [Hm [Hs [Hg Hr]]]].
  rewrite enumerate_length in Hm, Hr.
  exists m. split; [lia|].
  destruct (for_loop (fit_batch lstm criterion argmax adam_step n_epoch
                        n_batch T epoch)
              (enumerate (zip bx by_)) global_step w) as [[gs'|e] w'];
    cbn [fst snd] in *.
  - unfold ret. cbn [fst snd]. destruct Hr as [-> ->].
    repeat split; try assumption; lia.
  - repeat split; assumption.
Qed.

Lemma K_nonneg : 0 <= K.
Proof.
  unfold K. rewrite ceil_div_up by assumption. apply Z.div_pos; lia.
Qed.

Lemma fit_epochs_run :
  forall (epochs : list Z) (global_step : Z) (X : tensor Z 2) (y : list Z) w,
    length X = N -> length y = N ->
    let out := for_loop (fit_epoch lstm criterion argmax adam_step shuffle
                           n_epoch batch_size en_shuffle n_batch T)
                 epochs (global_step, (X, y)) w in
    exists m : nat,
      Z.of_nat m <= Z.of_nat (length epochs) * K /\
      optimizer_steps (snd out) =
        optimizer_steps w ++ scheduled_steps T (groups w) global_step m /\
      groups (snd out) = groups w /\
      match fst out with
      | Ok locals =>
          Z.of_nat m = Z.of_nat (length epochs) * K /\
          fst locals = global_step + Z.of_nat (length epochs) * K
      | Raise _ => True
      end.
Proof.
  pose proof K_nonneg as HK.
  induction epochs as [|epoch epochs IH]; intros global_step X y w HX Hy.
  - exists 0%nat. cbn. rewrite app_nil_r. repeat split; lia.
  - rewrite for_loop_cons.
    destruct (fit_epoch_run global_step X y epoch w HX Hy)
      as [m1 [Hm1 [Hs1 [Hg1 Hr1]]]].
    destruct (fit_epoch lstm criterion argmax adam_step shuffle n_epoch
                batch_size en_shuffle n_batch T (global_step, (X, y)) epoch w)
      as [[[gs1 [X1 y1]]|e] w1]; cbn [fst snd] in *.
    + destruct Hr1 as [HmK [-> [HX1 Hy1]]].
      destruct (IH (global_step + K) X1 y1 w1 HX1 Hy1)
        as [m2 [Hm2 [Hs2 [Hg2 Hr2]]]].
      exists (m1 + m2)%nat. split; [cbn [length]; lia|]. split; [|split].
      * rewrite Hs2, Hs1, Hg1, scheduled_steps_app, <- app_assoc.
        now rewrite HmK.
      * now rewrite Hg2.
      * destruct (fst (for_loop _ epochs (global_step + K, (X1, y1)) w1));
          [|exact I].
        destruct Hr2 as [Hm2K ->]. cbn [length]. split; lia.
    + exists m1. split; [cbn [length]; nia|]. repeat split; assumption.
Qed.

End Epochs.

Lemma fit_of_loop w (X : tensor Z 2) (y : list Z) (n_epoch batch_size : Z)
  (en_shuffle : bool) :
  fit lstm criterion argmax adam_step shuffle X y n_epoch batch_size
    en_shuffle w =
  (match fst (fit_loop lstm criterion argmax adam_step shuffle X y n_epoch
                batch_size en_shuffle w) with
   | Ok _ => Ok tt
   | Raise e => Raise e
   end,
   snd (fit_loop lstm criterion argmax adam_step shuffle X y n_epoch
          batch_size en_shuffle w)).
Proof.
  unfold fit, bindM, ret.
  destruct (fit_loop lstm criterion argmax adam_step shuffle X y n_epoch
              batch_size en_shuffle w) as [[locals|e] w']; reflexivity.
Qed.

Lemma epochs_range (n_epoch : Z) :
  0 <= n_epoch ->
  exists epochs, range 0 n_epoch 1 = Ok epochs /\
                 length epochs = Z.to_nat n_epoch /\
                 (1 <= n_epoch -> exists rest, epochs = 0 :: rest).
Proof.
  intros Hn. eexists. split; [apply range_up; lia|].
  replace ((n_epoch - 0 + 1 - 1) / 1) with n_epoch by (rewrite Z.div_1_r; lia).
  split; [now rewrite length_map, length_seq|].
  intros H1. destruct (Z.to_nat n_epoch) as [|k] eqn:E; [lia|].
  rewrite <- cons_seq. cbn [map]. eexists. reflexivity.
Qed.

(** One more batch than [int(len(X) / batch_size)] when the batch size does
    not divide the number of examples. *)
Lemma ceil_div_floor_succ (N B : Z) :
  0 < B -> N mod B <> 0 -> ceil_div N B = N / B + 1.
Proof.
  intros HB Hmod. rewrite ceil_div_up by assumption.
  pose proof (Z.div_mod N B ltac:(lia)) as Hdm.
  pose proof (Z.mod_pos_bound N B HB) as Hr.
  symmetry.
  apply (Z.div_unique_pos (N + B - 1) B (N / B + 1) (N mod B - 1)); lia.
Qed.

(** The optimizer steps of a call of [fit] whose batch size is smaller than
    the number of examples and does not divide it. *)
Lemma fit_loop_steps w (X : tensor Z 2) (y : list Z)
  (n_epoch batch_size : Z) (en_shuffle : bool) :
  1 <= n_epoch -> 0 < batch_size -> length y = length X -> keeps_lengths shuffle ->
  batch_size < Z.of_nat (length X) ->
  Z.of_nat (length X) mod batch_size <> 0 ->
  let N := Z.of_nat (length X) in
  let total_steps := n_epoch * (N / batch_size) in
  let K := ceil_div N batch_size in
  let out := fit_loop lstm criterion argmax adam_step shuffle X y n_epoch
               batch_size en_shuffle w in
  exists m : nat,
    Z.of_nat m <= n_epoch * K /\
    optimizer_steps (snd out) =
      optimizer_steps w ++ scheduled_steps total_steps (groups w) 0 m /\
    forall locals, fst out = Ok locals ->
      Z.of_nat m = n_epoch * K /\
      fst locals = n_epoch * K /\
      total_steps < fst locals.
Proof.
  intros Hep HB Hy Hshuffle Hlt Hmod N total_steps K out.
  assert (Hnb : 1 <= N / batch_size)
    by (apply Z.div_le_lower_bound; lia).
  assert (HT : 0 < total_steps) by (subst total_steps; nia).
  assert (HK : K = N / batch_size + 1) by (now apply ceil_div_floor_succ).
  assert (Hq : int_quotient N batch_size = Ok (N / batch_size)).
  { unfold int_quotient. destruct (Z.eqb_spec batch_size 0); [lia|].
    f_equal. apply Z.quot_div_nonneg; lia. }
  destruct (epochs_range n_epoch ltac:(lia)) as [epochs [Hr [Hlen _]]].
  subst out. unfold fit_loop.
  fold N. rewrite bindM_lift, Hq, bindM_lift, Hr.
  fold total_steps.
  destruct (fit_epochs_run n_epoch batch_size en_shuffle (N / batch_size)
              total_steps (length X) ltac:(lia) HB Hshuffle epochs 0 X y w
              eq_refl Hy) as [m [Hm [Hs [_ Hres]]]].
  fold N in Hm, Hres. fold K in Hm, Hres.
  rewrite Hlen, Z2Nat.id in Hm, Hres by lia.
  exists m. split; [exact Hm|]. split; [exact Hs|].
  intros locals Hloc. rewrite Hloc in Hres.
  destruct Hres as [HmK Hgs]. split; [exact HmK|].
  rewrite Hgs. split; [lia|]. subst total_steps. nia.
Qed.

Lemma gen_batch_single (A : Type) (arr : list A) (B : Z) :
  0 < Z.of_nat (length arr) < B -> gen_batch arr B = Ok [arr].
Proof.
  intros HN. rewrite gen_batch_chunks by lia.
  replace ((Z.of_nat (length arr) + B - 1) / B) with 1
    by (apply (Z.div_unique_pos _ B 1 (Z.of_nat (length arr) - 1)); lia).
  change (Z.to_nat 1) with 1%nat.
  unfold chunks. cbn [seq map Nat.mul skipn].
  rewrite firstn_all2 by lia. reflexivity.
Qed.

(** With fewer examples than [batch_size] (at least one, at least one
    epoch, as many labels as examples), [n_batch] and [total_steps] are 0 and
    the batch generators still yield one batch each; [fit] raises in the
    first pass of the loop and leaves the world as it was. *)
Lemma fit_first_batch_aborts w (X : tensor Z 2) (y : list Z)
  (n_epoch batch_size : Z) (en_shuffle : bool) :
  1 <= n_epoch -> 0 < Z.of_nat (length X) < batch_size ->
  length y = length X -> keeps_lengths shuffle ->
  let Xy := if en_shuffle then shuffle 0 X y else (X, y) in
  int_quotient (Z.of_nat (length X)) batch_size = Ok 0 /\
  n_epoch * 0 = 0 /\
  gen_batch (fst Xy) batch_size = Ok [fst Xy] /\
  gen_batch (snd Xy) batch_size = Ok [snd Xy] /\
  fit lstm criterion argmax adam_step shuffle X y n_epoch batch_size
    en_shuffle w
  = (Raise (match forward_failure lstm criterion w (0, Xy) with
            | Some e => e
            | None => ZeroDivisionError
            end), w).
Proof.
  intros Hep HN Hy Hshuffle Xy.
  assert (HXy : length (fst Xy) = length X /\ length (snd Xy) = length X).
  { subst Xy. destruct en_shuffle; [|now split].
    destruct (Hshuffle 0 X y) as [H1 H2]. split; congruence. }
  destruct HXy as [HX' Hy'].
  assert (Hq : int_quotient (Z.of_nat (length X)) batch_size = Ok 0).
  { unfold int_quotient. destruct (Z.eqb_spec batch_size 0); [lia|].
    f_equal. rewrite Z.quot_div_nonneg by lia. apply Z.div_small. lia. }
  assert (Hbx : gen_batch (fst Xy) batch_size = Ok [fst Xy])
    by (apply gen_batch_single; rewrite HX'; lia).
  assert (Hby : gen_batch (snd Xy) batch_size = Ok [snd Xy])
    by (apply gen_batch_single; rewrite Hy'; lia).
  assert (Hfit :
    fit lstm criterion argmax adam_step shuffle X y n_epoch batch_size
      en_shuffle w
    = (Raise (match forward_failure lstm criterion w (0, Xy) with
              | Some e => e
              | None => ZeroDivisionError
              end), w)).
  { destruct (epochs_range n_epoch ltac:(lia)) as [epochs [Hr [_ Hhd]]].
    destruct (Hhd Hep) as [rest ->].
    assert (Hloop :
      fit_loop lstm criterion argmax adam_step shuffle X y n_epoch batch_size
        en_shuffle w
      = (Raise (match forward_failure lstm criterion w (0, Xy) with
                | Some e => e
                | None => ZeroDivisionError
                end), w)).
    { unfold fit_loop.
      rewrite bindM_lift, Hq, bindM_lift, Hr, Z.mul_0_r, for_loop_cons.
      assert (Hsh : (if en_shuffle then shuffled shuffle 0 X y
                     else Ok (X, y)) = Ok Xy).
      { subst Xy. destruct en_shuffle; [|reflexivity]. unfold shuffled.
        now rewrite Hy, Nat.eqb_refl. }
      unfold fit_epoch at 1. cbn [fst snd].
      rewrite bindM_lift, Hsh, bindM_lift, Hbx, bindM_lift, Hby.
      unfold bindM at 1.
      change (enumerate (zip [fst Xy] [snd Xy])) with [(0, (fst Xy, snd Xy))].
      rewrite for_loop_cons, fit_batch_zero_total.
      now rewrite <- surjective_pairing. }
    rewrite fit_of_loop, Hloop. reflexivity. }
  split; [exact Hq|]. split; [lia|].
  split; [exact Hbx|]. split; [exact Hby|]. exact Hfit.
Qed.

End Fit.

Lemma optimizer_steps_In {lstm_params adam_state : Type}
  (w : world lstm_params adam_state) (s : Z) (lrs : list R) :
  In (s, lrs) (optimizer_steps w) -> In (OptimizerStep s lrs) (trace w).
Proof.
  unfold optimizer_steps. intros H. apply in_flat_map in H.
  destruct H as [ev [Hev Hin]].
  destruct ev; cbn in Hin; try contradiction.
  destruct Hin as [E|[]]. injection E as <- <-. exact Hev.
Qed.

Lemma small_shuffle_keeps_lengths : keeps_lengths Small.shuffle.
Proof. intros k X y. split; reflexivity. Qed.

Example fit_small_aborts_without_shuffle :
  fit Small.lstm Small.criterion Small.argmax Small.adam_step Small.shuffle
    Small.tokens [0] 10 32 false Small.start
  = (Raise ZeroDivisionError, Small.start).
Proof. reflexivity. Qed.


(* ================================================================== *)
(** * Part IV: further properties of the methods *)
(* ================================================================== *)

(** ** [gen_batch]: batches of pairs *)

Lemma skipn_combine (A B : Type) (n : nat) :
  forall (l : list A) (l' : list B),
    skipn n (combine l l') = combine (skipn n l) (skipn n l').
Proof.
  induction n as [|n IH]; intros l l'; [reflexivity|].
  destruct l as [|a l]; [reflexivity|].
  destruct l' as [|b l']; cbn [skipn combine].
  - now destruct (skipn n l).
  - apply IH.
Qed.

Lemma chunks_combine (A B : Type) (rows k : nat) (X : list A) (y : list B) :
  chunks rows k (combine X y) =
  map (fun p => combine (fst p) (snd p))
      (combine (chunks rows k X) (chunks rows k y)).
Proof.
  unfold chunks. generalize (seq 0 rows) as rs.
  induction rs as [|r rs IH]; [reflexivity|].
  cbn [map combine fst snd]. rewrite IH.
  now rewrite skipn_combine, combine_firstn.
Qed.

(** X1. Batching examples and labels side by side keeps every example with its
    label: the batches of the pairs are the pairs of the batches [fit] and
    [evaluate] zip. *)
Theorem gen_batch_keeps_pairs (A B : Type) (X : list A) (y : list B)
  (batch_size : Z) :
  0 < batch_size -> length X = length y ->
  exists X_batches y_batches,
    gen_batch X batch_size = Ok X_batches /\
    gen_batch y batch_size = Ok y_batches /\
    length X_batches = length y_batches /\
    gen_batch (combine X y) batch_size =
      Ok (map (fun p => combine (fst p) (snd p)) (zip X_batches y_batches)) /\
    concat (map (fun p => combine (fst p) (snd p)) (zip X_batches y_batches))
      = combine X y.
Proof.
  intros HB Hlen.
  assert (Hc : length (combine X y) = length X)
    by (rewrite length_combine; lia).
  do 2 eexists.
  split; [now apply gen_batch_chunks|].
  split; [now apply gen_batch_chunks|].
  rewrite <- Hlen. split; [now rewrite !chunks_length|].
  assert (Hpairs : gen_batch (combine X y) batch_size =
            Ok (map (fun p => combine (fst p) (snd p))
                  (zip (chunks (Z.to_nat ((Z.of_nat (length X) + batch_size - 1)
                                         / batch_size))
                          (Z.to_nat batch_size) X)
                       (chunks (Z.to_nat ((Z.of_nat (length X) + batch_size - 1)
                                         / batch_size))
                          (Z.to_nat batch_size) y)))).
  { rewrite gen_batch_chunks by assumption.
    rewrite Hc. unfold zip. now rewrite chunks_combine. }
  split; [exact Hpairs|].
  destruct (gen_batch_count _ (combine X y) batch_size HB)
    as [bs [Hbs [_ Hcat]]].
  rewrite Hpairs in Hbs. apply Ok_inj in Hbs. now rewrite Hbs.
Qed.

Lemma gen_batch_keeps_pairs_witness :
  0 < 2 /\ length [10; 20; 30] = length [1; 0; 1] /\
  exists X_batches y_batches,
    gen_batch [10; 20; 30] 2 = Ok X_batches /\
    gen_batch [1; 0; 1] 2 = Ok y_batches /\
    length X_batches = length y_batches /\
    gen_batch (combine [10; 20; 30] [1; 0; 1]) 2 =
      Ok (map (fun p => combine (fst p) (snd p)) (zip X_batches y_batches)) /\
    concat (map (fun p => combine (fst p) (snd p)) (zip X_batches y_batches))
      = combine [10; 20; 30] [1; 0; 1].
Proof.
  split; [lia|]. split; [reflexivity|].
  apply (@gen_batch_keeps_pairs Z Z [10; 20; 30] [1; 0; 1] 2);
    [lia|reflexivity].
Defined.

(** ** [reverse]: the elements, and the axis index *)

Lemma flat_map_pointwise_perm (A B : Type) (f g : A -> list B) (l : list A) :
  (forall x, In x l -> Permutation (f x) (g x)) ->
  Permutation (flat_map f l) (flat_map g l).
Proof.
  induction l as [|a l IH]; intros H; [constructor|].
  cbn [flat_map]. apply Permutation_app.
  - apply H. now left.
  - apply IH. intros x Hx. apply H. now right.
Qed.

Lemma rev_axis_flatten (A : Type) :
  forall (n d : nat) (X : tensor A n),
    Permutation (flatten n (rev_axis n d X)) (flatten n X).
Proof.
  induction n as [|m IH]; intros d X; [reflexivity|].
  change (tensor A (S m)) with (list (tensor A m)) in X.
  destruct d as [|d']; cbn [rev_axis flatten].
  - apply Permutation_flat_map. symmetry. apply Permutation_rev.
  - rewrite flat_map_concat_map, map_map, <- flat_map_concat_map.
    apply flat_map_pointwise_perm. intros x _. apply IH.
Qed.

(** X2. [reverse] only moves elements: the result holds the elements of the
    input, each as often as the input does. *)
Theorem reverse_permutes (A : Type) (n : nat) (s : list nat)
  (X : tensor A n) (dim : Z) :
  has_shape n s X -> - Z.of_nat n <= dim < Z.of_nat n ->
  exists Y : tensor A n,
    reverse n X dim = Ok Y /\
    Permutation (flatten n Y) (flatten n X).
Proof.
  intros HX Hdim. eexists. split; [now apply (reverse_closed A n s)|].
  apply rev_axis_flatten.
Qed.

Lemma reverse_permutes_witness :
  has_shape 2 [2; 3]%nat ([[1; 2; 3]; [4; 5; 6]] : tensor Z 2) /\
  - Z.of_nat 2 <= 1 < Z.of_nat 2 /\
  exists Y : tensor Z 2,
    reverse 2 ([[1; 2; 3]; [4; 5; 6]] : tensor Z 2) 1 = Ok Y /\
    Permutation (flatten 2 Y) [1; 2; 3; 4; 5; 6].
Proof.
  assert (H : has_shape 2 [2; 3]%nat ([[1; 2; 3]; [4; 5; 6]] : tensor Z 2)).
  { simpl. split; [reflexivity|]. repeat constructor. }
  split; [exact H|]. split; [simpl; lia|].
  apply (@reverse_permutes Z 2 [2; 3]%nat [[1; 2; 3]; [4; 5; 6]] 1 H).
  simpl. lia.
Defined.

(** X3. The axis of [reverse]: an index outside [-n .. n-1] raises [IndexError];
    inside, [reverse] succeeds and the negative index [dim - n] names the
    same axis as [dim]. *)
Theorem reverse_axis_index (A : Type) (n : nat) (s : list nat)
  (X : tensor A n) (dim : Z) :
  has_shape n s X ->
  (0 <= dim < Z.of_nat n ->
   exists Y, reverse n X dim = Ok Y /\ reverse n X (dim - Z.of_nat n) = Ok Y)
  /\
  (dim < - Z.of_nat n \/ Z.of_nat n <= dim ->
   reverse n X dim = Raise IndexError).
Proof.
  intros HX. split.
  - intros Hdim.
    rewrite (reverse_closed A n s X dim HX) by lia.
    rewrite (reverse_closed A n s X (dim - Z.of_nat n) HX) by lia.
    destruct (Z.ltb_spec dim 0); [lia|].
    destruct (Z.ltb_spec (dim - Z.of_nat n) 0); [|lia].
    replace (dim - Z.of_nat n + Z.of_nat n) with dim by lia.
    eexists. split; reflexivity.
  - intros Hdim. unfold reverse, wrap_dim.
    destruct (Z.leb_spec (- Z.of_nat n) dim);
      destruct (Z.ltb_spec dim (Z.of_nat n)); try reflexivity; lia.
Qed.

Lemma reverse_axis_index_witness :
  has_shape 2 [2; 3]%nat ([[1; 2; 3]; [4; 5; 6]] : tensor Z 2) /\
  (exists Y, reverse 2 ([[1; 2; 3]; [4; 5; 6]] : tensor Z 2) 1 = Ok Y /\
             reverse 2 ([[1; 2; 3]; [4; 5; 6]] : tensor Z 2) (1 - Z.of_nat 2)
             = Ok Y) /\
  reverse 2 ([[1; 2; 3]; [4; 5; 6]] : tensor Z 2) (-3) = Raise IndexError.
Proof.
  assert (H : has_shape 2 [2; 3]%nat ([[1; 2; 3]; [4; 5; 6]] : tensor Z 2)).
  { simpl. split; [reflexivity|]. repeat constructor. }
  split; [exact H|].
  split.
  - apply (proj1 (@reverse_axis_index Z 2 [2; 3]%nat
                    [[1; 2; 3]; [4; 5; 6]] 1 H)). simpl. lia.
  - apply (proj2 (@reverse_axis_index Z 2 [2; 3]%nat
                    [[1; 2; 3]; [4; 5; 6]] (-3) H)). simpl. lia.
Defined.

(** ** [adjust_lr]: the shape of the decay *)



(** ** [gen_batch]: batch sizes that yield nothing *)

Lemma gen_batch_negative (A : Type) (arr : list A) (B : Z) :
  B < 0 -> gen_batch arr B = Ok [].
Proof.
  intros HB. unfold gen_batch, range.
  destruct (Z.eqb_spec B 0); [lia|].
  cbn [bind]. now rewrite range_loop_wrong_way by lia.
Qed.

Lemma gen_batch_nil (A : Type) (B : Z) :
  B <> 0 -> gen_batch ([] : list A) B = Ok [].
Proof.
  intros HB. unfold gen_batch, range.
  destruct (Z.eqb_spec B 0); [contradiction|]. reflexivity.
Qed.

Lemma gen_batch_ok (A : Type) (arr : list A) (B : Z) :
  B <> 0 -> exists batches, gen_batch arr B = Ok batches.
Proof.
  intros HB. unfold gen_batch, range.
  destruct (Z.eqb_spec B 0); [contradiction|]. cbn [bind]. eauto.
Qed.

(** ** [evaluate]: nothing to evaluate, and the range of the accuracy *)

(** X5. [evaluate] raises, and prints nothing, when it has nothing to count: the
    [ValueError] of [range] for a batch size of zero, and otherwise the
    [ZeroDivisionError] of its last line when there is no example, no label,
    or the batch size is negative. *)
Theorem evaluate_nothing_to_count {lstm_params adam_state : Type}
  (lstm : lstm_params -> tensor R 3 -> result (tensor R 3))
  (argmax : list R -> Z) (w : world lstm_params adam_state)
  (X_test : tensor Z 2) (y_test : list Z) (batch_size : Z) :
  X_test = [] \/ y_test = [] \/ batch_size <= 0 ->
  evaluate lstm argmax X_test y_test batch_size w =
  (Raise (if batch_size =? 0 then ValueError else ZeroDivisionError), w).
Proof.
  intros Hcase. rewrite evaluate_run. unfold accuracy_of_batches.
  destruct (Z.eqb_spec batch_size 0) as [->|HB]; [reflexivity|].
  assert (Hzip : exists bx by_,
            gen_batch X_test batch_size = Ok bx /\
            gen_batch y_test batch_size = Ok by_ /\
            zip bx by_ = []).
  { destruct (gen_batch_ok _ X_test batch_size HB) as [bx Hbx].
    destruct (gen_batch_ok _ y_test batch_size HB) as [by_ Hby].
    destruct Hcase as [->|[->|Hneg]].
    - rewrite gen_batch_nil in Hbx by assumption. apply Ok_inj in Hbx.
      subst bx. exists [], by_. repeat split; [now apply gen_batch_nil|exact Hby].
    - rewrite gen_batch_nil in Hby by assumption. apply Ok_inj in Hby.
      subst by_. exists bx, []. repeat split;
        [exact Hbx|now apply gen_batch_nil|apply combine_nil].
    - exists [], []. repeat split; apply gen_batch_negative; lia. }
  destruct Hzip as [bx [by_ [Hbx [Hby Hz]]]].
  rewrite Hbx, Hby. cbn [bind]. rewrite Hz. reflexivity.
Qed.

Lemma evaluate_nothing_to_count_witness :
  (([] : tensor Z 2) = [] \/ Small.labels = [] \/ 2 <= 0) /\
  evaluate Small.lstm Small.argmax [] Small.labels 2 Small.start =
  (Raise (if 2 =? 0 then ValueError else ZeroDivisionError), Small.start).
Proof.
  split; [now left|].
  apply (evaluate_nothing_to_count Small.lstm Small.argmax Small.start
           [] Small.labels 2). now left.
Defined.



(** ** [fit]: degenerate arguments *)

Lemma range_empty (start stop step : Z) :
  0 < step -> stop <= start -> range start stop step = Ok [].
Proof.
  intros Hstep Hle. unfold range.
  destruct (Z.eqb_spec step 0); [lia|]. f_equal.
  destruct (Z.to_nat (Z.abs (stop - start))); cbn [range_loop]; [reflexivity|].
  destruct (Z.ltb_spec 0 step); [|lia].
  destruct (Z.ltb_spec start stop); [lia|reflexivity].
Qed.

Section FitMore.

Context {lstm_params adam_state : Type}.

Variable lstm : lstm_params -> tensor R 3 -> result (tensor R 3).
Variable criterion : tensor R 2 -> list Z -> result R.
Variable argmax : list R -> Z.
Variable adam_step :
  parameters lstm_params -> optimizer_t adam_state -> tensor Z 2 -> list Z ->
  parameters lstm_params * adam_state.
Variable shuffle : Z -> tensor Z 2 -> list Z -> tensor Z 2 * list Z.

Implicit Types w : world lstm_params adam_state.

(** With a negative batch size every epoch has no batch. *)
Lemma fit_epochs_without_batches (n_epoch batch_size : Z) (en_shuffle : bool)
  (n_batch T : Z) :
  batch_size < 0 -> keeps_lengths shuffle ->
  forall (epochs : list Z) (locals : Z * (tensor Z 2 * list Z)) w,
    en_shuffle = false \/
    length (fst (snd locals)) = length (snd (snd locals)) ->
    exists Xy,
      for_loop (fit_epoch lstm criterion argmax adam_step shuffle n_epoch
                  batch_size en_shuffle n_batch T) epochs locals w
      = (Ok (fst locals, Xy), w).
Proof.
  intros HB Hshuffle.
  induction epochs as [|epoch epochs IH]; intros locals w Hlen.
  - exists (snd locals). cbn. unfold ret. now rewrite <- surjective_pairing.
  - rewrite for_loop_cons. unfold fit_epoch at 1.
    set (Xy := if en_shuffle
               then shuffle epoch (fst (snd locals)) (snd (snd locals))
               else snd locals).
    assert (Hsh : (if en_shuffle
                   then shuffled shuffle epoch (fst (snd locals))
                          (snd (snd locals))
                   else Ok (snd locals)) = Ok Xy).
    { subst Xy. destruct en_shuffle; [|reflexivity].
      destruct Hlen as [|Hlen]; [discriminate|].
      unfold shuffled. now rewrite Hlen, Nat.eqb_refl. }
    assert (Hlen' : en_shuffle = false \/
                    length (fst Xy) = length (snd Xy)).
    { subst Xy. destruct en_shuffle; [|now left].
      destruct Hlen as [|Hlen]; [discriminate|]. right.
      destruct (Hshuffle epoch (fst (snd locals)) (snd (snd locals)))
        as [H1 H2]. congruence. }
    rewrite bindM_lift, Hsh.
    rewrite bindM_lift, gen_batch_negative by assumption.
    rewrite bindM_lift, gen_batch_negative by assumption.
    unfold bindM, ret. cbn [zip combine enumerate length seq map for_loop].
    unfold ret.
    destruct (IH (fst locals, Xy) w Hlen') as [Xy' HXy].
    exists Xy'. exact HXy.
Qed.


(** ** [fit]: a batch size that divides the number of examples *)

Lemma ceil_div_exact (N B : Z) : 0 < B -> N mod B = 0 -> ceil_div N B = N / B.
Proof.
  intros HB Hmod. rewrite ceil_div_up by assumption.
  pose proof (Z.div_mod N B ltac:(lia)) as Hdm.
  symmetry. apply (Z.div_unique_pos (N + B - 1) B (N / B) (B - 1)); lia.
Qed.

(** X8. When [batch_size] divides [len(X)] (at least one example, at least one
    epoch, as many labels as examples), [total_steps] counts the optimizer
    steps exactly: the steps taken are consecutive from 0 on, a call that
    returns has taken [total_steps] of them, and each is taken at a rate above
    [min_lr] and at most [max_lr]. *)
Theorem fit_follows_schedule w (X : tensor Z 2) (y : list Z)
  (n_epoch batch_size : Z) (en_shuffle : bool) :
  1 <= n_epoch -> 0 < batch_size -> length y = length X ->
  keeps_lengths shuffle ->
  0 < Z.of_nat (length X) ->
  Z.of_nat (length X) mod batch_size = 0 ->
  let total_steps := n_epoch * (Z.of_nat (length X) / batch_size) in
  let out := fit_loop lstm criterion argmax adam_step shuffle X y n_epoch
               batch_size en_shuffle w in
  0 < total_steps /\
  exists m : nat,
    Z.of_nat m <= total_steps /\
    optimizer_steps (snd out) =
      optimizer_steps w ++ scheduled_steps total_steps (groups w) 0 m /\
    (forall locals, fst out = Ok locals ->
       Z.of_nat m = total_steps /\ fst locals = total_steps) /\
    (forall k, (k < m)%nat ->
       (min_lr < lr_schedule (Z.of_nat k) total_steps <= max_lr)%R).
Proof.
  intros Hep HB Hy Hshuffle HN Hmod total_steps out.
  set (N := Z.of_nat (length X)) in *.
  pose proof (Z.div_mod N batch_size ltac:(lia)) as Hdm.
  assert (Hnb : 1 <= N / batch_size) by nia.
  assert (HT : 0 < total_steps) by (subst total_steps; nia).
  assert (HK : ceil_div N batch_size = N / batch_size)
    by (now apply ceil_div_exact).
  assert (Hq : int_quotient N batch_size = Ok (N / batch_size)).
  { unfold int_quotient. destruct (Z.eqb_spec batch_size 0); [lia|].
    f_equal. apply Z.quot_div_nonneg; lia. }
  split; [exact HT|].
  destruct (epochs_range n_epoch ltac:(lia)) as [epochs [Hr [Hlen _]]].
  subst out. unfold fit_loop. fold N.
  rewrite bindM_lift, Hq, bindM_lift, Hr. fold total_steps.
  destruct (fit_epochs_run lstm criterion argmax adam_step shuffle n_epoch
              batch_size en_shuffle (N / batch_size) total_steps (length X)
              ltac:(lia) HB Hshuffle epochs 0 X y w eq_refl Hy)
    as [m [Hm [Hs [_ Hres]]]].
  fold N in Hm, Hres. rewrite HK, Hlen, Z2Nat.id in Hm, Hres by lia.
  fold total_steps in Hm, Hres.
  exists m. split; [exact Hm|]. split; [exact Hs|]. split.
  - intros locals Hloc. rewrite Hloc in Hres. destruct Hres as [HmT Hgs].
    split; [exact HmT|]. rewrite Hgs. lia.
  - intros k Hk. split.
    + rewrite <- (@lr_schedule_end total_steps) by lia.
      apply lr_schedule_decreasing; lia.
    + destruct k as [|k].
      * rewrite lr_schedule_start. lra.
      * left. rewrite <- (lr_schedule_start total_steps).
        apply lr_schedule_decreasing; lia.
Qed.

(** ** [fit]: what it leaves alone *)

Lemma training_frame_refl w : training_frame w w.
Proof.
  split; [reflexivity|]. split; [reflexivity|].
  exists []. now rewrite app_nil_r.
Qed.

Lemma training_frame_trans w1 w2 w3 :
  training_frame w1 w2 -> training_frame w2 w3 -> training_frame w1 w3.
Proof.
  intros [H1 [G1 [e1 T1]]] [H2 [G2 [e2 T2]]].
  split; [congruence|]. split; [congruence|].
  exists (e1 ++ e2). rewrite T2, T1. now rewrite app_assoc.
Qed.

Lemma for_loop_frame (A S : Type)
  (body : S -> A -> M (world lstm_params adam_state) S) :
  (forall s a w, training_frame w (snd (body s a w))) ->
  forall (l : list A) (s : S) w,
    training_frame w (snd (for_loop body l s w)).
Proof.
  intros Hbody. induction l as [|a l IH]; intros s w.
  - apply training_frame_refl.
  - rewrite for_loop_cons. specialize (Hbody s a w).
    destruct (body s a w) as [[s'|e] w1]; cbn [snd] in *; [|exact Hbody].
    eapply training_frame_trans; [exact Hbody|apply IH].
Qed.

Lemma group_hyperparameters_set_lr (lr : R) (gs : list param_group) :
  map group_hyperparameters (map (set_lr lr) gs)
  = map group_hyperparameters gs.
Proof. rewrite map_map. now apply map_ext. Qed.

Lemma fit_batch_frame (n_epoch n_batch T epoch global_step : Z)
  (item : Z * (tensor Z 2 * list Z)) w :
  training_frame w
    (snd (fit_batch lstm criterion argmax adam_step n_epoch n_batch T epoch
            global_step item w)).
Proof.
  unfold fit_batch, bindM, get, lift, modify, ret.
  destruct (forward lstm (self w) (fst (snd item))
              (Z.of_nat (length (fst (snd item))))) as [preds|e];
    [|apply training_frame_refl].
  destruct (criterion preds (snd (snd item))) as [loss|e];
    [|apply training_frame_refl].
  unfold adjust_lr, float_div.
  destruct (- T =? 0); cbn [bind]; [apply training_frame_refl|].
  destruct (fst item mod 100 =? 0); cbn [fst snd];
    (split; [reflexivity|]; split;
     [cbn; apply group_hyperparameters_set_lr|]);
    cbn [trace emit optimizer_step set_optimizer];
    [rewrite <- app_assoc|]; eexists; reflexivity.
Qed.

(** X9. Whatever [fit] is called with, and whether it returns or raises, it
    leaves the hyperparameters of the model and, group by group, every key
    of the parameter groups other than ['lr'] as they were, and only adds to
    what has been printed and asked of the optimizer. *)
Theorem fit_frame w (X : tensor Z 2) (y : list Z)
  (n_epoch batch_size : Z) (en_shuffle : bool) :
  training_frame w
    (snd (fit lstm criterion argmax adam_step shuffle X y n_epoch batch_size
            en_shuffle w)).
Proof.
  rewrite fit_of_loop. cbn [snd]. unfold fit_loop.
  rewrite bindM_lift.
  destruct (int_quotient (Z.of_nat (length X)) batch_size) as [n_batch|e];
    [|apply training_frame_refl].
  rewrite bindM_lift.
  destruct (range 0 n_epoch 1) as [epochs|e]; [|apply training_frame_refl].
  apply for_loop_frame. intros locals epoch w1.
  unfold fit_epoch. rewrite bindM_lift.
  destruct (if en_shuffle then _ else _) as [Xy|e];
    [|apply training_frame_refl].
  rewrite bindM_lift.
  destruct (gen_batch _ batch_size) as [bx|e]; [|apply training_frame_refl].
  rewrite bindM_lift.
  destruct (gen_batch _ batch_size) as [by_|e]; [|apply training_frame_refl].
  unfold bindM.
  pose proof (for_loop_frame _ _
                (fit_batch lstm criterion argmax adam_step n_epoch n_batch
                   (n_epoch * n_batch) epoch)
                (fit_batch_frame n_epoch n_batch (n_epoch * n_batch) epoch)
                (enumerate (zip bx by_)) (fst locals) w1) as Hb.
  destruct (for_loop
              (fit_batch lstm criterion argmax adam_step n_epoch n_batch
                 (n_epoch * n_batch) epoch)
              (enumerate (zip bx by_)) (fst locals) w1)
    as [[gs|e] w2]; exact Hb.
Qed.

End FitMore.


Lemma fit_follows_schedule_witness :
  1 <= 2 /\ 0 < 3 /\
  length Small.labels = length Small.examples /\
  keeps_lengths Small.shuffle /\
  0 < Z.of_nat (length Small.examples) /\
  Z.of_nat (length Small.examples) mod 3 = 0 /\
  exists m : nat,
    Z.of_nat m <= 2 * (Z.of_nat (length Small.examples) / 3) /\
    optimizer_steps
      (snd (fit_loop Small.lstm Small.criterion Small.argmax Small.adam_step
              Small.shuffle Small.examples Small.labels 2 3 true Small.start))
    = optimizer_steps Small.start
      ++ scheduled_steps (2 * (Z.of_nat (length Small.examples) / 3))
           (groups Small.start) 0 m.
Proof.
  assert (H1 : 1 <= 2) by lia.
  assert (H2 : 0 < 3) by lia.
  assert (H3 : length Small.labels = length Small.examples) by reflexivity.
  assert (H4 : 0 < Z.of_nat (length Small.examples)) by (simpl; lia).
  assert (H5 : Z.of_nat (length Small.examples) mod 3 = 0) by reflexivity.
  destruct (fit_follows_schedule Small.lstm Small.criterion Small.argmax
              Small.adam_step Small.shuffle Small.start Small.examples
              Small.labels 2 3 true H1 H2 H3 small_shuffle_keeps_lengths
              H4 H5)
    as [_ [m [Hm [Hs _]]]].
  split; [exact H1|]. split; [exact H2|]. split; [exact H3|].
  split; [exact small_shuffle_keeps_lengths|].
  split; [exact H4|]. split; [exact H5|].
  exists m. split; [exact Hm|exact Hs].
Defined.

(** ** [attention]: what it returns *)

Lemma flat_map_singleton (A : Type) (l : list A) :
  flat_map (fun a => [a]) l = l.
Proof. induction l as [|a l IH]; [reflexivity|]. cbn. now rewrite IH. Qed.

Lemma flatten2_concat (A : Type) (x : tensor A 2) : flatten 2 x = concat x.
Proof.
  cbn [flatten]. rewrite flat_map_concat_map. f_equal.
  rewrite <- (map_id x) at 2. apply map_ext. intros r.
  apply flat_map_singleton.
Qed.

Lemma flatten3_concat (A : Type) (X : tensor A 3) :
  flatten 3 X = concat (concat X).
Proof.
  change (flatten 3 X) with (flat_map (flatten 2) X).
  change (tensor A 3) with (list (list (list A))) in X.
  induction X as [|x X IH]; [reflexivity|].
  cbn [flat_map concat]. now rewrite concat_app, IH, flatten2_concat.
Qed.

Lemma concat_rows_length (A : Type) (k : nat) (rows : list (list A)) :
  Forall (fun r => length r = k) rows ->
  length (concat rows) = (length rows * k)%nat.
Proof.
  induction 1 as [|r rows Hr _ IH]; [reflexivity|].
  cbn [concat length]. rewrite length_app, IH, Hr. lia.
Qed.

(** Cutting rows of one length out of their concatenation gives the rows
    back. *)
Lemma chunks_of_concat (A : Type) (k : nat) (rows : list (list A)) :
  Forall (fun r => length r = k) rows ->
  chunks (length rows) k (concat rows) = rows.
Proof.
  induction 1 as [|r rows Hr _ IH]; [reflexivity|].
  cbn [length concat]. rewrite chunks_succ.
  assert (Hf : firstn k (r ++ concat rows) = r).
  { rewrite <- Hr, firstn_app, firstn_all, Nat.sub_diag.
    cbn [firstn]. apply app_nil_r. }
  assert (Hs : skipn k (r ++ concat rows) = concat rows).
  { rewrite <- Hr, skipn_app, skipn_all, Nat.sub_diag. reflexivity. }
  now rewrite Hf, Hs, IH.
Qed.

Lemma shape2_rows (A : Type) (s k : nat) (x : tensor A 2) :
  has_shape 2 [s; k] x <-> length x = s /\ Forall (fun r => length r = k) x.
Proof.
  split.
  - intros [Hs Hall]. split; [exact Hs|].
    eapply Forall_impl; [|exact Hall]. now intros r [Hr _].
  - intros [Hs Hall]. split; [exact Hs|].
    eapply Forall_impl; [|exact Hall]. intros r Hr.
    split; [exact Hr|]. apply Forall_forall. intros; reflexivity.
Qed.

(** The rows of all examples, one after the other. *)
Lemma shape3_rows (A : Type) (b s k : nat) (X : tensor A 3) :
  has_shape 3 [b; s; k] X ->
  length (concat X) = (b * s)%nat /\
  Forall (fun r => length r = k) (concat X).
Proof.
  intros [Hb Hall]. subst b.
  change (tensor A 3) with (list (list (list A))) in X.
  induction X as [|x X IH]; [split; [reflexivity|constructor]|].
  apply Forall_cons_iff in Hall. destruct Hall as [Hx Hall].
  apply (shape2_rows A s k x) in Hx. destruct Hx as [Hs Hrows].
  destruct (IH Hall) as [Hl Hr].
  cbn [concat length]. rewrite length_app. split.
  - change (@length (list A) (concat X)) with (length (concat X)) in Hl.
    rewrite Hl, Hs. lia.
  - apply Forall_app. now split.
Qed.

(** [X.view(-1, k)] of a (b, s, k) tensor lists the rows of all examples. *)
Lemma view2_rows (b s k : nat) (X : tensor R 3) :
  has_shape 3 [b; s; k] X -> (1 <= k)%nat ->
  view2 3 X (-1) (Z.of_nat k) = Ok (concat X : tensor R 2).
Proof.
  intros HX Hk. destruct (shape3_rows R b s k X HX) as [Hlen Hrows].
  unfold view2. rewrite flatten3_concat.
  rewrite (concat_rows_length R k _ Hrows), Hlen.
  unfold infer_sizes. cbn [filter].
  change (negb (-1 =? -1)) with false. cbv iota.
  destruct (Z.eqb_spec (Z.of_nat k) (-1)) as [|_]; [lia|]. cbn [negb].
  cbn [existsb fold_right length map Nat.eqb].
  destruct (Z.ltb_spec (Z.of_nat k) 0) as [|_]; [lia|]. cbn [orb].
  rewrite Z.mul_1_r.
  destruct (Z.eqb_spec (Z.of_nat k) 0) as [|_]; [lia|]. cbn [orb].
  replace (Z.of_nat (b * s * k)) with (Z.of_nat (b * s) * Z.of_nat k) by lia.
  rewrite Z.mod_mul, Z.div_mul by lia.
  change (0 =? 0) with true. cbn [negb bind].
  change (-1 =? -1) with true. cbv iota.
  destruct (Z.eqb_spec (Z.of_nat k) (-1)) as [|_]; [lia|].
  rewrite !Nat2Z.id. rewrite <- Hlen.
  now rewrite (chunks_of_concat R k _ Hrows).
Qed.

(** A [torch.nn.Linear] with one output feature gives one number per row. *)
Lemma linear_column (l : linear) (k : nat) (rows : tensor R 2) :
  has_shape 2 [1%nat; k] (weight l : tensor R 2) ->
  length (bias l) = 1%nat ->
  Forall (fun r => length r = k) rows ->
  exists projected : tensor R 2,
    linear_apply l rows = Ok projected /\
    has_shape 2 [length rows; 1%nat] projected.
Proof.
  intros Hw Hb Hrows.
  apply shape2_rows in Hw. destruct Hw as [Hw1 Hwk].
  destruct (weight l) as [|w [|? ?]] eqn:Ew; try discriminate Hw1.
  destruct (bias l) as [|c0 [|? ?]] eqn:Eb; try discriminate Hb.
  apply Forall_inv in Hwk.
  exists (map (fun row => [(dot w row + c0)%R]) rows). split.
  - unfold linear_apply. apply mapM_ok. intros row Hrow.
    rewrite Forall_forall in Hrows. specialize (Hrows row Hrow).
    unfold linear_row. rewrite Ew, Eb. cbn [forallb combine map fst snd].
    rewrite Hwk, Hrows, Nat.eqb_refl. reflexivity.
  - apply shape2_rows. split; [now rewrite length_map|].
    apply Forall_map, Forall_forall. intros; reflexivity.
Qed.

(** [view(a, -1, 1)] of [a * s] numbers: [a] examples of [s] scores. *)
Lemma view3_column (n : nat) (X : tensor R n) (a s : nat) :
  length (flatten n X) = (a * s)%nat -> (1 <= a)%nat ->
  exists scores : tensor R 3,
    view3 n X (Z.of_nat a) (-1) 1 = Ok scores /\
    has_shape 3 [a; s; 1%nat] scores.
Proof.
  intros Hlen Ha.
  assert (Hview : view3 n X (Z.of_nat a) (-1) 1
                  = Ok (chunks a s (chunks (a * s) 1 (flatten n X)))).
  { unfold view3, infer_sizes. rewrite Hlen. cbn [filter].
    change (negb (-1 =? -1)) with false.
    change (negb (1 =? -1)) with true. cbv iota.
    destruct (Z.eqb_spec (Z.of_nat a) (-1)) as [|_]; [lia|]. cbn [negb].
    cbn [existsb fold_right length map Nat.eqb].
    change (1 <? 0) with false. rewrite !orb_false_r.
    destruct (Z.ltb_spec (Z.of_nat a) 0) as [|_]; [lia|].
    rewrite Z.mul_1_r.
    destruct (Z.eqb_spec (Z.of_nat a) 0) as [|_]; [lia|]. cbn [orb].
    replace (Z.of_nat (a * s)) with (Z.of_nat s * Z.of_nat a) by lia.
    rewrite Z.mod_mul, Z.div_mul by lia.
    change (0 =? 0) with true. cbn [negb bind].
    destruct (Z.eqb_spec (Z.of_nat a) (-1)) as [|_]; [lia|].
    change (-1 =? -1) with true. change (1 =? -1) with false. cbv iota.
    change (Z.to_nat 1) with 1%nat. now rewrite !Nat2Z.id. }
  eexists. split; [exact Hview|].
  destruct (view3_column_shape n X (Z.of_nat a) _ Hview) as [_ [s' Hshape]].
  rewrite Nat2Z.id in Hshape.
  assert (Hs : s' = s).
  { destruct Hshape as [_ Hall]. unfold chunks at 1 in Hall.
    destruct a as [|a]; [lia|]. cbn [seq map] in Hall.
    apply Forall_inv in Hall. destruct Hall as [Hs' _].
    rewrite length_firstn, length_skipn, chunks_length in Hs'. nia. }
  now subst s'.
Qed.

(** The softmax of [attention] keeps the shape of the scores. *)
Lemma softmax3_shape (sh : list nat) (scores : tensor R 3) :
  has_shape 3 sh scores ->
  exists alphas : tensor R 3,
    softmax 3 scores = Ok alphas /\ has_shape 3 sh alphas.
Proof.
  intros Hshape. destruct sh as [|b sh]; [contradiction|].
  change (tensor R 3) with (list (tensor R 2)) in scores.
  destruct scores as [|z0 zs].
  - exists []. split; [reflexivity|exact Hshape].
  - rewrite softmax3_cons. eexists. split; [reflexivity|].
    destruct Hshape as [Hlen Hall].
    split; [now rewrite !length_map|].
    apply Forall_map, Forall_map.
    eapply Forall_impl; [|exact Hall].
    intros z Hz. apply (tzip_shape Rdiv 2 sh).
    + now apply tmap_shape.
    + apply fold_tzip_shape.
      * apply tmap_shape. exact (Forall_inv Hall).
      * apply Forall_map.
        eapply Forall_impl; [|exact (Forall_inv_tail Hall)].
        intros; now apply tmap_shape.
Qed.

Section AttentionValue.

Context {lstm_params adam_state : Type}.

Implicit Types me : model lstm_params adam_state.

(** The weights exist for a batch of the given size: one per timestep of
    each example. *)
Lemma attention_alphas_shape me (X : tensor R 3) (b s k : nat) :
  has_shape 3 [b; s; k] X -> (1 <= b)%nat -> (1 <= k)%nat ->
  2 * cell_size me = Z.of_nat k ->
  has_shape 2 [1%nat; k] (weight (attn_fc (params me)) : tensor R 2) ->
  length (bias (attn_fc (params me))) = 1%nat ->
  exists alphas : tensor R 3,
    attention_alphas me X (Z.of_nat b) = Ok alphas /\
    has_shape 3 [b; s; 1%nat] alphas.
Proof.
  intros HX Hb Hk Hc Hw Hbias. unfold attention_alphas.
  rewrite Hc, (view2_rows b s k X HX Hk). cbn [bind].
  destruct (shape3_rows R b s k X HX) as [Hlen Hrows].
  destruct (linear_column (attn_fc (params me)) k _ Hw Hbias Hrows)
    as [projected [-> Hproj]].
  cbn [bind].
  assert (Hred : has_shape 2 [length (concat X : list (list R)); 1%nat]
                   (tmap tanh 2 projected)) by (now apply tmap_shape).
  apply shape2_rows in Hred. destruct Hred as [Hrl Hrr].
  assert (Hflat : length (flatten 2 (tmap tanh 2 projected)) = (b * s)%nat).
  { rewrite flatten2_concat, (concat_rows_length R 1 _ Hrr), Hrl.
    rewrite Nat.mul_1_r. exact Hlen. }
  destruct (view3_column 2 (tmap tanh 2 projected) b s Hflat Hb)
    as [scores [-> Hscores]].
  cbn [bind]. now apply softmax3_shape.
Qed.

End AttentionValue.

Lemma dot_map_l (A : Type) (f : A -> R) (x : list A) (a : list R) :
  dot (map f x) a
  = fold_right Rplus 0%R (map (fun xa => (f (fst xa) * snd xa)%R) (combine x a)).
Proof.
  unfold dot. revert a.
  induction x as [|x0 x IH]; intros [|a0 a]; cbn [map combine fold_right fst snd];
    try reflexivity.
  now rewrite IH.
Qed.

Lemma transpose_mat_rows (s k : nat) (x : list (list R)) :
  (1 <= s)%nat -> has_shape 2 [s; k] (x : tensor R 2) ->
  transpose_mat x = map (fun j => map (fun row => nth j row 0%R) x) (seq 0 k).
Proof.
  intros Hs Hx. apply shape2_rows in Hx. destruct Hx as [Hl Hrows].
  destruct x as [|r x]; [cbn in Hl; lia|].
  apply Forall_inv in Hrows. unfold transpose_mat. now rewrite Hrows.
Qed.

Lemma mapM_map (X Y Z : Type) (g : X -> Y) (f : Y -> result Z) (l : list X) :
  mapM f (map g l) = mapM (fun x => f (g x)) l.
Proof.
  induction l as [|a l IH]; [reflexivity|].
  cbn [map mapM]. now rewrite IH.
Qed.

(** Two loops in a row that succeed element by element. *)
Lemma mapM_fuse (X Y Z : Type) (f : X -> result Y) (g : Y -> result Z)
  (h : X -> Z) (l : list X) :
  (forall x, In x l -> (y <- f x ;; g y) = Ok (h x)) ->
  (r <- mapM f l ;; mapM g r) = Ok (map h l).
Proof.
  induction l as [|a l IH]; intros H; [reflexivity|].
  pose proof (H a (or_introl eq_refl)) as Ha.
  specialize (IH (fun x Hx => H x (or_intror Hx))).
  cbn [mapM map]. destruct (f a) as [y|]; [|discriminate Ha].
  cbn [bind] in Ha |- *.
  destruct (mapM f l) as [r|]; [|discriminate IH].
  cbn [bind] in IH |- *. cbn [mapM]. now rewrite Ha, IH.
Qed.

Lemma combine_map_l (A B C : Type) (f : A -> B) (l : list A) (l' : list C) :
  combine (map f l) l' = map (fun p => (f (fst p), snd p)) (combine l l').
Proof.
  revert l'. induction l as [|a l IH]; intros [|c l']; cbn; try reflexivity.
  now rewrite IH.
Qed.

(** One example of the [bmm] of [attention], squeezed: the timesteps
    weighted and added up. *)
Lemma pooled_example (s k : nat) (x q : list (list R)) :
  (1 <= s)%nat ->
  has_shape 2 [s; k] (x : tensor R 2) ->
  has_shape 2 [s; 1%nat] (q : tensor R 2) ->
  (pooled <- matmul (transpose_mat x) q ;;
   mapM (fun v : list R =>
           match v with [y] => Ok y | _ => Raise RuntimeError end) pooled)
  = Ok (weighted_sum k x (map (fun r => nth 0 r 0%R) q)).
Proof.
  intros Hs Hx Hq.
  rewrite (transpose_mat_rows s k x Hs Hx).
  unfold matmul. rewrite (transpose_mat_rows s 1 q Hs Hq).
  apply shape2_rows in Hx, Hq. destruct Hx as [Hxl _], Hq as [Hql _].
  assert (Hrows : forallb (fun row : list R => (length row =? length q)%nat)
                    (map (fun j => map (fun row => nth j row 0%R) x) (seq 0 k))
                  = true).
  { apply forallb_forall. intros row Hrow. apply in_map_iff in Hrow.
    destruct Hrow as [j [<- _]]. rewrite length_map, Hxl, Hql.
    apply Nat.eqb_refl. }
  rewrite Hrows. cbn [bind seq map]. rewrite map_map, mapM_map.
  unfold weighted_sum. apply mapM_ok. intros j _.
  now rewrite dot_map_l.
Qed.

Lemma attention_pooled (b s k : nat) (X alphas : tensor R 3) :
  (1 <= s)%nat ->
  has_shape 3 [b; s; k] X -> has_shape 3 [b; s; 1%nat] alphas ->
  (pooled <- bmm (transpose12 X) alphas ;; squeeze2 pooled)
  = Ok (map (fun xa => weighted_sum k (fst xa)
                         (map (fun r => nth 0 r 0%R) (snd xa)))
            (combine X alphas)).
Proof.
  intros Hs [HXl HX] [Hal Ha]. unfold bmm, transpose12, squeeze2.
  rewrite length_map.
  replace (length X =? length alphas)%nat with true
    by (symmetry; apply Nat.eqb_eq; congruence).
  rewrite combine_map_l, mapM_map. apply mapM_fuse.
  intros [x q] Hxq. cbn [fst snd].
  rewrite Forall_forall in HX, Ha.
  apply (pooled_example s k x q Hs).
  - apply HX. eapply in_combine_l. exact Hxq.
  - apply Ha. eapply in_combine_r. exact Hxq.
Qed.

(** X10. For a (b, s, 2 * cell_size) batch with at least one example and one
    timestep, and an attention layer sized as [build_model] sizes it,
    [attention] called with the batch's size returns a (b, 2 * cell_size)
    matrix: the timesteps of every example, each scaled by its weight (one
    weight per example and timestep), added up feature by feature. *)
Theorem attention_weighted_sum {lstm_params adam_state : Type}
  (me : model lstm_params adam_state) (X : tensor R 3) (b s k : nat) :
  has_shape 3 [b; s; k] X -> (1 <= b)%nat -> (1 <= s)%nat -> (1 <= k)%nat ->
  2 * cell_size me = Z.of_nat k ->
  has_shape 2 [1%nat; k] (weight (attn_fc (params me)) : tensor R 2) ->
  length (bias (attn_fc (params me))) = 1%nat ->
  exists (alphas : tensor R 3) (out : tensor R 2),
    attention_alphas me X (Z.of_nat b) = Ok alphas /\
    has_shape 3 [b; s; 1%nat] alphas /\
    attention me X (Z.of_nat b) = Ok out /\
    has_shape 2 [b; k] out /\
    out = map (fun xa => weighted_sum k (fst xa)
                           (map (fun r => nth 0 r 0%R) (snd xa)))
              (combine X alphas).
Proof.
  intros HX Hb Hs Hk Hc Hw Hbias.
  destruct (attention_alphas_shape me X b s k HX Hb Hk Hc Hw Hbias)
    as [alphas [Halphas Hshape]].
  exists alphas. eexists.
  split; [exact Halphas|]. split; [exact Hshape|].
  split; [|split; [|reflexivity]].
  - unfold attention. rewrite Halphas. cbn [bind].
    exact (attention_pooled b s k X alphas Hs HX Hshape).
  - apply shape2_rows. destruct HX as [HXl _], Hshape as [Hal _].
    split.
    + rewrite length_map, length_combine.
      rewrite HXl, Hal. apply Nat.min_id.
    + apply Forall_map, Forall_forall. intros xa _.
      unfold weighted_sum. now rewrite length_map, length_seq.
Qed.


Lemma attention_weighted_sum_witness :
  has_shape 3 [1; 3; 2]%nat ([[[0; 1]; [0; 1]; [0; 1]]]%R : tensor R 3) /\
  2 * cell_size Small.net = Z.of_nat 2 /\
  exists (alphas : tensor R 3) (out : tensor R 2),
    attention_alphas Small.net [[[0; 1]; [0; 1]; [0; 1]]]%R (Z.of_nat 1)
    = Ok alphas /\
    has_shape 3 [1; 3; 1]%nat alphas /\
    attention Small.net [[[0; 1]; [0; 1]; [0; 1]]]%R (Z.of_nat 1) = Ok out /\
    has_shape 2 [1; 2]%nat out /\
    out = map (fun xa => weighted_sum 2 (fst xa)
                           (map (fun r => nth 0 r 0%R) (snd xa)))
              (combine ([[[0; 1]; [0; 1]; [0; 1]]]%R : tensor R 3) alphas).
Proof.
  assert (HX : has_shape 3 [1; 3; 2]%nat
                 ([[[0; 1]; [0; 1]; [0; 1]]]%R : tensor R 3)).
  { simpl. split; [reflexivity|]. repeat constructor. }
  assert (Hc : 2 * cell_size Small.net = Z.of_nat 2) by reflexivity.
  assert (Hw : has_shape 2 [1; 2]%nat
                 (weight (attn_fc (params Small.net)) : tensor R 2)).
  { simpl. split; [reflexivity|]. repeat constructor. }
  split; [exact HX|]. split; [exact Hc|].
  exact (attention_weighted_sum Small.net _ 1 3 2 HX (le_n 1)
           (le_S _ _ (le_S _ _ (le_n 1))) (le_S _ _ (le_n 1)) Hc Hw eq_refl).
Defined.

(** ** [attention]: one example alone *)

Lemma column_of_ones (s : nat) (e : tensor R 2) :
  has_shape 2 [s; 1%nat] e ->
  (forall t, (t < s)%nat -> entry 2 e [t; 0%nat] = Some 1%R) ->
  Forall (fun w => w = 1%R) (map (fun r : list R => nth 0 r 0%R) e).
Proof.
  intros He Hones. apply shape2_rows in He. destruct He as [Hl Hrows].
  apply Forall_map, Forall_forall. intros r Hr.
  destruct (In_nth_error _ _ Hr) as [t Ht].
  assert (Hlt : (t < s)%nat).
  { rewrite <- Hl. apply nth_error_Some. now rewrite Ht. }
  specialize (Hones t Hlt).
  change (entry 2 e [t; 0%nat])
    with (match @nth_error (list R) e t with
          | Some r0 => entry 1 (r0 : tensor R 1) [0%nat]
          | None => None
          end) in Hones.
  rewrite Ht in Hones.
  rewrite Forall_forall in Hrows. specialize (Hrows r Hr).
  destruct r as [|v [|? ?]]; try discriminate Hrows.
  cbn in Hones. now injection Hones.
Qed.

Lemma weighted_sum_ones (k : nat) (x : list (list R)) (a : list R) :
  length a = length x -> Forall (fun w => w = 1%R) a ->
  weighted_sum k x a = sum_of_steps k x.
Proof.
  intros Hlen Hones. unfold weighted_sum, sum_of_steps.
  apply map_ext. intros j. revert a Hlen Hones.
  induction x as [|r x IH]; intros [|w a] Hlen Hones; try discriminate Hlen;
    [reflexivity|].
  cbn [combine map fold_right fst snd].
  rewrite (Forall_inv Hones), Rmult_1_r. f_equal.
  apply IH; [now injection Hlen|exact (Forall_inv_tail Hones)].
Qed.

(** X11. Called with one example (as [fit] and [evaluate] call it on a batch of
    one), [attention] has no effect of its own: whatever the attention layer
    holds, it returns the plain sum of the timesteps. *)
Theorem attention_single_example_sums {lstm_params adam_state : Type}
  (me : model lstm_params adam_state) (x : tensor R 2) (s k : nat) :
  has_shape 2 [s; k] x -> (1 <= s)%nat -> (1 <= k)%nat ->
  2 * cell_size me = Z.of_nat k ->
  has_shape 2 [1%nat; k] (weight (attn_fc (params me)) : tensor R 2) ->
  length (bias (attn_fc (params me))) = 1%nat ->
  attention me [x] 1 = Ok [sum_of_steps k x].
Proof.
  intros Hx Hs Hk Hc Hw Hbias.
  assert (HX : has_shape 3 [1%nat; s; k] ([x] : tensor R 3))
    by (split; [reflexivity|now constructor]).
  destruct (attention_alphas_shape me [x] 1 s k HX (le_n 1) Hk Hc Hw Hbias)
    as [alphas [Halphas Hshape]].
  change (Z.of_nat 1) with 1 in Halphas.
  destruct (attention_alphas_single_example me [x] alphas Halphas)
    as [s' [e [-> [He Hones]]]].
  unfold attention. rewrite Halphas. cbn [bind].
  rewrite (attention_pooled 1 s k [x] [e] Hs HX Hshape).
  cbn [combine map fst snd]. do 2 f_equal.
  destruct Hshape as [_ Hall]. apply Forall_inv in Hall.
  assert (Hs' : s' = s).
  { destruct He as [H1 _], Hall as [H2 _]. congruence. }
  subst s'.
  apply weighted_sum_ones.
  - rewrite length_map. destruct Hx as [H1 _], Hall as [H2 _]. congruence.
  - now apply (column_of_ones s).
Qed.

Lemma attention_single_example_sums_witness :
  has_shape 2 [3; 2]%nat ([[0; 1]; [0; 1]; [0; 1]]%R : tensor R 2) /\
  2 * cell_size Small.net = Z.of_nat 2 /\
  attention Small.net [[[0; 1]; [0; 1]; [0; 1]]]%R 1
  = Ok [sum_of_steps 2 [[0; 1]; [0; 1]; [0; 1]]%R].
Proof.
  assert (Hx : has_shape 2 [3; 2]%nat
                 ([[0; 1]; [0; 1]; [0; 1]]%R : tensor R 2)).
  { simpl. split; [reflexivity|]. repeat constructor. }
  assert (Hc : 2 * cell_size Small.net = Z.of_nat 2) by reflexivity.
  assert (Hw : has_shape 2 [1; 2]%nat
                 (weight (attn_fc (params Small.net)) : tensor R 2)).
  { simpl. split; [reflexivity|]. repeat constructor. }
  split; [exact Hx|]. split; [exact Hc|].
  exact (attention_single_example_sums Small.net _ 3 2 Hx
           (le_S _ _ (le_S _ _ (le_n 1))) (le_S _ _ (le_n 1)) Hc Hw eq_refl).
Defined.

(** ** [attention]: a batch size that is not the batch's *)

Lemma view3_column_refused (n : nat) (X : tensor R n) (a : Z) :
  a <= 0 \/ Z.of_nat (length (flatten n X)) mod a <> 0 ->
  view3 n X a (-1) 1 = Raise RuntimeError.
Proof.
  intros Ha. unfold view3, infer_sizes. cbn [filter].
  change (negb (-1 =? -1)) with false.
  change (negb (1 =? -1)) with true. cbv iota.
  destruct (Z.eqb_spec a (-1)) as [->|Hm1]; cbn [negb]; [reflexivity|].
  cbn [existsb fold_right length map Nat.eqb].
  change (1 <? 0) with false. rewrite !orb_false_r.
  destruct (Z.ltb_spec a 0) as [|Hpos]; [reflexivity|].
  rewrite Z.mul_1_r.
  destruct (Z.eqb_spec a 0) as [|Ha0]; [reflexivity|]. cbn [orb].
  destruct (Z.eqb_spec (Z.of_nat (length (flatten n X)) mod a) 0) as [Hmod|];
    [|reflexivity].
  destruct Ha as [Ha|Ha]; [lia|contradiction].
Qed.

(** X12. [attention] takes no batch size but the size of the first axis of its
    input: with any other it raises a [RuntimeError], from the view of the
    scores when the size is not positive or does not divide their number,
    and from the [bmm] otherwise. *)
Theorem attention_batch_size_mismatch {lstm_params adam_state : Type}
  (me : model lstm_params adam_state) (X : tensor R 3) (b s k : nat)
  (batch_size : Z) :
  has_shape 3 [b; s; k] X -> (1 <= k)%nat ->
  2 * cell_size me = Z.of_nat k ->
  has_shape 2 [1%nat; k] (weight (attn_fc (params me)) : tensor R 2) ->
  length (bias (attn_fc (params me))) = 1%nat ->
  batch_size <> Z.of_nat b ->
  attention me X batch_size = Raise RuntimeError.
Proof.
  intros HX Hk Hc Hw Hbias Hneq. unfold attention, attention_alphas.
  rewrite Hc, (view2_rows b s k X HX Hk). cbn [bind].
  destruct (shape3_rows R b s k X HX) as [Hlen Hrows].
  destruct (linear_column (attn_fc (params me)) k _ Hw Hbias Hrows)
    as [projected [-> Hproj]].
  cbn [bind].
  assert (Hred : has_shape 2 [length (concat X : list (list R)); 1%nat]
                   (tmap tanh 2 projected)) by (now apply tmap_shape).
  apply shape2_rows in Hred. destruct Hred as [Hrl Hrr].
  assert (Hflat : length (flatten 2 (tmap tanh 2 projected)) = (b * s)%nat).
  { rewrite flatten2_concat, (concat_rows_length R 1 _ Hrr), Hrl.
    rewrite Nat.mul_1_r. exact Hlen. }
  destruct (Z.leb_spec batch_size 0) as [Hle|Hpos].
  { rewrite view3_column_refused by (now left). reflexivity. }
  destruct (Z.eqb_spec (Z.of_nat (b * s) mod batch_size) 0) as [Hmod|Hmod].
  2:{ rewrite view3_column_refused by (right; now rewrite Hflat).
      reflexivity. }
  (* the view and the softmax succeed; the batch sizes of the bmm differ *)
  pose proof (Z.div_mod (Z.of_nat (b * s)) batch_size ltac:(lia)) as Hdm.
  rewrite Hmod, Z.add_0_r in Hdm.
  assert (Hq : 0 <= Z.of_nat (b * s) / batch_size) by (apply Z.div_pos; lia).
  assert (Hflat' : length (flatten 2 (tmap tanh 2 projected))
                   = (Z.to_nat batch_size
                      * Z.to_nat (Z.of_nat (b * s) / batch_size))%nat)
    by (rewrite Hflat; nia).
  destruct (view3_column 2 (tmap tanh 2 projected) (Z.to_nat batch_size) _
              Hflat' ltac:(lia)) as [scores [Hview Hscores]].
  rewrite Z2Nat.id in Hview by lia. rewrite Hview. cbn [bind].
  destruct (softmax3_shape _ scores Hscores) as [alphas [-> [Hal _]]].
  cbn [bind]. unfold bmm, transpose12. rewrite length_map.
  destruct HX as [HXl _].
  replace (length X =? length alphas)%nat with false; [reflexivity|].
  symmetry. apply Nat.eqb_neq. rewrite HXl, Hal. lia.
Qed.

Lemma attention_batch_size_mismatch_witness :
  has_shape 3 [1; 3; 2]%nat ([[[0; 1]; [0; 1]; [0; 1]]]%R : tensor R 3) /\
  2 * cell_size Small.net = Z.of_nat 2 /\
  3 <> Z.of_nat 1 /\
  attention Small.net [[[0; 1]; [0; 1]; [0; 1]]]%R 3 = Raise RuntimeError.
Proof.
  assert (HX : has_shape 3 [1; 3; 2]%nat
                 ([[[0; 1]; [0; 1]; [0; 1]]]%R : tensor R 3)).
  { simpl. split; [reflexivity|]. repeat constructor. }
  assert (Hc : 2 * cell_size Small.net = Z.of_nat 2) by reflexivity.
  assert (Hw : has_shape 2 [1; 2]%nat
                 (weight (attn_fc (params Small.net)) : tensor R 2)).
  { simpl. split; [reflexivity|]. repeat constructor. }
  assert (Hneq : 3 <> Z.of_nat 1) by discriminate.
  split; [exact HX|]. split; [exact Hc|]. split; [exact Hneq|].
  exact (attention_batch_size_mismatch Small.net _ 1 3 2 3 HX
           (le_S _ _ (le_n 1)) Hc Hw eq_refl Hneq).
Defined.

(** ** [forward]: the logits *)

(** A [torch.nn.Linear] of [o] outputs gives [o] numbers per row. *)
Lemma linear_apply_shape (l : linear) (o k : nat) (rows : tensor R 2) :
  has_shape 2 [o; k] (weight l : tensor R 2) ->
  length (bias l) = o ->
  Forall (fun r => length r = k) rows ->
  exists out : tensor R 2,
    linear_apply l rows = Ok out /\ has_shape 2 [length rows; o] out.
Proof.
  intros Hw Hb Hrows. apply shape2_rows in Hw. destruct Hw as [Hwl Hwk].
  exists (map (fun x => map (fun wb => (dot (fst wb) x + snd wb)%R)
                         (combine (weight l) (bias l))) rows).
  split.
  - unfold linear_apply. apply mapM_ok. intros row Hrow.
    rewrite Forall_forall in Hrows. specialize (Hrows row Hrow).
    unfold linear_row.
    replace (forallb _ (weight l)) with true; [reflexivity|].
    symmetry. apply forallb_forall. intros w Hin.
    rewrite Forall_forall in Hwk. rewrite (Hwk w Hin), Hrows.
    apply Nat.eqb_refl.
  - apply shape2_rows. split; [now rewrite length_map|].
    apply Forall_map, Forall_forall. intros row _.
    rewrite length_map, length_combine, Hwl, Hb. apply Nat.min_id.
Qed.

Section Forward.

Context {lstm_params : Type}.
Variable lstm : lstm_params -> tensor R 3 -> result (tensor R 3).
Context {adam_state : Type}.

Implicit Types me : model lstm_params adam_state.

(** The encoder's output exists and has 2 * cell_size features per
    timestep. *)
Lemma bidirectional_rnn_sized me (X : tensor Z 2) (b s : nat) :
  built me -> cells_sized lstm me ->
  has_shape 2 [b; s] X ->
  (forall row tok, In row X -> In tok row -> 0 <= tok < vocab_size me) ->
  exists Y, bidirectional_rnn lstm me X = Ok Y /\
            has_shape 3 [b; s; (2 * Z.to_nat (cell_size me))%nat] Y.
Proof.
  intros [Htable _] Hcells HX Htok.
  set (v := Z.to_nat (vocab_size me)) in *.
  set (e := Z.to_nat (embedding_dim me)) in *.
  set (c := Z.to_nat (cell_size me)) in *.
  rewrite (bidirectional_rnn_refines lstm me X b s v e HX Htable).
  unfold bidirectional_rnn_embed_first.
  destruct (embedding_ok (encoder (params me)) X) as [E HE].
  { intros row tok Hrow Htk. destruct Htable as [Hv _].
    specialize (Htok row tok Hrow Htk).
    change (@length (tensor R 1) (encoder (params me)))
      with (length (encoder (params me))) in Hv.
    rewrite Hv. subst v. lia. }
  destruct (embedding_reverse _ v e b s X E Htable HX HE) as [HshE _].
  rewrite HE. cbn [bind].
  destruct (Hcells (fw_lstm (params me)) b s E (or_introl eq_refl) HshE)
    as [fw_out [-> Hfws]].
  cbn [bind].
  rewrite (reverse_closed R 3 [b; s; e] E 1 HshE) by (simpl; lia).
  cbn [bind].
  set (E_rev := rev_axis 3 _ E).
  assert (HshErev : has_shape 3 [b; s; e] E_rev) by (now apply rev_axis_shape).
  destruct (Hcells (bw_lstm (params me)) b s E_rev (or_intror eq_refl) HshErev)
    as [bw_out [-> Hbws]].
  cbn [bind].
  rewrite (reverse_closed R 3 [b; s; c] bw_out 1 Hbws) by (simpl; lia).
  cbn [bind].
  set (bw_back := rev_axis 3 _ bw_out).
  assert (Hshback : has_shape 3 [b; s; c] bw_back)
    by (now apply rev_axis_shape).
  destruct (cat_shape [b; s] 3 c c [] fw_out bw_back Hfws Hshback)
    as [Y [HY HshY]].
  exists Y. split; [exact HY|].
  replace (2 * c)%nat with (c + c)%nat by lia. exact HshY.
Qed.

Lemma forward_sized me (X : tensor Z 2) (b s : nat) :
  built me -> cells_sized lstm me ->
  1 <= cell_size me ->
  has_shape 2 [b; s] X -> (1 <= b)%nat -> (1 <= s)%nat ->
  (forall row tok, In row X -> In tok row -> 0 <= tok < vocab_size me) ->
  exists logits : tensor R 2,
    forward lstm me X (Z.of_nat b) = Ok logits /\
    has_shape 2 [b; Z.to_nat (n_out me)] logits.
Proof.
  intros Hbuilt Hcells Hc HX Hb Hs Htok.
  destruct (bidirectional_rnn_sized me X b s Hbuilt Hcells HX Htok)
    as [Y [HY HshY]].
  destruct Hbuilt as [_ [Hw [Hbias [Hfw Hfb]]]].
  set (k := (2 * Z.to_nat (cell_size me))%nat) in *.
  assert (Hk : Z.to_nat (2 * cell_size me) = k) by (subst k; lia).
  rewrite Hk in Hw, Hfw.
  assert (Hc2 : 2 * cell_size me = Z.of_nat k) by lia.
  destruct (attention_alphas_shape me Y b s k HshY Hb ltac:(lia) Hc2 Hw Hbias)
    as [alphas [Halphas Hshape]].
  unfold forward. rewrite HY. cbn [bind].
  unfold attention. rewrite Halphas. cbn [bind].
  rewrite (attention_pooled b s k Y alphas Hs HshY Hshape). cbn [bind].
  set (attn_out := map _ (combine Y alphas)).
  assert (Hrows : Forall (fun r => length r = k) attn_out).
  { subst attn_out. apply Forall_map, Forall_forall. intros xa _.
    unfold weighted_sum. now rewrite length_map, length_seq. }
  destruct (linear_apply_shape (fc (params me)) _ k attn_out Hfw Hfb Hrows)
    as [logits [Hlogits Hshl]].
  exists logits. split; [exact Hlogits|].
  replace b with (length attn_out); [exact Hshl|].
  subst attn_out. rewrite length_map, length_combine.
  destruct HshY as [H1 _], Hshape as [H2 _]. rewrite H1, H2.
  apply Nat.min_id.
Qed.

(** X13. For a model sized by [build_model] with at least one cell, and a
    (b, s) batch of tokens of the vocabulary with at least one example and
    one timestep, [forward] called with the batch's size returns one row of
    [n_out] logits per example. *)
Theorem forward_logits me (X : tensor Z 2) (b s : nat) :
  built me -> cells_sized lstm me ->
  1 <= cell_size me ->
  has_shape 2 [b; s] X -> (1 <= b)%nat -> (1 <= s)%nat ->
  (forall row tok, In row X -> In tok row -> 0 <= tok < vocab_size me) ->
  exists logits : tensor R 2,
    forward lstm me X (Z.of_nat b) = Ok logits /\
    has_shape 2 [b; Z.to_nat (n_out me)] logits.
Proof. exact (forward_sized me X b s). Qed.

End Forward.

Lemma small_net_built : built Small.net.
Proof.
  unfold built. cbn.
  repeat split; repeat constructor.
Qed.

Lemma small_cells_sized : cells_sized Small.lstm Small.net.
Proof.
  intros p b s E [-> | ->] HE;
    exact (small_lstm_shape _ b s _ E HE).
Qed.

Lemma forward_logits_witness :
  built Small.net /\ cells_sized Small.lstm Small.net /\
  1 <= cell_size Small.net /\
  has_shape 2 [3; 3]%nat Small.examples /\
  (forall row tok, In row Small.examples -> In tok row ->
     0 <= tok < vocab_size Small.net) /\
  exists logits : tensor R 2,
    forward Small.lstm Small.net Small.examples (Z.of_nat 3) = Ok logits /\
    has_shape 2 [3%nat; Z.to_nat (n_out Small.net)] logits.
Proof.
  assert (Hc : 1 <= cell_size Small.net) by (cbn; lia).
  assert (HX : has_shape 2 [3; 3]%nat Small.examples).
  { simpl. split; [reflexivity|]. repeat constructor. }
  assert (Htok : forall row tok, In row Small.examples -> In tok row ->
                   0 <= tok < vocab_size Small.net).
  { cbn. intros row tok [<-|[<-|[<-|[]]]] [<-|[<-|[<-|[]]]]; lia. }
  split; [exact small_net_built|]. split; [exact small_cells_sized|].
  split; [exact Hc|]. split; [exact HX|]. split; [exact Htok|].
  exact (forward_logits Small.lstm Small.net Small.examples 3 3
           small_net_built small_cells_sized Hc HX
           (le_S _ _ (le_S _ _ (le_n 1))) (le_S _ _ (le_S _ _ (le_n 1)))
           Htok).
Defined.

(** ** [forward]: a token outside the vocabulary *)

Section Raises.

Context {X Y : Type}.

(** A loop whose body raises nothing but [e] raises nothing but [e]. *)
Lemma mapM_raises_only (f : X -> result Y) (e : exn) (l : list X) :
  (forall x e', In x l -> f x = Raise e' -> e' = e) ->
  forall e', mapM f l = Raise e' -> e' = e.
Proof.
  induction l as [|a l IH]; intros H e'; [discriminate|].
  cbn [mapM]. destruct (f a) as [y|e0] eqn:Ea; cbn [bind].
  - destruct (mapM f l) as [r|e1] eqn:El; cbn [bind]; [discriminate|].
    intros E. injection E as <-.
    apply IH; [|reflexivity]. intros x e2 Hx. apply H. now right.
  - intros E. injection E as <-. apply (H a); [now left|exact Ea].
Qed.

(** It raises [e] as soon as the body does for one element. *)
Lemma mapM_raises (f : X -> result Y) (e : exn) (l : list X) :
  (forall x e', In x l -> f x = Raise e' -> e' = e) ->
  (exists x, In x l /\ f x = Raise e) ->
  mapM f l = Raise e.
Proof.
  intros Honly [x [Hx Hfx]].
  destruct (mapM f l) as [r|e'] eqn:El.
  - exfalso. apply mapM_Forall2 in El.
    clear Honly. induction El as [|a y l r Ha _ IH]; [contradiction|].
    destruct Hx as [->|Hx]; [congruence|now apply IH].
  - f_equal. now apply (mapM_raises_only f e l Honly).
Qed.

End Raises.

Lemma gather_raises (A : Type) (X : list A) (i : Z) (e : exn) :
  gather X i = Raise e -> e = IndexError.
Proof.
  unfold gather.
  destruct ((0 <=? i) && (i <? Z.of_nat (length X)));
    [destruct (nth_error X (Z.to_nat i))|]; congruence.
Qed.

Lemma gather_outside (A : Type) (X : list A) (i : Z) :
  i < 0 \/ Z.of_nat (length X) <= i -> gather X i = Raise IndexError.
Proof.
  intros Hi. unfold gather.
  destruct (Z.leb_spec 0 i); [|reflexivity].
  destruct (Z.ltb_spec i (Z.of_nat (length X))); [lia|reflexivity].
Qed.

(** X14. One token below 0 or not below [vocab_size] anywhere in a batch makes
    [forward] raise an [IndexError], whatever the cells and the batch size
    are: the embedding has no row for it. *)
Theorem forward_unknown_token {lstm_params adam_state : Type}
  (lstm : lstm_params -> tensor R 3 -> result (tensor R 3))
  (me : model lstm_params adam_state) (X : tensor Z 2) (b s : nat)
  (batch_size : Z) :
  built me -> has_shape 2 [b; s] X ->
  (exists row tok, In row X /\ In tok row /\
                   (tok < 0 \/ vocab_size me <= tok)) ->
  forward lstm me X batch_size = Raise IndexError.
Proof.
  intros [[Hv _] _] HX [row [tok [Hrow [Htok Hout]]]].
  unfold forward, bidirectional_rnn.
  rewrite (reverse_closed Z 2 [b; s] X 1 HX) by (simpl; lia). cbn [bind].
  assert (HE : embedding (encoder (params me)) X = Raise IndexError).
  { unfold embedding. apply mapM_raises.
    - intros r e' _ Hr. revert e' Hr. apply mapM_raises_only.
      intros t e' _. apply gather_raises.
    - exists row. split; [exact Hrow|]. apply mapM_raises.
      + intros t e' _. apply gather_raises.
      + exists tok. split; [exact Htok|]. apply gather_outside.
        change (@length (tensor R 1) (encoder (params me)))
          with (length (encoder (params me))) in Hv.
        rewrite Hv. lia. }
  rewrite HE. reflexivity.
Qed.

Lemma forward_unknown_token_witness :
  built Small.net /\ has_shape 2 [1; 3]%nat ([[0; 2; 1]] : tensor Z 2) /\
  forward Small.lstm Small.net [[0; 2; 1]] 1 = Raise IndexError.
Proof.
  assert (HX : has_shape 2 [1; 3]%nat ([[0; 2; 1]] : tensor Z 2)).
  { simpl. split; [reflexivity|]. repeat constructor. }
  split; [exact small_net_built|]. split; [exact HX|].
  apply (forward_unknown_token Small.lstm Small.net [[0; 2; 1]] 1 3 1
           small_net_built HX).
  exists [0; 2; 1], 2. split; [now left|]. split; [right; now left|].
  right. cbn. lia.
Defined.

(** ** [evaluate]: well-formed data *)

(** X15. On well-formed data [evaluate] returns: for a model sized by
    [build_model] with at least one cell, at least one example of at least
    one token, tokens of the vocabulary, as many labels as examples and a
    positive batch size, it raises nothing, prints one accuracy and leaves
    the model as it is. *)
Theorem evaluate_returns {lstm_params adam_state : Type}
  (lstm : lstm_params -> tensor R 3 -> result (tensor R 3))
  (argmax : list R -> Z) (w : world lstm_params adam_state)
  (X_test : tensor Z 2) (y_test : list Z) (batch_size : Z) (n s : nat) :
  built (self w) -> cells_sized lstm (self w) ->
  1 <= cell_size (self w) ->
  has_shape 2 [n; s] X_test -> (1 <= n)%nat -> (1 <= s)%nat ->
  (forall row tok, In row X_test -> In tok row ->
     0 <= tok < vocab_size (self w)) ->
  length y_test = n -> 0 < batch_size ->
  exists acc : R,
    evaluate lstm argmax X_test y_test batch_size w
    = (Ok tt, {| self := self w; trace := trace w ++ [PrintAccuracy acc] |}).
Proof.
  intros Hbuilt Hcells Hc [HXl HXr] Hn Hs Htok Hy HB.
  assert (Hlen : length X_test = length y_test) by congruence.
  rewrite evaluate_run. unfold accuracy_of_batches.
  destruct (zipped_batches _ _ X_test y_test batch_size HB Hlen)
    as [bx [by_ [Hbx [Hby Hitems]]]].
  destruct (zip_batches X_test y_test batch_size HB Hlen)
    as [bx' [by' [Hbx' [Hby' [_ Hsizes]]]]].
  rewrite Hbx in Hbx'. rewrite Hby in Hby'.
  apply Ok_inj in Hbx', Hby'. subst bx' by'.
  rewrite Hbx, Hby. cbn [bind].
  destruct (mapM_Forall (batch_hits lstm argmax (self w)) (fun _ => True)
              (zip bx by_)) as [hits [Hhits _]].
  { intros [Xb yb] Hin. rewrite Forall_forall in Hitems.
    destruct (Hitems _ Hin) as [Hne [Hlab [Hincl _]]]. cbn [fst snd] in *.
    assert (HXb : has_shape 2 [length Xb; s] Xb).
    { split; [reflexivity|]. rewrite Forall_forall in HXr |- *.
      intros row Hrow. apply HXr. now apply Hincl. }
    destruct (forward_sized lstm (self w) Xb (length Xb) s Hbuilt Hcells Hc
                HXb Hne Hs) as [logits [Hlogits [Hll _]]].
    { intros row tok Hrow. apply Htok. now apply Hincl. }
    unfold batch_hits. cbn [fst snd]. rewrite Hlogits. cbn [bind].
    unfold count_eq. rewrite length_map.
    replace (length logits =? length yb)%nat with true
      by (symmetry; apply Nat.eqb_eq; congruence).
    eexists. now split. }
  rewrite Hhits. cbn [bind]. rewrite Hsizes. unfold float_div.
  destruct (Z.eqb_spec (Z.of_nat (length y_test)) 0) as [|_]; [lia|].
  eexists. reflexivity.
Qed.

Lemma evaluate_returns_witness :
  built (self Small.start) /\ cells_sized Small.lstm (self Small.start) /\
  has_shape 2 [3; 3]%nat Small.examples /\
  length Small.labels = 3%nat /\
  exists acc : R,
    evaluate Small.lstm Small.argmax Small.examples Small.labels 2 Small.start
    = (Ok tt, {| self := self Small.start;
                 trace := trace Small.start ++ [PrintAccuracy acc] |}).
Proof.
  assert (Hc : 1 <= cell_size (self Small.start)) by (cbn; lia).
  assert (HX : has_shape 2 [3; 3]%nat Small.examples).
  { simpl. split; [reflexivity|]. repeat constructor. }
  assert (Htok : forall row tok, In row Small.examples -> In tok row ->
                   0 <= tok < vocab_size (self Small.start)).
  { cbn. intros row tok [<-|[<-|[<-|[]]]] [<-|[<-|[<-|[]]]]; lia. }
  assert (HB : 0 < 2) by lia.
  split; [exact small_net_built|]. split; [exact small_cells_sized|].
  split; [exact HX|]. split; [reflexivity|].
  exact (evaluate_returns Small.lstm Small.argmax Small.start Small.examples
           Small.labels 2 3 3 small_net_built small_cells_sized Hc HX
           (le_S _ _ (le_S _ _ (le_n 1))) (le_S _ _ (le_S _ _ (le_n 1)))
           Htok eq_refl HB).
Defined.

(** ** [fit]: what it prints *)

(** A loop keeps what every pass keeps. *)
Lemma for_loop_keeps (W A S : Type) (Rel : W -> W -> Prop)
  (body : S -> A -> M W S) (l : list A) :
  (forall w, Rel w w) ->
  (forall w1 w2 w3, Rel w1 w2 -> Rel w2 w3 -> Rel w1 w3) ->
  (forall s a w, In a l -> Rel w (snd (body s a w))) ->
  forall (s : S) (w : W), Rel w (snd (for_loop body l s w)).
Proof.
  intros Hrefl Htrans. induction l as [|a l IH]; intros Hbody s w.
  - apply Hrefl.
  - rewrite for_loop_cons.
    pose proof (Hbody s a w (or_introl eq_refl)) as Ha.
    destruct (body s a w) as [[s'|e] w1]; cbn [snd] in *; [|exact Ha].
    eapply Htrans; [exact Ha|].
    apply IH. intros s0 a0 w0 Hin. apply Hbody. now right.
Qed.

Lemma enumerate_nonneg (A : Type) (l : list A) (item : Z * A) :
  In item (enumerate l) -> 0 <= fst item.
Proof.
  destruct item as [i a]. unfold enumerate. intros Hin.
  apply in_combine_l in Hin. apply in_map_iff in Hin.
  destruct Hin as [k [<- _]]. cbn. lia.
Qed.

Lemma range_epochs (n_epoch : Z) (epochs : list Z) (epoch : Z) :
  range 0 n_epoch 1 = Ok epochs -> In epoch epochs -> 0 <= epoch < n_epoch.
Proof.
  intros Hr Hin. destruct (Z.le_gt_cases n_epoch 0) as [Hle|Hpos].
  - rewrite range_empty in Hr by lia. apply Ok_inj in Hr. now subst epochs.
  - rewrite range_up in Hr by lia. apply Ok_inj in Hr. subst epochs.
    apply in_map_iff in Hin. destruct Hin as [k [<- Hk]].
    apply in_seq in Hk.
    replace ((n_epoch - 0 + 1 - 1) / 1) with n_epoch in Hk
      by (rewrite Z.div_1_r; lia).
    lia.
Qed.

Section FitLines.

Context {lstm_params adam_state : Type}.

Variable lstm : lstm_params -> tensor R 3 -> result (tensor R 3).
Variable criterion : tensor R 2 -> list Z -> result R.
Variable argmax : list R -> Z.
Variable adam_step :
  parameters lstm_params -> optimizer_t adam_state -> tensor Z 2 -> list Z ->
  parameters lstm_params * adam_state.
Variable shuffle : Z -> tensor Z 2 -> list Z -> tensor Z 2 * list Z.

Implicit Types w : world lstm_params adam_state.

Lemma steps_logged_refl (n_epoch n_batch : Z) w :
  steps_logged n_epoch n_batch w w.
Proof.
  split; [reflexivity|]. exists []. split; [|constructor].
  cbn. now rewrite app_nil_r.
Qed.

Lemma steps_logged_trans (n_epoch n_batch : Z) w1 w2 w3 :
  steps_logged n_epoch n_batch w1 w2 -> steps_logged n_epoch n_batch w2 w3 ->
  steps_logged n_epoch n_batch w1 w3.
Proof.
  intros [G1 [p1 [T1 F1]]] [G2 [p2 [T2 F2]]].
  split; [congruence|]. exists (p1 ++ p2). split.
  - now rewrite T2, T1, concat_app, app_assoc.
  - apply Forall_app. split; [exact F1|]. now rewrite <- G1.
Qed.

Lemma fit_batch_logged (n_epoch n_batch T epoch global_step : Z)
  (item : Z * (tensor Z 2 * list Z)) w :
  0 <= fst item -> 0 <= epoch < n_epoch ->
  steps_logged n_epoch n_batch w
    (snd (fit_batch lstm criterion argmax adam_step n_epoch n_batch T epoch
            global_step item w)).
Proof.
  intros Hitem Hepoch. unfold fit_batch, bindM, get, lift, modify, ret.
  destruct (forward lstm (self w) (fst (snd item))
              (Z.of_nat (length (fst (snd item))))) as [preds|e];
    [|apply steps_logged_refl].
  destruct (criterion preds (snd (snd item))) as [loss|e];
    [|apply steps_logged_refl].
  unfold adjust_lr, float_div.
  destruct (- T =? 0); cbn [bind]; [apply steps_logged_refl|].
  cbn [fst snd].
  destruct (Z.eqb_spec (fst item mod 100) 0) as [Hmod|Hmod]; cbn [fst snd].
  - split; [unfold groups; cbn; now rewrite length_map|].
    eexists [[_; _]]. split.
    + cbn [trace emit optimizer_step set_optimizer self optimizer param_groups
             concat app].
      rewrite <- app_assoc. cbn [app]. rewrite lrs_after_set_lr. reflexivity.
    + constructor; [|constructor].
      apply StepPrinted; [exact Hitem|exact Hmod|lia].
  - split; [unfold groups; cbn; now rewrite length_map|].
    eexists [[_]]. split.
    + cbn [trace optimizer_step set_optimizer self optimizer param_groups
             concat app].
      rewrite lrs_after_set_lr. reflexivity.
    + constructor; [|constructor]. apply StepQuiet.
Qed.

(** X16. Whatever [fit] is called with, and whether it returns or raises, what it
    writes is a sequence of passes of its batch loop: an optimizer step at one
    rate in all parameter groups, followed at once by at most one line.  So
    no line is printed without its step; every line reports the rate of the
    step before it, a local step that is a multiple of 100, an epoch from 1
    to [n_epoch], [n_epoch] and [int(len(X) / batch_size)]; and the number of
    parameter groups stays. *)
Theorem fit_step_lines w (X : tensor Z 2) (y : list Z)
  (n_epoch batch_size : Z) (en_shuffle : bool) :
  steps_logged n_epoch (Z.quot (Z.of_nat (length X)) batch_size) w
    (snd (fit lstm criterion argmax adam_step shuffle X y n_epoch batch_size
            en_shuffle w)).
Proof.
  rewrite fit_of_loop. cbn [snd]. unfold fit_loop.
  rewrite bindM_lift. unfold int_quotient.
  destruct (batch_size =? 0); [apply steps_logged_refl|].
  set (n_batch := Z.quot (Z.of_nat (length X)) batch_size).
  rewrite bindM_lift.
  destruct (range 0 n_epoch 1) as [epochs|e] eqn:Hr;
    [|apply steps_logged_refl].
  apply for_loop_keeps;
    [apply steps_logged_refl|apply steps_logged_trans|].
  intros locals epoch w1 Hepoch.
  apply (range_epochs n_epoch epochs epoch Hr) in Hepoch.
  unfold fit_epoch. rewrite bindM_lift.
  destruct (if en_shuffle then _ else _) as [Xy|e];
    [|apply steps_logged_refl].
  rewrite bindM_lift.
  destruct (gen_batch _ batch_size) as [bx|e]; [|apply steps_logged_refl].
  rewrite bindM_lift.
  destruct (gen_batch _ batch_size) as [by_|e]; [|apply steps_logged_refl].
  unfold bindM.
  pose proof (for_loop_keeps _ _ _ (steps_logged n_epoch n_batch)
                (fit_batch lstm criterion argmax adam_step n_epoch n_batch
                   (n_epoch * n_batch) epoch)
                (enumerate (zip bx by_))
                (steps_logged_refl n_epoch n_batch)
                (steps_logged_trans n_epoch n_batch)) as Hloop.
  specialize (Hloop (fun gs item w2 Hin =>
                       fit_batch_logged n_epoch n_batch (n_epoch * n_batch)
                         epoch gs item w2 (enumerate_nonneg _ _ item Hin)
                         Hepoch)
                    (fst locals) w1).
  destruct (for_loop
              (fit_batch lstm criterion argmax adam_step n_epoch n_batch
                 (n_epoch * n_batch) epoch)
              (enumerate (zip bx by_)) (fst locals) w1)
    as [[gs|e] w2]; exact Hloop.
Qed.

End FitLines.

(* ================================================================== *)
(** * Part V: [fit] on well-formed data *)
(* ================================================================== *)

(** A loop whose passes all return returns. *)
Lemma for_loop_completes (W A S : Type) (Inv : S -> W -> Prop)
  (body : S -> A -> M W S) (l : list A) :
  (forall s a w, In a l -> Inv s w ->
     exists s' w', body s a w = (Ok s', w') /\ Inv s' w') ->
  forall (s : S) (w : W), Inv s w ->
    exists s' w', for_loop body l s w = (Ok s', w') /\ Inv s' w'.
Proof.
  induction l as [|a l IH]; intros Hbody s w HI.
  - exists s, w. now split.
  - rewrite for_loop_cons.
    destruct (Hbody s a w (or_introl eq_refl) HI) as [s1 [w1 [-> HI1]]].
    apply IH; [|exact HI1].
    intros s0 a0 w0 Hin. apply Hbody. now right.
Qed.

Lemma well_formed_like {lstm_params adam_state : Type}
  (me0 me : model lstm_params adam_state) (s : nat) (X : tensor Z 2)
  (y : list Z) :
  hyperparameters me = hyperparameters me0 ->
  well_formed me0 s X y -> well_formed me s X y.
Proof.
  unfold hyperparameters, well_formed. intros Hhp.
  injection Hhp as -> -> _ _ _ _. exact (fun H => H).
Qed.

Lemma well_formed_incl {lstm_params adam_state : Type}
  (me : model lstm_params adam_state) (s : nat) (X X' : tensor Z 2)
  (y y' : list Z) :
  incl X' X -> incl y' y -> well_formed me s X y -> well_formed me s X' y'.
Proof.
  intros HX Hy [H1 H2]. rewrite Forall_forall in H1, H2.
  split; apply Forall_forall; intros x Hx; [apply H1, HX|apply H2, Hy];
    exact Hx.
Qed.

Lemma shuffle_permutes_keeps_lengths
  (shuffle : Z -> tensor Z 2 -> list Z -> tensor Z 2 * list Z) :
  shuffle_permutes shuffle -> keeps_lengths shuffle.
Proof.
  intros H k X y. destruct (H k X y) as [H1 H2].
  split; now apply Permutation_length.
Qed.

Section FitWellFormed.

Context {lstm_params adam_state : Type}.

Variable lstm : lstm_params -> tensor R 3 -> result (tensor R 3).
Variable criterion : tensor R 2 -> list Z -> result R.
Variable argmax : list R -> Z.
Variable adam_step :
  parameters lstm_params -> optimizer_t adam_state -> tensor Z 2 -> list Z ->
  parameters lstm_params * adam_state.
Variable shuffle : Z -> tensor Z 2 -> list Z -> tensor Z 2 * list Z.

Implicit Types (w : world lstm_params adam_state)
               (me : model lstm_params adam_state).

Variable me0 : model lstm_params adam_state.
Variable s : nat.

Hypothesis Hcell : 1 <= cell_size me0.
Hypothesis Hs : (1 <= s)%nat.
Hypothesis Hloss : loss_defined criterion.

(** The forward pass and the loss of a well-formed batch succeed. *)
Lemma forward_and_loss w (X_batch : tensor Z 2) (y_batch : list Z) :
  sized_like lstm me0 (self w) ->
  (1 <= length X_batch)%nat -> length y_batch = length X_batch ->
  well_formed me0 s X_batch y_batch ->
  exists preds loss,
    forward lstm (self w) X_batch (Z.of_nat (length X_batch)) = Ok preds /\
    criterion preds y_batch = Ok loss.
Proof.
  intros [Hhp [Hbuilt Hcells]] Hne Hlen Hwf.
  apply (well_formed_like me0 (self w) s _ _ Hhp) in Hwf.
  destruct Hwf as [HX Hy].
  assert (Hc : 1 <= cell_size (self w)).
  { unfold hyperparameters in Hhp. injection Hhp as _ _ _ -> _ _.
    exact Hcell. }
  assert (Hshape : has_shape 2 [length X_batch; s] X_batch).
  { apply shape2_rows. split; [reflexivity|].
    eapply Forall_impl; [|exact HX]. now intros row [H _]. }
  destruct (forward_sized lstm (self w) X_batch (length X_batch) s
              Hbuilt Hcells Hc Hshape Hne Hs) as [preds [Hpreds Hsh]].
  { intros row tok Hrow Htok. rewrite Forall_forall in HX.
    destruct (HX row Hrow) as [_ Htoks]. rewrite Forall_forall in Htoks.
    now apply Htoks. }
  destruct (Hloss preds y_batch (length X_batch) (Z.to_nat (n_out (self w)))
              Hsh Hne Hlen) as [loss Hl].
  { eapply Forall_impl; [|exact Hy]. intros l Hl. cbv beta in Hl |- *. lia. }
  now exists preds, loss.
Qed.

Lemma forward_failure_none w (i : Z) (X_batch : tensor Z 2)
  (y_batch : list Z) :
  sized_like lstm me0 (self w) ->
  (1 <= length X_batch)%nat -> length y_batch = length X_batch ->
  well_formed me0 s X_batch y_batch ->
  forward_failure lstm criterion w (i, (X_batch, y_batch)) = None.
Proof.
  intros Hw Hne Hlen Hwf.
  destruct (forward_and_loss w X_batch y_batch Hw Hne Hlen Hwf)
    as [preds [loss [Hp Hl]]].
  unfold forward_failure. cbn [fst snd]. now rewrite Hp, Hl.
Qed.

Hypothesis Hkept : sizes_kept lstm adam_step.

(** One pass of the batch loop on a well-formed batch returns, and leaves a
    model of the same sizes. *)
Lemma fit_batch_returns (n_epoch n_batch T epoch global_step : Z)
  (item : Z * (tensor Z 2 * list Z)) w :
  T <> 0 ->
  sized_like lstm me0 (self w) ->
  (1 <= length (fst (snd item)))%nat ->
  length (snd (snd item)) = length (fst (snd item)) ->
  well_formed me0 s (fst (snd item)) (snd (snd item)) ->
  exists w',
    fit_batch lstm criterion argmax adam_step n_epoch n_batch T epoch
      global_step item w = (Ok (global_step + 1), w') /\
    sized_like lstm me0 (self w').
Proof.
  intros HT Hw Hne Hlen Hwf.
  destruct (forward_and_loss w _ _ Hw Hne Hlen Hwf) as [preds [loss [Hp Hl]]].
  unfold fit_batch, bindM, get, lift, modify, ret.
  rewrite Hp, Hl, adjust_lr_value by exact HT. cbn [fst snd].
  destruct Hw as [Hhp [Hbuilt Hcells]].
  destruct (fst item mod 100 =? 0); eexists; (split; [reflexivity|]).
  all: cbn [self emit optimizer_step set_optimizer].
  all: match goal with
       | |- sized_like lstm me0 ?me' =>
           assert (Hhp' : hyperparameters me' = hyperparameters (self w))
             by reflexivity;
           destruct (Hkept (self w) me' _ _ _ Hhp' eq_refl Hbuilt Hcells)
             as [Hb' Hc'];
           split; [now rewrite Hhp'|now split]
       end.
Qed.

Lemma fit_batches_return (n_epoch n_batch T epoch : Z)
  (items : list (tensor Z 2 * list Z)) (global_step : Z) w :
  T <> 0 ->
  sized_like lstm me0 (self w) ->
  Forall (fun item => (1 <= length (fst item))%nat /\
                      length (snd item) = length (fst item) /\
                      well_formed me0 s (fst item) (snd item)) items ->
  exists global_step' w',
    for_loop (fit_batch lstm criterion argmax adam_step n_epoch n_batch T
                epoch) (enumerate items) global_step w
    = (Ok global_step', w') /\
    sized_like lstm me0 (self w').
Proof.
  intros HT Hw Hitems.
  apply (for_loop_completes _ _ _ (fun _ w0 => sized_like lstm me0 (self w0)));
    [|exact Hw].
  intros gs [i item] w0 Hin Hw0.
  unfold enumerate in Hin. apply in_combine_r in Hin.
  rewrite Forall_forall in Hitems.
  destruct (Hitems item Hin) as [Hne [Hlen Hwf]].
  destruct (fit_batch_returns n_epoch n_batch T epoch gs (i, item) w0 HT Hw0
              Hne Hlen Hwf) as [w' [Hrun Hw']].
  now exists (gs + 1), w'.
Qed.

Hypothesis Hshuffle : shuffle_permutes shuffle.

(** One epoch over well-formed data returns, with data that is well formed
    still. *)
Lemma fit_epoch_returns (n_epoch batch_size : Z) (en_shuffle : bool)
  (n_batch T : Z) (global_step : Z) (X : tensor Z 2) (y : list Z)
  (epoch : Z) w :
  T <> 0 -> 0 < batch_size ->
  sized_like lstm me0 (self w) ->
  length X = length y -> well_formed me0 s X y ->
  exists global_step' X' y' w',
    fit_epoch lstm criterion argmax adam_step shuffle n_epoch batch_size
      en_shuffle n_batch T (global_step, (X, y)) epoch w
    = (Ok (global_step', (X', y')), w') /\
    sized_like lstm me0 (self w') /\
    length X' = length y' /\ well_formed me0 s X' y'.
Proof.
  intros HT HB Hw Hlen Hwf. unfold fit_epoch. cbn [fst snd].
  set (Xy := if en_shuffle then shuffle epoch X y else (X, y)).
  assert (Hsh : (if en_shuffle then shuffled shuffle epoch X y
                 else Ok (X, y)) = Ok Xy).
  { subst Xy. destruct en_shuffle; [|reflexivity]. unfold shuffled.
    now rewrite Hlen, Nat.eqb_refl. }
  assert (HXy : length (fst Xy) = length (snd Xy) /\
                well_formed me0 s (fst Xy) (snd Xy)).
  { subst Xy. destruct en_shuffle; [|now split].
    destruct (Hshuffle epoch X y) as [H1 H2]. split.
    - apply Permutation_length in H1, H2. congruence.
    - apply (well_formed_incl me0 s X _ y _); [| |exact Hwf];
        intros x Hx; eapply Permutation_in; eassumption. }
  destruct HXy as [Hlen' Hwf'].
  destruct (zipped_batches _ _ (fst Xy) (snd Xy) batch_size HB Hlen')
    as [bx [by_ [Hbx [Hby Hitems]]]].
  rewrite bindM_lift, Hsh, bindM_lift, Hbx, bindM_lift, Hby. unfold bindM.
  destruct (fit_batches_return n_epoch n_batch T epoch (zip bx by_)
              global_step w HT Hw) as [gs' [w' [Hrun Hw']]].
  { eapply Forall_impl; [|exact Hitems].
    intros item [Hne [Hl [HiX Hiy]]]. split; [exact Hne|].
    split; [exact Hl|].
    exact (well_formed_incl me0 s _ _ _ _ HiX Hiy Hwf'). }
  match goal with
  | |- context [for_loop ?body ?l ?g ?w0] =>
      assert (Hrun' : for_loop body l g w0 = (Ok gs', w')) by exact Hrun;
      rewrite Hrun'
  end.
  unfold ret.
  exists gs', (fst Xy), (snd Xy), w'.
  split; [now rewrite <- surjective_pairing|].
  split; [exact Hw'|]. split; [exact Hlen'|exact Hwf'].
Qed.

(** [fit] on well-formed data with at least one scheduled step returns. *)
Lemma fit_loop_returns w (X : tensor Z 2) (y : list Z)
  (n_epoch batch_size : Z) (en_shuffle : bool) :
  0 < batch_size ->
  n_epoch * Z.quot (Z.of_nat (length X)) batch_size <> 0 ->
  sized_like lstm me0 (self w) ->
  length X = length y -> well_formed me0 s X y ->
  exists locals w',
    fit_loop lstm criterion argmax adam_step shuffle X y n_epoch batch_size
      en_shuffle w = (Ok locals, w').
Proof.
  intros HB HT Hw Hlen Hwf. unfold fit_loop.
  rewrite bindM_lift. unfold int_quotient.
  destruct (Z.eqb_spec batch_size 0); [lia|].
  rewrite bindM_lift.
  destruct (range 0 n_epoch 1) as [epochs|e] eqn:Hr.
  2:{ unfold range in Hr. discriminate Hr. }
  destruct (for_loop_completes _ _ _
              (fun (locals : Z * (tensor Z 2 * list Z)) w0 =>
                 sized_like lstm me0 (self w0) /\
                 length (fst (snd locals)) = length (snd (snd locals)) /\
                 well_formed me0 s (fst (snd locals)) (snd (snd locals)))
              (fit_epoch lstm criterion argmax adam_step shuffle n_epoch
                 batch_size en_shuffle
                 (Z.quot (Z.of_nat (length X)) batch_size)
                 (n_epoch * Z.quot (Z.of_nat (length X)) batch_size))
              epochs) with (s := (0, (X, y))) (w := w)
    as [locals [w' [Hrun _]]].
  - intros [gs [X0 y0]] epoch w0 _ [Hw0 [Hl0 Hwf0]]. cbn [fst snd] in *.
    destruct (fit_epoch_returns n_epoch batch_size en_shuffle
                (Z.quot (Z.of_nat (length X)) batch_size)
                (n_epoch * Z.quot (Z.of_nat (length X)) batch_size)
                gs X0 y0 epoch w0 HT HB Hw0 Hl0 Hwf0)
      as [gs' [X' [y' [w' [Hrun [Hw' [Hl' Hwf']]]]]]].
    exists (gs', (X', y')), w'. split; [exact Hrun|].
    split; [exact Hw'|]. split; [exact Hl'|exact Hwf'].
  - split; [exact Hw|]. split; [exact Hlen|exact Hwf].
  - now exists locals, w'.
Qed.

End FitWellFormed.


(** ** [fit]: a batch size that does not divide the number of examples *)

Lemma scheduled_steps_In (T : Z) (g : nat) (m : nat) (k : Z) :
  0 <= k < Z.of_nat m ->
  In (k, repeat (lr_schedule k T) g) (scheduled_steps T g 0 m).
Proof.
  intros Hk. unfold scheduled_steps. apply in_map_iff.
  exists (Z.to_nat k). rewrite Z.add_0_l, Z2Nat.id by lia.
  split; [reflexivity|]. apply in_seq. lia.
Qed.


Lemma small_sizes_kept : sizes_kept Small.lstm Small.adam_step.
Proof.
  intros me me' opt Xb yb Hhp Hp Hbuilt Hcells.
  cbn [Small.adam_step fst] in Hp.
  unfold hyperparameters in Hhp. injection Hhp as Hv Ho He Hc _ _.
  split.
  - unfold built in *. now rewrite Hp, Hv, Ho, He, Hc.
  - unfold cells_sized in *. now rewrite Hp, He, Hc.
Qed.

Lemma small_loss_defined : loss_defined Small.criterion.
Proof. intros preds labels b o _ _ _ _. now exists 0%R. Qed.

Lemma small_shuffle_permutes : shuffle_permutes Small.shuffle.
Proof. intros k X y. split; apply Permutation_refl. Qed.

Lemma small_examples_well_formed :
  well_formed Small.net 3 Small.examples Small.labels.
Proof.
  split.
  - repeat (constructor; [split; [reflexivity|]; repeat constructor; cbn; lia|]).
    constructor.
  - repeat (constructor; [cbn; lia|]). constructor.
Qed.


(** ** [fit]: fewer examples than the batch size *)



(** Without an epoch the claim fails: no batch is drawn, and [fit] returns
    without an error although [len(X)] is below [batch_size]. *)
Lemma fit_without_epoch_returns :
  0 < Z.of_nat (length Small.tokens) < 2 /\
  fit Small.lstm Small.criterion Small.argmax Small.adam_step Small.shuffle
    Small.tokens [0] 0 2 true Small.start
  = (Ok tt, Small.start).
Proof. split; [simpl; lia|reflexivity]. Qed.

(** And a token outside the vocabulary makes the forward pass of the one
    batch raise before [adjust_lr] is reached. *)
Example fit_unknown_token_first :
  fit Small.lstm Small.criterion Small.argmax Small.adam_step Small.shuffle
    [[0; 2; 1]] [0] 1 2 true Small.start
  = (Raise IndexError, Small.start).
Proof. reflexivity. Qed.
